(** * A shallow embedding of the Xinu shell and its script interpreter

    The C sources [script_interpreter.c] and [shell.c] are embedded as Rocq
    functions over explicit states.  C strings are lists of characters (the
    bytes before the terminating NUL), [int32_t] values are integers in [Z],
    fixed-size tables are lists updated by index, and every function that
    mutates a structure through a pointer returns the new structure next to
    its C return value. *)

From Stdlib Require Import ZArith Ascii String List Lia.
From stdpp Require Import base tactics option list gmap strings pretty.

Local Open Scope Z_scope.

(** ** C strings and the <string.h> / <ctype.h> functions the code uses *)

Module CStr.

Abbreviation cstring := (list ascii).

(** A literal, as the list of its characters. *)
Definition lit (s : string) : cstring := list_ascii_of_string s.

Definition NUL : ascii := "000"%char.

Definition code (c : ascii) : Z := Z.of_N (N_of_ascii c).

Definition is_blank (c : ascii) : bool :=
  (c =? " ")%char || (c =? "009")%char.

Definition isdigit (c : ascii) : bool := (48 <=? code c) && (code c <=? 57).

Definition isalpha (c : ascii) : bool :=
  ((65 <=? code c) && (code c <=? 90)) || ((97 <=? code c) && (code c <=? 122)).

Definition isalnum (c : ascii) : bool := isalpha c || isdigit c.

Definition isxdigit (c : ascii) : bool :=
  isdigit c || ((97 <=? code c) && (code c <=? 102))
            || ((65 <=? code c) && (code c <=? 70)).

Definition isoctal (c : ascii) : bool := (48 <=? code c) && (code c <=? 55).

(** [strcmp a b == 0] *)
Definition streq (a b : cstring) : bool := bool_decide (a = b).

(** [strncpy (dst, src, n); dst[n] = '\0'] read back as a string. *)
Definition strncpy (src : cstring) (n : nat) : cstring := take n src.

(** [strncmp (p, pre, strlen pre) == 0] *)
Fixpoint has_prefix (pre p : cstring) : bool :=
  match pre, p with
  | [], _ => true
  | a :: pre', b :: p' => (a =? b)%char && has_prefix pre' p'
  | _ :: _, [] => false
  end.

(** [strchr (p, c)], as the offset of the first occurrence. *)
Fixpoint strchr (p : cstring) (c : ascii) : option nat :=
  match p with
  | [] => None
  | a :: p' => if (a =? c)%char then Some 0%nat else S <$> strchr p' c
  end.

(** [while ( *p == ' ' || *p == '\t') p++;] *)
Fixpoint skip_blanks (p : cstring) : cstring :=
  match p with
  | c :: p' => if is_blank c then skip_blanks p' else p
  | [] => []
  end.

(** [strtok_r (s, "\n", &save)] called until it returns NULL: the maximal
    runs of characters other than the newline, empty runs skipped. *)
Fixpoint lines_from (cur : cstring) (s : cstring) : list cstring :=
  match s with
  | [] => if cur is [] then [] else [cur]
  | c :: s' =>
      if (c =? "010")%char
      then (if cur is [] then lines_from [] s' else cur :: lines_from [] s')
      else lines_from (cur ++ [c]) s'
  end.

Definition strtok_lines (s : cstring) : list cstring := lines_from [] s.

(** The string stored at the start of a memory block: its characters up to
    the first NUL. *)
Fixpoint c_str (m : list ascii) : cstring :=
  match m with
  | ch :: m' => if (ch =? NUL)%char then [] else ch :: c_str m'
  | [] => []
  end.

(** The number of blanks a memory block starts with. *)
Fixpoint count_blanks (m : list ascii) : nat :=
  match m with
  | ch :: m' => if is_blank ch then S (count_blanks m') else O
  | [] => O
  end.

End CStr.

Import CStr.

(** ** Machine integers *)

(** Two's-complement wrap-around of an [int32_t] result. *)
Definition wrap32 (z : Z) : Z := (z + 2 ^ 31) mod 2 ^ 32 - 2 ^ 31.

(** [status] codes of interpreter.h. *)
Definition OK : Z := 1.
Definition SYSERR : Z := -1.

(** ** The script interpreter: script_interpreter.c *)

Module Script.

Definition SCRIPT_MAX_VARS : nat := 128.
Definition SCRIPT_MAX_FUNCS : nat := 64.
Definition SCRIPT_MAX_STACK : Z := 256.
Definition SCRIPT_VAR_NAME_LEN : nat := 64.
Definition SCRIPT_VAR_VAL_LEN : nat := 256.
Definition SCRIPT_MAX_LABELS : nat := 64.

Inductive var_type_t :=
| VAR_TYPE_INT
| VAR_TYPE_STRING
| VAR_TYPE_FLOAT
| VAR_TYPE_ARRAY
| VAR_TYPE_UNDEFINED.

#[global] Instance var_type_eq_dec : EqDecision var_type_t.
Proof. solve_decision. Defined.

(** The [value] union of a variable, as the member stored last.  A double is
    carried as its 64 bits, a pointer as its address. *)
Inductive var_value :=
| val_none
| val_int (z : Z)
| val_float (bits : Z)
| val_str (s : cstring)
| val_array (addr : Z).

(** What a [void *value] argument points to: the address itself and what is
    read through it at each of the types [script_set_var] casts it to. *)
Record pointee := {
  pt_addr : Z;
  pt_int : Z;
  pt_float : Z;
  pt_str : cstring
}.

Record script_var_t := {
  var_name : cstring;
  var_type : var_type_t;
  var_val : var_value;
  readonly : bool;
  exported : bool;
  var_defined : bool
}.

Record script_func_t := {
  func_name : cstring;
  body : option cstring;          (* NULL, or the owned buffer *)
  body_len : Z;
  num_params : Z;
  func_defined : bool
}.

Record script_label_t := {
  label_name : cstring;
  label_line : Z;
  label_defined : bool
}.

Record script_context_t := {
  vars : list script_var_t;
  funcs : list script_func_t;
  labels : list script_label_t;
  var_count : Z;
  func_count : Z;
  label_count : Z;
  line_num : Z;
  running : bool;
  exit_code : Z;
  loop_stack : list Z;
  loop_sp : Z;
  call_stack : list Z;
  call_sp : Z;
  stdin_fd : Z;
  stdout_fd : Z;
  stderr_fd : Z
}.

(** Field updates. *)
Definition set_vars (vs : list script_var_t) (n : Z) (c : script_context_t) :=
  {| vars := vs; funcs := funcs c; labels := labels c;
     var_count := n; func_count := func_count c; label_count := label_count c;
     line_num := line_num c; running := running c; exit_code := exit_code c;
     loop_stack := loop_stack c; loop_sp := loop_sp c;
     call_stack := call_stack c; call_sp := call_sp c;
     stdin_fd := stdin_fd c; stdout_fd := stdout_fd c; stderr_fd := stderr_fd c |}.

Definition set_funcs (fs : list script_func_t) (n : Z) (c : script_context_t) :=
  {| vars := vars c; funcs := fs; labels := labels c;
     var_count := var_count c; func_count := n; label_count := label_count c;
     line_num := line_num c; running := running c; exit_code := exit_code c;
     loop_stack := loop_stack c; loop_sp := loop_sp c;
     call_stack := call_stack c; call_sp := call_sp c;
     stdin_fd := stdin_fd c; stdout_fd := stdout_fd c; stderr_fd := stderr_fd c |}.

Definition set_labels (ls : list script_label_t) (n : Z) (c : script_context_t) :=
  {| vars := vars c; funcs := funcs c; labels := ls;
     var_count := var_count c; func_count := func_count c; label_count := n;
     line_num := line_num c; running := running c; exit_code := exit_code c;
     loop_stack := loop_stack c; loop_sp := loop_sp c;
     call_stack := call_stack c; call_sp := call_sp c;
     stdin_fd := stdin_fd c; stdout_fd := stdout_fd c; stderr_fd := stderr_fd c |}.

Definition set_line_num (n : Z) (c : script_context_t) :=
  {| vars := vars c; funcs := funcs c; labels := labels c;
     var_count := var_count c; func_count := func_count c;
     label_count := label_count c;
     line_num := n; running := running c; exit_code := exit_code c;
     loop_stack := loop_stack c; loop_sp := loop_sp c;
     call_stack := call_stack c; call_sp := call_sp c;
     stdin_fd := stdin_fd c; stdout_fd := stdout_fd c; stderr_fd := stderr_fd c |}.

Definition set_running (b : bool) (c : script_context_t) :=
  {| vars := vars c; funcs := funcs c; labels := labels c;
     var_count := var_count c; func_count := func_count c;
     label_count := label_count c;
     line_num := line_num c; running := b; exit_code := exit_code c;
     loop_stack := loop_stack c; loop_sp := loop_sp c;
     call_stack := call_stack c; call_sp := call_sp c;
     stdin_fd := stdin_fd c; stdout_fd := stdout_fd c; stderr_fd := stderr_fd c |}.

Definition set_exit_code (n : Z) (c : script_context_t) :=
  {| vars := vars c; funcs := funcs c; labels := labels c;
     var_count := var_count c; func_count := func_count c;
     label_count := label_count c;
     line_num := line_num c; running := running c; exit_code := n;
     loop_stack := loop_stack c; loop_sp := loop_sp c;
     call_stack := call_stack c; call_sp := call_sp c;
     stdin_fd := stdin_fd c; stdout_fd := stdout_fd c; stderr_fd := stderr_fd c |}.

Definition set_call (st : list Z) (sp : Z) (c : script_context_t) :=
  {| vars := vars c; funcs := funcs c; labels := labels c;
     var_count := var_count c; func_count := func_count c;
     label_count := label_count c;
     line_num := line_num c; running := running c; exit_code := exit_code c;
     loop_stack := loop_stack c; loop_sp := loop_sp c;
     call_stack := st; call_sp := sp;
     stdin_fd := stdin_fd c; stdout_fd := stdout_fd c; stderr_fd := stderr_fd c |}.

(** *** Lifecycle *)

Definition reset_var (v : script_var_t) : script_var_t :=
  {| var_name := var_name v; var_type := VAR_TYPE_UNDEFINED; var_val := var_val v;
     readonly := false; exported := false; var_defined := false |}.

Definition reset_func (f : script_func_t) : script_func_t :=
  {| func_name := func_name f; body := None; body_len := body_len f;
     num_params := num_params f; func_defined := false |}.

Definition reset_label (l : script_label_t) : script_label_t :=
  {| label_name := label_name l; label_line := label_line l;
     label_defined := false |}.

(** [script_reset_context] on a non-NULL context. *)
Definition script_reset_context (c : script_context_t) : script_context_t :=
  {| vars := reset_var <$> vars c;
     funcs := reset_func <$> funcs c;
     labels := reset_label <$> labels c;
     var_count := 0; func_count := 0; label_count := 0;
     line_num := 0; running := false; exit_code := 0;
     loop_stack := loop_stack c; loop_sp := 0;
     call_stack := call_stack c; call_sp := 0;
     stdin_fd := 0; stdout_fd := 1; stderr_fd := 2 |}.

(** [script_create_context]: [getmem] yields NULL or a block with arbitrary
    contents [mem], which is then reset. *)
Definition script_create_context (mem : option script_context_t)
  : option script_context_t :=
  script_reset_context <$> mem.

(** *** Variables *)

Definition var_named (name : cstring) (v : script_var_t) : Prop :=
  var_defined v = true ∧ var_name v = name.

#[global] Instance var_named_dec name v : Decision (var_named name v).
Proof. unfold var_named. apply _. Defined.

(** [find_var]: the index of the first defined slot bearing the name. *)
Definition find_var (c : script_context_t) (name : cstring) : option nat :=
  fst <$> list_find (var_named name) (vars c).

Definition var_free (v : script_var_t) : Prop := var_defined v = false.

#[global] Instance var_free_dec v : Decision (var_free v).
Proof. unfold var_free. apply _. Defined.

Definition fresh_var (name : cstring) (v : script_var_t) : script_var_t :=
  {| var_name := strncpy name (SCRIPT_VAR_NAME_LEN - 1);
     var_type := VAR_TYPE_UNDEFINED; var_val := var_val v;
     readonly := false; exported := false; var_defined := true |}.

(** [create_var]: the slot of the variable, created when absent; [None] is
    the NULL returned when the table is full. *)
Definition create_var (c : script_context_t) (name : cstring)
  : option nat * script_context_t :=
  match find_var c name with
  | Some i => (Some i, c)
  | None =>
      match list_find var_free (vars c) with
      | Some (i, v) =>
          (Some i, set_vars (<[i := fresh_var name v]> (vars c))
                            (wrap32 (var_count c + 1)) c)
      | None => (None, c)
      end
  end.

Definition store_value (v : script_var_t) (t : var_type_t) (x : var_value)
  : script_var_t :=
  {| var_name := var_name v; var_type := t; var_val := x;
     readonly := readonly v; exported := exported v;
     var_defined := var_defined v |}.

(** [script_set_var] on a non-NULL context and name; [value] is [None] for a
    NULL pointer. *)
Definition script_set_var (c : script_context_t) (name : cstring)
    (type : var_type_t) (value : option pointee) : Z * script_context_t :=
  match value with
  | None => (SYSERR, c)
  | Some pv =>
      match create_var c name with
      | (None, c1) => (SYSERR, c1)
      | (Some i, c1) =>
          match vars c1 !! i with
          | None => (SYSERR, c1)
          | Some v =>
              if readonly v then (SYSERR, c1)
              else
                let put x :=
                  set_vars (<[i := store_value v type x]> (vars c1))
                           (var_count c1) c1 in
                match type with
                | VAR_TYPE_INT => (OK, put (val_int (pt_int pv)))
                | VAR_TYPE_FLOAT => (OK, put (val_float (pt_float pv)))
                | VAR_TYPE_STRING =>
                    (OK, put (val_str (strncpy (pt_str pv)
                                               (SCRIPT_VAR_VAL_LEN - 1))))
                | VAR_TYPE_ARRAY => (OK, put (val_array (pt_addr pv)))
                | VAR_TYPE_UNDEFINED => (SYSERR, put (var_val v))
                end
          end
      end
  end.

(** [script_get_var] with both out-parameters given: the status, the type
    written to [*type] and the member read into [*value]. *)
Definition script_get_var (c : script_context_t) (name : cstring)
  : Z * option var_type_t * option var_value :=
  match find_var c name with
  | None => (SYSERR, None, None)
  | Some i =>
      match vars c !! i with
      | None => (SYSERR, None, None)
      | Some v =>
          match var_type v with
          | VAR_TYPE_UNDEFINED => (SYSERR, Some VAR_TYPE_UNDEFINED, None)
          | t => (OK, Some t, Some (var_val v))
          end
      end
  end.

Definition undefine_var (v : script_var_t) : script_var_t :=
  {| var_name := var_name v; var_type := var_type v; var_val := var_val v;
     readonly := readonly v; exported := exported v; var_defined := false |}.

Definition script_unset_var (c : script_context_t) (name : cstring)
  : Z * script_context_t :=
  match find_var c name with
  | None => (SYSERR, c)
  | Some i =>
      match vars c !! i with
      | None => (SYSERR, c)
      | Some v =>
          if readonly v then (SYSERR, c)
          else (OK, set_vars (<[i := undefine_var v]> (vars c))
                             (wrap32 (var_count c - 1)) c)
      end
  end.

Definition script_var_exists (c : script_context_t) (name : cstring) : bool :=
  bool_decide (is_Some (find_var c name)).

(** *** Functions *)

Definition func_named (name : cstring) (f : script_func_t) : Prop :=
  func_defined f = true ∧ func_name f = name.

#[global] Instance func_named_dec name f : Decision (func_named name f).
Proof. unfold func_named. apply _. Defined.

Definition find_func (c : script_context_t) (name : cstring) : option nat :=
  fst <$> list_find (func_named name) (funcs c).

Definition func_free (f : script_func_t) : Prop := func_defined f = false.

#[global] Instance func_free_dec f : Decision (func_free f).
Proof. unfold func_free. apply _. Defined.

Definition claim_func (name : cstring) (f : script_func_t) : script_func_t :=
  {| func_name := strncpy name (SCRIPT_VAR_NAME_LEN - 1); body := body f;
     body_len := body_len f; num_params := num_params f;
     func_defined := true |}.

(** The tail of [script_define_func] once the slot is chosen: a fresh copy
    of the body when [getmem] succeeds ([mem_ok]), the slot given up
    otherwise. *)
Definition store_body (f : script_func_t) (b : cstring) (n : Z) (mem_ok : bool)
  : Z * script_func_t :=
  let len := wrap32 (Z.of_nat (length b) + 1) in
  if mem_ok then
    (OK, {| func_name := func_name f; body := Some b; body_len := len;
            num_params := n; func_defined := func_defined f |})
  else
    (SYSERR, {| func_name := func_name f; body := None; body_len := len;
                num_params := num_params f; func_defined := false |}).

Definition script_define_func (c : script_context_t) (name b : cstring)
    (n : Z) (mem_ok : bool) : Z * script_context_t :=
  let slot :=
    match find_func c name with
    | Some i => (Some i, c)
    | None =>
        match list_find func_free (funcs c) with
        | Some (i, f) =>
            (Some i, set_funcs (<[i := claim_func name f]> (funcs c))
                               (wrap32 (func_count c + 1)) c)
        | None => (None, c)
        end
    end in
  match slot with
  | (None, c1) => (SYSERR, c1)
  | (Some i, c1) =>
      match funcs c1 !! i with
      | None => (SYSERR, c1)
      | Some f =>
          let '(r, f') := store_body f b n mem_ok in
          (r, set_funcs (<[i := f']> (funcs c1)) (func_count c1) c1)
      end
  end.

(** *** Expression evaluation *)

Definition hex_value (c : ascii) : Z :=
  if isdigit c then code c - 48
  else if (97 <=? code c) && (code c <=? 102) then code c - 97 + 10
  else if (65 <=? code c) && (code c <=? 70) then code c - 65 + 10
  else 0.

Fixpoint parse_hex (p : cstring) (result : Z) : Z :=
  match p with
  | c :: p' =>
      if isxdigit c then parse_hex p' (wrap32 (wrap32 (result * 16) + hex_value c))
      else result
  | [] => result
  end.

Fixpoint parse_octal (p : cstring) (result : Z) : Z :=
  match p with
  | c :: p' =>
      if isoctal c then parse_octal p' (wrap32 (wrap32 (result * 8) + (code c - 48)))
      else result
  | [] => result
  end.

Fixpoint parse_decimal (p : cstring) (result : Z) : Z :=
  match p with
  | c :: p' =>
      if isdigit c then parse_decimal p' (wrap32 (wrap32 (result * 10) + (code c - 48)))
      else result
  | [] => result
  end.

(** The name after a [$]: at most 63 alphanumeric or underscore characters. *)
Fixpoint ident_prefix (p : cstring) (room : nat) : cstring :=
  match room, p with
  | S room', c :: p' =>
      if isalnum c || (c =? "_")%char then c :: ident_prefix p' room' else []
  | _, _ => []
  end.

(** [script_eval_int].  For a reference [$name] it hands [script_get_var]
    the address of its local [int32_t result].  [script_get_var] stores
    through that pointer what the variable holds: four bytes for an integer,
    but a [double] for a float, a pointer for an array, and the characters
    of a string up to and with its terminator.  Only the first is sure to
    stay within [result]; with the others the C writes beyond it and has no
    defined behaviour (the value it returns, if it returns, is whatever the
    overwritten stack makes of it).  The definition below gives the value
    the C returns where [eval_int_in_bounds], defined after it, holds.
    Where it does not hold, the definition goes on as if nothing had been
    written beyond [result]: a theorem that tells what an expression or a
    line yields assumes [eval_int_in_bounds], and an invariant over all runs
    is proved of every context the definitions reach, among which are all
    those the C reaches while its behaviour is defined. *)
Definition script_eval_int (c : script_context_t) (expr : cstring) : Z :=
  let p := skip_blanks expr in
  let '(negative, p) :=
    match p with
    | "-"%char :: p' => (true, p')
    | "+"%char :: p' => (false, p')
    | _ => (false, p)
    end in
  let signed (result : Z) := if negative : bool then wrap32 (- result) else result in
  match p with
  | "$"%char :: p' =>
      match script_get_var c (ident_prefix p' 63) with
      | (r, Some VAR_TYPE_INT, Some (val_int result)) =>
          if r =? OK then signed result else 0
      | _ => 0
      end
  | "0"%char :: x :: p' =>
      if (x =? "x")%char || (x =? "X")%char then signed (parse_hex p' 0)
      else if isoctal x then signed (parse_octal (x :: p') 0)
      else signed (parse_decimal p 0)
  | _ => signed (parse_decimal p 0)
  end.

(** The variable a reference [$name] at the head of the expression, behind
    blanks and a sign, makes [script_eval_int] look up. *)
Definition referenced_var (c : script_context_t) (expr : cstring)
  : option script_var_t :=
  let p := skip_blanks expr in
  let p := match p with
           | "-"%char :: p' => p'
           | "+"%char :: p' => p'
           | _ => p
           end in
  match p with
  | "$"%char :: p' =>
      snd <$> list_find (var_named (ident_prefix p' 63)) (vars c)
  | _ => None
  end.

(** [script_get_var] writes at most an [int32_t] through its [value]
    pointer: the variable is an integer, or of no type (nothing is written
    then). *)
Definition int_sized (v : script_var_t) : bool :=
  match var_type v with
  | VAR_TYPE_INT | VAR_TYPE_UNDEFINED => true
  | VAR_TYPE_FLOAT | VAR_TYPE_STRING | VAR_TYPE_ARRAY => false
  end.

(** The call [script_eval_int (ctx, expr)] stays within its [result]: the
    expression is no reference, or refers to no variable, or to one that is
    [int_sized].  [script_eval_bool] passes its whole argument on, so the
    same condition serves for it. *)
Definition eval_int_in_bounds (c : script_context_t) (expr : cstring) : bool :=
  match referenced_var c expr with
  | Some v => int_sized v
  | None => true
  end.

Definition script_eval_bool (c : script_context_t) (expr : cstring) : bool :=
  let p := skip_blanks expr in
  if p is [] then false
  else if streq p (lit "true") || streq p (lit "TRUE") || streq p (lit "1")
  then true
  else if streq p (lit "false") || streq p (lit "FALSE") || streq p (lit "0")
  then false
  else negb (script_eval_int c expr =? 0).

(** [script_eval_string]: the expression cut to the static result buffer. *)
Definition script_eval_string (c : script_context_t) (expr : cstring) : cstring :=
  strncpy expr (SCRIPT_VAR_VAL_LEN - 1).

(** *** Labels and control transfer *)

Definition label_named (name : cstring) (l : script_label_t) : Prop :=
  label_defined l = true ∧ label_name l = name.

#[global] Instance label_named_dec name l : Decision (label_named name l).
Proof. unfold label_named. apply _. Defined.

Definition find_label (c : script_context_t) (name : cstring) : option nat :=
  fst <$> list_find (label_named name) (labels c).

Definition label_free (l : script_label_t) : Prop := label_defined l = false.

#[global] Instance label_free_dec l : Decision (label_free l).
Proof. unfold label_free. apply _. Defined.

Definition create_label (c : script_context_t) (name : cstring) (line : Z)
  : Z * script_context_t :=
  match list_find (label_named name) (labels c) with
  | Some (i, l) =>
      (OK, set_labels
             (<[i := {| label_name := label_name l; label_line := line;
                        label_defined := label_defined l |}]> (labels c))
             (label_count c) c)
  | None =>
      match list_find label_free (labels c) with
      | Some (i, _) =>
          (OK, set_labels
                 (<[i := {| label_name := strncpy name (SCRIPT_VAR_NAME_LEN - 1);
                            label_line := line; label_defined := true |}]>
                    (labels c))
                 (wrap32 (label_count c + 1)) c)
      | None => (SYSERR, c)
      end
  end.

Definition script_goto_label (c : script_context_t) (label : cstring)
  : Z * script_context_t :=
  match list_find (label_named label) (labels c) with
  | None => (SYSERR, c)
  | Some (_, l) => (OK, set_line_num (label_line l) c)
  end.

(** [ctx->loop_stack[ctx->loop_sp - 1]] *)
Definition loop_top (c : script_context_t) : Z :=
  default 0 (loop_stack c !! Z.to_nat (loop_sp c - 1)).

Definition script_break (c : script_context_t) : Z * script_context_t :=
  if loop_sp c =? 0 then (SYSERR, c)
  else (OK, set_line_num (loop_top c) c).

Definition script_continue (c : script_context_t) : Z * script_context_t :=
  if loop_sp c =? 0 then (SYSERR, c)
  else (OK, set_line_num (wrap32 (loop_top c - 1)) c).

Definition script_return (c : script_context_t) (value : Z)
  : Z * script_context_t :=
  (OK, set_running false (set_exit_code value c)).

(** *** The line executor *)

(** A pointer to an [int32_t] local, and a pointer to a string. *)
Definition int_ptr (z : Z) : pointee :=
  {| pt_addr := 0; pt_int := z; pt_float := 0; pt_str := [] |}.
Definition str_ptr (s : cstring) : pointee :=
  {| pt_addr := 0; pt_int := 0; pt_float := 0; pt_str := s |}.

(** [while (len > 0 && (p[len - 1] == ' ' || p[len - 1] == '\t')) len--;] *)
Fixpoint trim_len (p : cstring) (len : nat) : nat :=
  match len with
  | O => O
  | S k =>
      match p !! k with
      | Some ch => if is_blank ch then trim_len p k else len
      | None => len
      end
  end.

(** The label step of [execute_line]: the context after the label is
    recorded and the rest of the line still to be processed ([None] when
    the line ends after the colon). *)
Definition label_step (c : script_context_t) (p : cstring)
  : script_context_t * option cstring :=
  match strchr p ":" with
  | Some (S k) =>
      let len := S k in
      let c1 :=
        if bool_decide (len < SCRIPT_VAR_NAME_LEN)%nat
        then (create_label c (take len p) (line_num c)).2
        else c in
      let p1 := skip_blanks (drop (S len) p) in
      if p1 is [] then (c1, None) else (c1, Some p1)
  | _ => (c, Some p)
  end.

(** The assignment step: [None] when the line is not an assignment, else the
    context after [script_set_var]. *)
Definition assign_step (c : script_context_t) (p : cstring)
  : option script_context_t :=
  match strchr p "=" with
  | Some (S k) =>
      let before := default NUL (p !! k) in
      if (before =? "!")%char || (before =? "<")%char || (before =? ">")%char
      then None
      else
        let len := trim_len p (S k) in
        if bool_decide (len < SCRIPT_VAR_NAME_LEN)%nat then
          let name := take len p in
          let q := skip_blanks (drop (S (S k)) p) in
          let numeric :=
            match q with
            | ch :: _ => isdigit ch || (ch =? "-")%char || (ch =? "+")%char
            | [] => false
            end in
          if numeric
          then Some (script_set_var c name VAR_TYPE_INT
                       (Some (int_ptr (script_eval_int c q)))).2
          else Some (script_set_var c name VAR_TYPE_STRING (Some (str_ptr q))).2
        else None
  | _ => None
  end.

(** The keyword dispatch at the end of [execute_line]. *)
Definition keyword_step (c : script_context_t) (p : cstring)
  : Z * script_context_t :=
  if has_prefix (lit "if ") p then
    let condition := script_eval_bool c (drop 3 p) in (OK, c)
  else if has_prefix (lit "while ") p then
    let condition := script_eval_bool c (drop 6 p) in (OK, c)
  else if has_prefix (lit "for ") p then (OK, c)
  else if streq p (lit "break") then script_break c
  else if streq p (lit "continue") then script_continue c
  else if has_prefix (lit "return") p then
    let q := skip_blanks (drop 6 p) in
    let val := if q is [] then 0 else script_eval_int c q in
    script_return c val
  else if has_prefix (lit "goto ") p then
    script_goto_label c (skip_blanks (drop 5 p))
  else
    let _ := script_eval_int c p in (OK, c).

Definition execute_line (c : script_context_t) (line : cstring)
  : Z * script_context_t :=
  let p := skip_blanks line in
  match p with
  | [] => (OK, c)
  | ch :: _ =>
      if (ch =? "#")%char then (OK, c)
      else
        match label_step c p with
        | (c1, None) => (OK, c1)
        | (c1, Some p1) =>
            match assign_step c1 p1 with
            | Some c2 => (OK, c2)
            | None => keyword_step c1 p1
            end
        end
  end.

(** [script_execute_line] on a non-NULL context and line. *)
Definition script_execute_line (c : script_context_t) (line : cstring)
  : Z * script_context_t :=
  execute_line c line.

(** The [while (line != NULL && ctx->running)] loop of [script_execute] over
    the lines [strtok_r] still has to deliver. *)
Fixpoint run_lines (c : script_context_t) (ls : list cstring)
  : script_context_t :=
  match ls with
  | [] => c
  | line :: rest =>
      if running c then
        let '(result, c1) :=
          execute_line (set_line_num (wrap32 (line_num c + 1)) c) line in
        if result =? OK then run_lines c1 rest else c1
      else c
  end.

(** [script_execute]; [script] is [None] for NULL and [mem_ok] tells whether
    [getmem] delivers the copy of the script. *)
Definition script_execute (c : script_context_t) (script : option cstring)
    (mem_ok : bool) : Z * script_context_t :=
  match script with
  | None => (SYSERR, c)
  | Some text =>
      if mem_ok then
        let c1 := run_lines (set_line_num 0 (set_running true c))
                            (strtok_lines text) in
        (exit_code c1, set_running false c1)
      else (SYSERR, c)
  end.

(** [script_execute_file] is a stub. *)
Definition script_execute_file (c : script_context_t) (filename : cstring)
  : Z * script_context_t :=
  (SYSERR, c).

(** [snprintf (param_name, 32, "arg%d", i)] *)
Definition param_name (i : nat) : cstring := lit "arg" ++ lit (pretty i).

(** The parameter loop of [script_call_func], from index [i] on. *)
Fixpoint bind_params (c : script_context_t) (i : nat) (args : list cstring)
    (room : nat) : script_context_t :=
  match room, args with
  | S room', a :: args' =>
      bind_params
        (script_set_var c (param_name i) VAR_TYPE_STRING (Some (str_ptr a))).2
        (S i) args' room'
  | _, _ => c
  end.

(** [script_call_func] with [argc] the length of [argv]. *)
Definition script_call_func (c : script_context_t) (name : cstring)
    (argv : list cstring) (mem_ok : bool) : Z * script_context_t :=
  match list_find (func_named name) (funcs c) with
  | None => (SYSERR, c)
  | Some (_, f) =>
      if SCRIPT_MAX_STACK <=? call_sp c then (SYSERR, c)
      else
        let c1 := set_call (<[Z.to_nat (call_sp c) := line_num c]> (call_stack c))
                           (call_sp c + 1) c in
        let c2 := bind_params c1 0 argv (Z.to_nat (num_params f)) in
        let '(result, c3) := script_execute c2 (body f) mem_ok in
        if 0 <? call_sp c3 then
          (result,
           set_line_num (default 0 (call_stack c3 !! Z.to_nat (call_sp c3 - 1)))
             (set_call (call_stack c3) (call_sp c3 - 1) c3))
        else (result, c3)
  end.

(** *** Pattern matching *)

(** [while ( *p == '*') p++;] *)
Fixpoint skip_stars (p : cstring) : cstring :=
  match p with
  | ch :: p' => if (ch =? "*")%char then skip_stars p' else p
  | [] => []
  end.

(** [expr_match_glob].  The recursive call is on the pattern after a [*];
    the inner loop tries every non-empty suffix of the string. *)
Fixpoint expr_match_glob (pattern string : cstring) {struct pattern} : bool :=
  match pattern, string with
  | pc :: p', sc :: s' =>
      if (pc =? "*")%char then
        if p' is [] then true
        else
          (fix suffixes (s : cstring) : bool :=
             match s with
             | [] => false
             | _ :: s'' => if expr_match_glob p' s then true else suffixes s''
             end) string
      else if (pc =? "?")%char then expr_match_glob p' s'
      else if (pc =? sc)%char then expr_match_glob p' s'
      else false
  | _, _ =>
      match skip_stars pattern, string with
      | [], [] => true
      | _, _ => false
      end
  end.

Definition expr_match_regex (pattern string : cstring) : bool :=
  expr_match_glob pattern string.

(** *** The public operations as steps on a context *)

Inductive script_op :=
| op_reset
| op_execute (script : option cstring) (mem_ok : bool)
| op_execute_file (filename : cstring)
| op_execute_line (line : cstring)
| op_set_var (name : cstring) (type : var_type_t) (value : option pointee)
| op_unset_var (name : cstring)
| op_define_func (name body : cstring) (n : Z) (mem_ok : bool)
| op_call_func (name : cstring) (argv : list cstring) (mem_ok : bool)
| op_goto_label (label : cstring)
| op_break
| op_continue
| op_return (value : Z).

(** The context a public operation leaves behind.  [script_get_var],
    [script_var_exists] and the [script_eval_*] functions only read it. *)
Definition apply_op (c : script_context_t) (op : script_op) : script_context_t :=
  match op with
  | op_reset => script_reset_context c
  | op_execute script mem_ok => (script_execute c script mem_ok).2
  | op_execute_file f => (script_execute_file c f).2
  | op_execute_line line => (script_execute_line c line).2
  | op_set_var name t v => (script_set_var c name t v).2
  | op_unset_var name => (script_unset_var c name).2
  | op_define_func name b n mem_ok => (script_define_func c name b n mem_ok).2
  | op_call_func name argv mem_ok => (script_call_func c name argv mem_ok).2
  | op_goto_label l => (script_goto_label c l).2
  | op_break => (script_break c).2
  | op_continue => (script_continue c).2
  | op_return v => (script_return c v).2
  end.

(** The context after [script_create_context] found the block [mem] and the
    operations [ops] ran on it in order. *)
Definition run_ops (mem : script_context_t) (ops : list script_op)
  : script_context_t :=
  foldl apply_op (script_reset_context mem) ops.

(** Every variable of the context is writable. *)
Definition all_writable (c : script_context_t) : Prop :=
  Forall (λ v, readonly v = false) (vars c).

(** A zero-filled context block, for examples. *)
Definition zero_context : script_context_t :=
  {| vars := replicate SCRIPT_MAX_VARS
               {| var_name := []; var_type := VAR_TYPE_INT; var_val := val_none;
                  readonly := false; exported := false; var_defined := false |};
     funcs := replicate SCRIPT_MAX_FUNCS
                {| func_name := []; body := None; body_len := 0;
                   num_params := 0; func_defined := false |};
     labels := replicate SCRIPT_MAX_LABELS
                 {| label_name := []; label_line := 0; label_defined := false |};
     var_count := 0; func_count := 0; label_count := 0;
     line_num := 0; running := false; exit_code := 0;
     loop_stack := replicate (Z.to_nat SCRIPT_MAX_STACK) 0; loop_sp := 0;
     call_stack := replicate (Z.to_nat SCRIPT_MAX_STACK) 0; call_sp := 0;
     stdin_fd := 0; stdout_fd := 0; stderr_fd := 0 |}.

(** The label a line makes [execute_line] record, if any: the text before
    its first colon, when that text is shorter than the name buffer. *)
Definition defined_label (line : cstring) : option cstring :=
  match skip_blanks line with
  | [] => None
  | (ch :: _) as p =>
      if (ch =? "#")%char then None
      else
        match strchr p ":" with
        | Some (S k) =>
            if bool_decide (S k < SCRIPT_VAR_NAME_LEN)%nat
            then Some (take (S k) p) else None
        | _ => None
        end
  end.

(** *** Sample contexts and scripts *)

(** A context whose first variable, [x], is read-only. *)
Definition readonly_sample : script_context_t :=
  set_vars
    (<[0%nat := {| var_name := lit "x"; var_type := VAR_TYPE_INT;
                   var_val := val_int 1; readonly := true; exported := false;
                   var_defined := true |}]> (vars zero_context))
    1 zero_context.

(** A context in which a name of 64 characters was set twice, so that two
    slots bear its first 63 characters, and in which the caller then set the
    read-only flag of the second slot. *)
Definition shadowed_readonly : script_context_t :=
  let c := run_ops zero_context
             [op_set_var (replicate 64 "a"%char) VAR_TYPE_INT (Some (int_ptr 1));
              op_set_var (replicate 64 "a"%char) VAR_TYPE_INT (Some (int_ptr 2))] in
  set_vars
    (alter (λ v, {| var_name := var_name v; var_type := var_type v;
                    var_val := var_val v; readonly := true;
                    exported := exported v; var_defined := var_defined v |})
       1%nat (vars c))
    (var_count c) c.

(** A context in which the line [s = qqqq] has made [s] a string. *)
Definition string_bound : script_context_t :=
  (execute_line (set_running true (script_reset_context zero_context))
     (lit "s = qqqq")).2.

(** A fresh context in which a script is running. *)
Definition fresh_running : script_context_t :=
  set_running true (script_reset_context zero_context).

(** The lines [l0:], [l1:], ... that define [n] labels. *)
Definition label_lines (n : nat) : list CStr.cstring :=
  (λ i : nat, lit "l" ++ lit (pretty i) ++ lit ":") <$> seq 0 n.

End Script.

(** ** The shell: shell.c *)

Module Shell.

Definition SHELL_MAX_LINE : nat := 256.
Definition SHELL_MAX_ARGS : Z := 32.
Definition SHELL_MAX_CMD : nat := 64.
Definition SHELL_HISTORY_SIZE : Z := 50.

Definition SHELL_OK : Z := 0.
Definition SHELL_ERROR : Z := 1.
Definition SHELL_NOT_FOUND : Z := 127.

(** *** The line splitter *)

(** The line buffer is the memory at [line]: the characters of the string,
    its terminator, and whatever the function leaves behind it.  Pointers
    into the line are offsets. *)

(** [*(line + p)] *)
Definition peek (buf : list ascii) (p : nat) : ascii := default NUL (buf !! p).

(** [strlen (line + p)] *)
Definition strlen_at (buf : list ascii) (p : nat) : nat :=
  length (c_str (drop p buf)).

(** [memmove (line + dst, line + src, n)] *)
Definition memmove (buf : list ascii) (dst src n : nat) : list ascii :=
  take dst buf ++ take n (drop src buf) ++ drop (dst + n) buf.

(** [memmove (p, p + 1, strlen (p))]: the character at [p] is squeezed out. *)
Definition squeeze (buf : list ascii) (p : nat) : list ascii :=
  memmove buf p (S p) (strlen_at buf p).

(** [while ( *p == ' ' || *p == '\t') p++;] on the buffer. *)
Definition skip_blanks_at (buf : list ascii) (p : nat) : nat :=
  (p + count_blanks (drop p buf))%nat.

Definition is_quote (ch : ascii) : bool :=
  (ch =? "034")%char || (ch =? "'")%char.

(** The locals of [shell_parse_line] together with the memory it writes:
    the line buffer and the [argv] slots written so far ([None] is NULL). *)
Record parse_state := {
  buf : list ascii;
  p : nat;
  in_quote : bool;
  quote_char : ascii;
  argc : Z;
  argv : gmap Z (option nat)
}.

Definition with_buf_p (b : list ascii) (q : nat) (s : parse_state) :=
  {| buf := b; p := q; in_quote := in_quote s; quote_char := quote_char s;
     argc := argc s; argv := argv s |}.

Definition with_quote (b : bool) (qc : ascii) (s : parse_state) :=
  {| buf := buf s; p := p s; in_quote := b; quote_char := qc;
     argc := argc s; argv := argv s |}.

Definition with_argv (n : Z) (a : gmap Z (option nat)) (s : parse_state) :=
  {| buf := buf s; p := p s; in_quote := in_quote s;
     quote_char := quote_char s; argc := n; argv := a |}.

(** The inner [while ( *p != '\0')] loop that scans one token; [None] when
    the iteration budget [fuel] runs out. *)
Fixpoint scan_token (fuel : nat) (s : parse_state) : option parse_state :=
  match fuel with
  | O => None
  | S fuel' =>
      let ch := peek (buf s) (p s) in
      if (ch =? NUL)%char then Some s
      else if (ch =? "\")%char && negb (peek (buf s) (S (p s)) =? NUL)%char then
        scan_token fuel' (with_buf_p (squeeze (buf s) (p s)) (S (p s)) s)
      else if is_quote ch && negb (in_quote s) then
        scan_token fuel'
          (with_quote true ch (with_buf_p (squeeze (buf s) (p s)) (p s) s))
      else if is_quote ch && (ch =? quote_char s)%char then
        scan_token fuel'
          (with_quote false (quote_char s)
             (with_buf_p (squeeze (buf s) (p s)) (p s) s))
      else if negb (in_quote s) && is_blank ch then Some s
      else scan_token fuel' (with_buf_p (buf s) (S (p s)) s)
  end.

(** The outer [while ( *p != '\0' && argc < max_args - 1)] loop. *)
Fixpoint parse_loop (fuel : nat) (max_args : Z) (s : parse_state)
  : option parse_state :=
  match fuel with
  | O => None
  | S fuel' =>
      if (peek (buf s) (p s) =? NUL)%char || negb (argc s <? max_args - 1)
      then Some s
      else
        let s1 := with_buf_p (buf s) (skip_blanks_at (buf s) (p s)) s in
        let ch := peek (buf s1) (p s1) in
        if (ch =? NUL)%char then Some s1
        else if (ch =? "#")%char && negb (in_quote s1) then Some s1
        else
          let s2 := with_argv (argc s1 + 1)
                              (<[argc s1 := Some (p s1)]> (argv s1)) s1 in
          match scan_token fuel s2 with
          | None => None
          | Some s3 =>
              if (peek (buf s3) (p s3) =? NUL)%char then parse_loop fuel' max_args s3
              else parse_loop fuel' max_args
                     (with_buf_p (<[p s3 := NUL]> (buf s3)) (S (p s3)) s3)
          end
  end.

(** [shell_parse_line (line, argv, max_args)]: the state when the function
    returns, with [argc] its return value.  The buffer holds [line] and its
    terminator. *)
Definition shell_parse_line (line : cstring) (max_args : Z)
  : option parse_state :=
  let s0 := {| buf := line ++ [NUL]; p := 0; in_quote := false;
               quote_char := NUL; argc := 0; argv := ∅ |} in
  s ← parse_loop (S (length line)) max_args s0;
  Some (with_argv (argc s) (<[argc s := None]> (argv s)) s).

(** The string a caller reads at offset [off] of the buffer. *)
Definition string_at (buf : list ascii) (off : nat) : cstring :=
  c_str (drop off buf).

(** [argv[0], ..., argv[argc - 1]] read as strings ([None] for a slot that
    was never written or holds NULL). *)
Definition arg_strings (s : parse_state) : list (option cstring) :=
  (λ i : nat, off ← argv s !! Z.of_nat i ≫= id; Some (string_at (buf s) off))
    <$> seq 0 (Z.to_nat (argc s)).

(** *** What the splitter leaves in memory *)

(** A stretch of memory without terminator. *)
Definition nonul (l : list ascii) : Prop := Forall (λ ch, ch ≠ NUL) l.

(** Token [tok] sits in memory [m] at offset [off], terminated. *)
Definition stored (m : list ascii) (off : nat) (tok : cstring) : Prop :=
  ∃ pre post, m = pre ++ tok ++ NUL :: post ∧ length pre = off ∧ nonul tok.

(** The [argv] slots written so far are the first ones, and they hold the
    offsets [offs]. *)
Definition argv_holds (a : gmap Z (option nat)) (offs : list nat) : Prop :=
  ∀ j : Z, a !! j = if bool_decide (0 ≤ j) then Some <$> offs !! Z.to_nat j
                    else None.

(** No slot outside [0, max_args) is written. *)
Definition writes_within (s : parse_state) (max_args : Z) : Prop :=
  ∀ j : Z, is_Some (argv s !! j) → 0 ≤ j < max_args.

(** *** The splitter as the specification words it *)

(** The splitter in the words of the specification, as one pass over the
    characters of the line; whitespace is the blank and the tab.  [tok] is
    the token being collected ([None] between tokens), [q] tells whether a
    quote is open and [qc] is the quote that opened it.
    - Between tokens, blanks are skipped, and a [#] met where a token would
      start opens a comment that runs to the end of the line.
    - Inside a token a backslash escapes the next character: the backslash
      goes, the character stays, quoted or not (a backslash that ends the
      line has nothing to escape and stays).
    - A single or double quote met outside quotes opens a quoted stretch;
      the same quote closes it; neither reaches the token.
    - A blank outside quotes ends the token; any other character joins it.
    - The end of the line ends the token, closed quote or not. *)
Fixpoint spec_lex (s : cstring) (tok : option cstring) (q : bool) (qc : ascii)
  : list cstring :=
  match s with
  | [] => if tok is Some t then [t] else []
  | ch :: r =>
      let in_token (t : cstring) :=
        if (ch =? "\")%char then
          match r with
          | d :: r' => spec_lex r' (Some (t ++ [d])) q qc
          | [] => [t ++ [ch]]
          end
        else if is_quote ch && negb q then spec_lex r (Some t) true ch
        else if is_quote ch && (ch =? qc)%char then spec_lex r (Some t) false qc
        else if negb q && is_blank ch then t :: spec_lex r None false qc
        else spec_lex r (Some (t ++ [ch])) q qc in
      match tok with
      | Some t => in_token t
      | None =>
          if is_blank ch then spec_lex r None q qc
          else if (ch =? "#")%char then []
          else in_token []
      end
  end.

Definition spec_split (line : cstring) : list cstring := spec_lex line None false NUL.

(** The double quote character. *)
Definition dquote : ascii := "034"%char.

(** *** Shell state *)

Record history_entry_t := {
  command : cstring;
  number : Z;
  timestamp : Z
}.

(** [shell_state_t], without the alias table and the unused [env] fields. *)
Record shell_state_t := {
  cwd : cstring;
  last_exit : Z;
  pid : Z;
  interactive : bool;
  shell_running : bool;
  history : list history_entry_t;
  history_count : Z;
  history_index : Z
}.

Definition set_history (h : list history_entry_t) (n i : Z) (st : shell_state_t) :=
  {| cwd := cwd st; last_exit := last_exit st; pid := pid st;
     interactive := interactive st; shell_running := shell_running st;
     history := h; history_count := n; history_index := i |}.

Definition set_last_exit (r : Z) (st : shell_state_t) :=
  {| cwd := cwd st; last_exit := r; pid := pid st;
     interactive := interactive st; shell_running := shell_running st;
     history := history st; history_count := history_count st;
     history_index := history_index st |}.

(** [shell_state.history[i]] *)
Definition history_at (st : shell_state_t) (i : Z) : history_entry_t :=
  default {| command := []; number := 0; timestamp := 0 |}
          (history st !! Z.to_nat i).

(** *** History *)

(** [shell_history_add] on a non-NULL command.  The slots are zeroed by
    [shell_init] and only their first 255 bytes are ever written, so a slot
    reads back as the first 255 characters of the command copied last. *)
Definition shell_history_add (st : shell_state_t) (cmd : cstring)
  : shell_state_t :=
  if cmd is [] then st
  else
    let last := Z.rem (history_index st - 1 + SHELL_HISTORY_SIZE)
                      SHELL_HISTORY_SIZE in
    if (0 <? history_count st) && streq (command (history_at st last)) cmd
    then st
    else
      let e := {| command := strncpy cmd (SHELL_MAX_LINE - 1);
                  number := history_count st;
                  timestamp := timestamp (history_at st (history_index st)) |} in
      set_history (<[Z.to_nat (history_index st) := e]> (history st))
        (if history_count st <? SHELL_HISTORY_SIZE
         then history_count st + 1 else history_count st)
        (Z.rem (history_index st + 1) SHELL_HISTORY_SIZE) st.

(** [shell_history_get]; [None] is the NULL result. *)
Definition shell_history_get (st : shell_state_t) (index : Z) : option cstring :=
  if (index <? 0) || (history_count st <=? index) then None
  else
    let actual := Z.rem (history_index st - history_count st + index
                         + SHELL_HISTORY_SIZE) SHELL_HISTORY_SIZE in
    Some (command (history_at st actual)).

Definition shell_history_clear (st : shell_state_t) : shell_state_t :=
  set_history (history st) 0 0 st.

(** The state [shell_init] builds, as far as the fields above go. *)
Definition shell_init_state (shell_pid : Z) : shell_state_t :=
  {| cwd := lit "/"; last_exit := 0; pid := shell_pid;
     interactive := true; shell_running := true;
     history := replicate (Z.to_nat SHELL_HISTORY_SIZE)
                  {| command := []; number := 0; timestamp := 0 |};
     history_count := 0; history_index := 0 |}.

(** *** The ring seen as a list *)

(** The states [shell_init], [shell_history_add] and [shell_history_clear]
    produce: a full-size array, counters in range, and the write cursor
    equal to the count until the ring is full. *)
Definition history_wf (st : shell_state_t) : Prop :=
  length (history st) = Z.to_nat SHELL_HISTORY_SIZE
  ∧ 0 ≤ history_count st ≤ SHELL_HISTORY_SIZE
  ∧ 0 ≤ history_index st < SHELL_HISTORY_SIZE
  ∧ (history_count st < SHELL_HISTORY_SIZE → history_index st = history_count st).

(** The physical slot of logical position [i]. *)
Definition slot_of (st : shell_state_t) (i : Z) : Z :=
  Z.rem (history_index st - history_count st + i + SHELL_HISTORY_SIZE)
        SHELL_HISTORY_SIZE.

(** The commands of the history, oldest first. *)
Definition contents (st : shell_state_t) : list cstring :=
  (λ i : nat, command (history_at st (slot_of st (Z.of_nat i))))
    <$> seq 0 (Z.to_nat (history_count st)).

(** The commands [cmd0], [cmd1], ... *)
Definition numbered_commands (n : nat) : list cstring :=
  (λ i : nat, lit "cmd" ++ lit (pretty i)) <$> seq 0 n.

(** *** Job control *)

Inductive job_state_t := JOB_RUNNING | JOB_STOPPED | JOB_DONE | JOB_KILLED.

#[global] Instance job_state_eq_dec : EqDecision job_state_t.
Proof. solve_decision. Defined.

Record shell_job_t := {
  job_id : Z;
  job_pid : Z;
  job_pgid : Z;
  job_state : job_state_t;
  job_command : cstring;
  foreground : bool
}.

(** The job table with its counter, and the process identifiers handed to
    the kernel's [resume], latest first. *)
Record job_table := {
  shell_jobs : list shell_job_t;
  shell_job_count : Z;
  resumed : list Z
}.

Definition set_jobs (js : list shell_job_t) (w : job_table) :=
  {| shell_jobs := js; shell_job_count := shell_job_count w;
     resumed := resumed w |}.

Definition resume (pid : Z) (w : job_table) :=
  {| shell_jobs := shell_jobs w; shell_job_count := shell_job_count w;
     resumed := pid :: resumed w |}.

Definition set_job_state (s : job_state_t) (j : shell_job_t) :=
  {| job_id := job_id j; job_pid := job_pid j; job_pgid := job_pgid j;
     job_state := s; job_command := job_command j;
     foreground := foreground j |}.

Definition set_foreground (b : bool) (j : shell_job_t) :=
  {| job_id := job_id j; job_pid := job_pid j; job_pgid := job_pgid j;
     job_state := job_state j; job_command := job_command j;
     foreground := b |}.

Definition job_reusable (j : shell_job_t) : Prop :=
  job_state j = JOB_DONE ∨ job_id j = 0.

#[global] Instance job_reusable_dec j : Decision (job_reusable j).
Proof. unfold job_reusable. apply _. Defined.

Definition shell_job_create (w : job_table) (pid : Z) (cmd : cstring)
    (fg : bool) : Z * job_table :=
  match list_find job_reusable (shell_jobs w) with
  | Some (i, _) =>
      let j := {| job_id := Z.of_nat i + 1; job_pid := pid; job_pgid := pid;
                  job_state := JOB_RUNNING;
                  job_command := strncpy cmd (SHELL_MAX_LINE - 1);
                  foreground := fg |} in
      (Z.of_nat i + 1,
       {| shell_jobs := <[i := j]> (shell_jobs w);
          shell_job_count := wrap32 (shell_job_count w + 1);
          resumed := resumed w |})
  | None => (SYSERR, w)
  end.

(** [shell_job_find] and [shell_job_find_by_pid]: the first slot that bears
    the identifier, used or not. *)
Definition shell_job_find (w : job_table) (id : Z) : option (nat * shell_job_t) :=
  list_find (λ j, job_id j = id) (shell_jobs w).

Definition shell_job_find_by_pid (w : job_table) (pid : Z)
  : option (nat * shell_job_t) :=
  list_find (λ j, job_pid j = pid) (shell_jobs w).

(** [shell_job_update]: the notification by which the process layer reports
    a job's new state. *)
Definition shell_job_update (w : job_table) (id : Z) (s : job_state_t)
  : job_table :=
  match shell_job_find w id with
  | Some (i, j) => set_jobs (<[i := set_job_state s j]> (shell_jobs w)) w
  | None => w
  end.

(** What the rest of the system does during one [yield ()]: the
    notifications it delivers, in order. *)
Definition turn := list (Z * job_state_t).

Definition run_turn (w : job_table) (t : turn) : job_table :=
  foldl (λ w n, shell_job_update w n.1 n.2) w t.

(** A call that polls with [yield ()] either returns, or spins for ever once
    no notification is left to change what it polls. *)
Inductive outcome (A : Type) :=
| Returns (a : A)
| Spins (w : job_table).
Arguments Returns {A} a.
Arguments Spins {A} w.

(** [while (job->state == JOB_RUNNING) yield ();] for the job in slot [i],
    against the turns the other processes still take. *)
Fixpoint wait_loop (w : job_table) (i : nat) (sched : list turn)
  : outcome (job_table * list turn) :=
  match job_state <$> shell_jobs w !! i with
  | Some JOB_RUNNING =>
      match sched with
      | [] => Spins w
      | t :: sched' => wait_loop (run_turn w t) i sched'
      end
  | _ => Returns (w, sched)
  end.

Definition shell_wait_job (w : job_table) (id : Z) (sched : list turn)
  : outcome (Z * job_table * list turn) :=
  match shell_job_find w id with
  | None => Returns (SYSERR, w, sched)
  | Some (i, _) =>
      match wait_loop w i sched with
      | Returns (w', sched') => Returns (OK, w', sched')
      | Spins w' => Spins w'
      end
  end.

Definition shell_bg (w : job_table) (pid : Z) : Z * job_table :=
  match shell_job_find_by_pid w pid with
  | None => (SYSERR, w)
  | Some (i, job) =>
      if decide (job_state job = JOB_STOPPED) then
        let w1 := resume pid w in
        (OK, set_jobs (<[i := set_foreground false
                                (set_job_state JOB_RUNNING job)]>
                         (shell_jobs w1)) w1)
      else (OK, w)
  end.

Definition shell_fg (w : job_table) (pid : Z) (sched : list turn)
  : outcome (Z * job_table * list turn) :=
  match shell_job_find_by_pid w pid with
  | None => Returns (SYSERR, w, sched)
  | Some (i, job) =>
      let w1 := if decide (job_state job = JOB_STOPPED) then resume pid w
                else w in
      let w2 := set_jobs (<[i := set_foreground true
                                   (set_job_state JOB_RUNNING job)]>
                            (shell_jobs w1)) w1 in
      match shell_wait_job w2 (job_id job) sched with
      | Returns (_, w3, sched') => Returns (OK, w3, sched')
      | Spins w3 => Spins w3
      end
  end.

(** *** The command registry and the dispatcher *)

Record env_entry := {
  env_name : cstring;
  env_value : cstring;
  env_defined : bool
}.

(** A handler is known to the table by its function pointer. *)
Definition shell_cmd_func := Z.

Record shell_command_t := {
  name : cstring;
  description : cstring;
  func : shell_cmd_func;
  builtin : bool
}.

(** The globals of shell.c, and the lines [shell_error] has written. *)
Record shell_t := {
  shell_state : shell_state_t;
  shell_commands : list shell_command_t;
  shell_command_count : Z;
  jobs : job_table;
  shell_env : list env_entry;
  errors : list cstring
}.

Definition with_state (st : shell_state_t) (sh : shell_t) :=
  {| shell_state := st; shell_commands := shell_commands sh;
     shell_command_count := shell_command_count sh; jobs := jobs sh;
     shell_env := shell_env sh; errors := errors sh |}.

Definition with_commands (cs : list shell_command_t) (n : Z) (sh : shell_t) :=
  {| shell_state := shell_state sh; shell_commands := cs;
     shell_command_count := n; jobs := jobs sh;
     shell_env := shell_env sh; errors := errors sh |}.

Definition shell_error (msg : cstring) (sh : shell_t) :=
  {| shell_state := shell_state sh; shell_commands := shell_commands sh;
     shell_command_count := shell_command_count sh; jobs := jobs sh;
     shell_env := shell_env sh; errors := errors sh ++ [msg] |}.

Definition shell_register_command (sh : shell_t) (nm desc : cstring)
    (f : shell_cmd_func) : Z * shell_t :=
  if 128 <=? shell_command_count sh then (SYSERR, sh)
  else
    let c := {| name := strncpy nm (SHELL_MAX_CMD - 1);
                description := strncpy desc 127; func := f;
                builtin := true |} in
    (OK, with_commands
           (<[Z.to_nat (shell_command_count sh) := c]> (shell_commands sh))
           (shell_command_count sh + 1) sh).

(** [shell_find_command]: the first of the [shell_command_count] registered
    entries that bears the name. *)
Definition shell_find_command (sh : shell_t) (nm : cstring)
  : option shell_command_t :=
  snd <$> list_find (λ c, name c = nm)
            (take (Z.to_nat (shell_command_count sh)) (shell_commands sh)).

Definition shell_is_builtin (sh : shell_t) (nm : cstring) : bool :=
  bool_decide (is_Some (shell_find_command sh nm)).

Definition shell_getenv (sh : shell_t) (nm : cstring) : option cstring :=
  (env_value ∘ snd) <$>
    list_find (λ e, env_defined e = true ∧ env_name e = nm) (shell_env sh).

(** *** Expansion *)

(** [if (i + len < size - 1) { strcpy (output + i, s); i += len; }] *)
Definition append_if_fits (out s : cstring) (size : Z) : cstring :=
  if Z.of_nat (length out) + Z.of_nat (length s) <? size - 1
  then out ++ s else out.

(** The variable-name loop of [shell_expand]: the name and the number of
    characters it moves [p] forward. *)
Fixpoint read_name (q : cstring) (in_braces : bool) (room : nat)
  : cstring * nat :=
  match room, q with
  | S room', ch :: q' =>
      if in_braces && (ch =? "}")%char then ([], 1%nat)
      else if negb in_braces && negb (isalnum ch) && negb (ch =? "_")%char
      then ([], 0%nat)
      else let '(nm, k) := read_name q' in_braces room' in (ch :: nm, S k)
  | _, _ => ([], 0%nat)
  end.

(** The main loop of [shell_expand].  [skip] counts the characters the
    current iteration has already consumed beyond the first, [prev] is
    [*(p - 1)] and [out] holds [output[0 .. i)]. *)
Fixpoint expand_loop (sh : shell_t) (size : Z) (q : cstring) (skip : nat)
    (prev : option ascii) (out : cstring) : cstring :=
  match q with
  | [] => out
  | ch :: q' =>
      match skip with
      | S k => expand_loop sh size q' k (Some ch) out
      | O =>
          if negb (Z.of_nat (length out) <? size - 1) then out
          else if (ch =? "$")%char then
            match q' with
            | "?"%char :: _ =>
                expand_loop sh size q' 1 (Some ch)
                  (append_if_fits out (lit (pretty (last_exit (shell_state sh)))) size)
            | "$"%char :: _ =>
                expand_loop sh size q' 1 (Some ch)
                  (append_if_fits out (lit (pretty (pid (shell_state sh)))) size)
            | _ =>
                let in_braces := if q' is "{"%char :: _ then true else false in
                let '(nm, k) :=
                  read_name (if in_braces then drop 1 q' else q') in_braces 63 in
                let out' := match shell_getenv sh nm with
                            | Some v => append_if_fits out v size
                            | None => out
                            end in
                expand_loop sh size q' (if in_braces then S k else k)
                  (Some ch) out'
            end
          else if (ch =? "~")%char
                  && match prev with
                     | None => true
                     | Some b => (b =? " ")%char || (b =? ":")%char
                     end
          then
            expand_loop sh size q' 0 (Some ch)
              (append_if_fits out (default (lit "/") (shell_getenv sh (lit "HOME")))
                 size)
          else expand_loop sh size q' 0 (Some ch) (out ++ [ch])
      end
  end.

Definition shell_expand (sh : shell_t) (input : cstring) (size : Z) : cstring :=
  expand_loop sh size input 0 None [].

Section Dispatch.

(** The code behind the function pointers: a call with [(argc, argv)] may
    change any global and either returns an exit code or never returns. *)
Variable invoke :
  shell_cmd_func → Z → list cstring → shell_t → option (Z * shell_t).

(** The tail of [shell_execute], from the check [argc == 0] on. *)
Definition shell_dispatch (sh : shell_t) (args : list cstring)
  : option (Z * shell_t) :=
  match args with
  | [] => Some (SHELL_OK, sh)
  | arg0 :: _ =>
      match shell_find_command sh arg0 with
      | Some cmd =>
          '(r, sh') ← invoke (func cmd) (Z.of_nat (length args)) args sh;
          Some (r, with_state (set_last_exit r (shell_state sh')) sh')
      | None =>
          let sh1 := shell_error (arg0 ++ lit ": command not found" ++ ["010"%char]) sh in
          Some (SHELL_NOT_FOUND,
                with_state (set_last_exit SHELL_NOT_FOUND (shell_state sh1)) sh1)
      end
  end.

Definition shell_execute (sh : shell_t) (line : cstring)
  : option (Z * shell_t) :=
  match skip_blanks line with
  | [] => Some (SHELL_OK, sh)
  | ch :: _ =>
      if (ch =? "#")%char then Some (SHELL_OK, sh)
      else
        let sh1 := if interactive (shell_state sh)
                   then with_state (shell_history_add (shell_state sh) line) sh
                   else sh in
        let line_copy := strncpy line (SHELL_MAX_LINE - 1) in
        let expanded := shell_expand sh1 line_copy (Z.of_nat SHELL_MAX_LINE) in
        s ← shell_parse_line expanded SHELL_MAX_ARGS;
        shell_dispatch sh1 (omap id (arg_strings s))
  end.

End Dispatch.

(** *** Sample tables *)

Definition zero_job : shell_job_t :=
  {| job_id := 0; job_pid := 0; job_pgid := 0; job_state := JOB_RUNNING;
     job_command := []; foreground := false |}.

(** A job table whose first slot holds job 1, process 7, in state [s]. *)
Definition sample_jobs (s : job_state_t) (fg : bool) : job_table :=
  {| shell_jobs :=
       {| job_id := 1; job_pid := 7; job_pgid := 7; job_state := s;
          job_command := lit "sleep 5"; foreground := fg |}
       :: replicate 31 zero_job;
     shell_job_count := 1; resumed := [] |}.

(** A registry with [true] and [false], whose handlers sit at addresses 1
    and 2. *)
Definition sample_shell : shell_t :=
  {| shell_state := shell_init_state 3;
     shell_commands :=
       [ {| name := lit "true"; description := lit "Return success";
            func := 1; builtin := true |};
         {| name := lit "false"; description := lit "Return failure";
            func := 2; builtin := true |} ];
     shell_command_count := 2;
     jobs := {| shell_jobs := replicate 32 zero_job; shell_job_count := 0;
                resumed := [] |};
     shell_env := [];
     errors := [] |}.

(** [cmd_true] and [cmd_false] behind their addresses. *)
Definition sample_invoke (f : shell_cmd_func) (argc : Z)
    (argv : list cstring) (sh : shell_t) : option (Z * shell_t) :=
  if f =? 1 then Some (SHELL_OK, sh)
  else if f =? 2 then Some (SHELL_ERROR, sh)
  else None.

End Shell.

(** * Notions the further properties are stated with *)

(** ** For the script interpreter *)

Module ScriptViews.

Import Script.

(** What [script_set_var] stores for a value of type [t] behind the
    pointer [pv]. *)
Definition stored_value (t : var_type_t) (pv : pointee) : var_value :=
  match t with
  | VAR_TYPE_INT => val_int (pt_int pv)
  | VAR_TYPE_FLOAT => val_float (pt_float pv)
  | VAR_TYPE_STRING => val_str (strncpy (pt_str pv) (SCRIPT_VAR_VAL_LEN - 1))
  | VAR_TYPE_ARRAY => val_array (pt_addr pv)
  | VAR_TYPE_UNDEFINED => val_none
  end.

(** Two contexts with the same call stack. *)
Definition same_calls (c c' : script_context_t) : Prop :=
  call_stack c' = call_stack c ∧ call_sp c' = call_sp c.





(** What a glob pattern means: [*] stands for any run of characters, [?] for
    any one character, every other character for itself. *)
Inductive glob_matches : cstring → cstring → Prop :=
| glob_end : glob_matches [] []
| glob_star p s1 s2 :
    glob_matches p s2 → glob_matches ("*"%char :: p) (s1 ++ s2)
| glob_one p ch s :
    glob_matches p s → glob_matches ("?"%char :: p) (ch :: s)
| glob_char p ch s :
    ch ≠ "*"%char → glob_matches p s → glob_matches (ch :: p) (ch :: s).

(** A context in which the function [f], with body [x = 1], is defined. *)
Definition with_function : script_context_t :=
  (script_define_func (script_reset_context zero_context) (lit "f")
     (lit "x = 1") 0 true).2.

End ScriptViews.

(** ** For the shell *)

Module ShellViews.

Import Shell.

(** Characters [shell_expand] copies as they are. *)
Definition plain (ch : ascii) : Prop := ch ≠ "$"%char ∧ ch ≠ "~"%char.

#[global] Instance plain_dec ch : Decision (plain ch).
Proof. unfold plain. apply _. Defined.

(** The characters of a variable name outside braces. *)
Definition name_char (ch : ascii) : bool := isalnum ch || (ch =? "_")%char.

(** The registry as [shell_init] and [shell_register_command] leave it. *)
Definition registry_wf (sh : shell_t) : Prop :=
  length (shell_commands sh) = 128%nat ∧ 0 ≤ shell_command_count sh ≤ 128.

(** The job table as [shell_init] and [shell_job_create] leave it: a slot in
    use bears the identifier of its position. *)
Definition jobs_wf (w : job_table) : Prop :=
  ∀ i j, shell_jobs w !! i = Some j → job_id j = 0 ∨ job_id j = Z.of_nat i + 1.

(** What a history that never forgets would hold: empty commands are
    skipped, a command equal to the newest entry is skipped, every other
    command is entered cut to the 255 characters of a slot. *)
Definition remember (log : list cstring) (cmd : cstring) : list cstring :=
  if decide (cmd = [] ∨ last log = Some cmd) then log
  else log ++ [strncpy cmd (SHELL_MAX_LINE - 1)].

Definition remembered (cmds : list cstring) : list cstring :=
  foldl remember [] cmds.

(** A shell right after [shell_init], before any command is registered. *)
Definition fresh_shell : shell_t :=
  {| shell_state := shell_init_state 3;
     shell_commands :=
       replicate 128 {| name := []; description := []; func := 0;
                        builtin := false |};
     shell_command_count := 0;
     jobs := {| shell_jobs := replicate 32 zero_job; shell_job_count := 0;
                resumed := [] |};
     shell_env := replicate 64 {| env_name := []; env_value := [];
                                  env_defined := false |};
     errors := [] |}.

End ShellViews.

(** * More of shell.c *)

(** ** The environment *)

Module Environment.

Import Shell.

Definition with_env (env : list env_entry) (sh : shell_t) :=
  {| shell_state := shell_state sh; shell_commands := shell_commands sh;
     shell_command_count := shell_command_count sh; jobs := jobs sh;
     shell_env := env; errors := errors sh |}.

(** [shell_setenv]: the value of a variable that is set is replaced, a new
    variable takes the first slot not in use.  The slots are zeroed at
    start-up and [strncpy] never writes their last byte, so a name reads
    back as its first 63 characters and a value as its first 255. *)
Definition shell_setenv (sh : shell_t) (nm value : cstring) : Z * shell_t :=
  match list_find (λ e, env_defined e = true ∧ env_name e = nm) (shell_env sh) with
  | Some (i, e) =>
      (OK, with_env (<[i := {| env_name := env_name e;
                               env_value := strncpy value 255;
                               env_defined := env_defined e |}]> (shell_env sh)) sh)
  | None =>
      match list_find (λ e, env_defined e = false) (shell_env sh) with
      | Some (i, _) =>
          (OK, with_env (<[i := {| env_name := strncpy nm 63;
                                   env_value := strncpy value 255;
                                   env_defined := true |}]> (shell_env sh)) sh)
      | None => (SYSERR, sh)
      end
  end.

Definition shell_unsetenv (sh : shell_t) (nm : cstring) : Z * shell_t :=
  match list_find (λ e, env_defined e = true ∧ env_name e = nm) (shell_env sh) with
  | Some (i, e) =>
      (OK, with_env (<[i := {| env_name := env_name e; env_value := env_value e;
                               env_defined := false |}]> (shell_env sh)) sh)
  | None => (SYSERR, sh)
  end.

(** The environment as calls with names that fit leave it: no two slots in
    use bear the same name. *)
Definition env_wf (sh : shell_t) : Prop :=
  ∀ i j e1 e2,
    shell_env sh !! i = Some e1 → shell_env sh !! j = Some e2 →
    env_defined e1 = true → env_defined e2 = true →
    env_name e1 = env_name e2 → i = j.

End Environment.

(** ** Aliases *)

Module Aliases.

Import Shell.

Definition SHELL_MAX_ALIAS : nat := 32.

Record shell_alias_t := {
  alias_name : cstring;
  alias_value : cstring;
  alias_defined : bool
}.

(** The alias fields of [shell_state]. *)
Record alias_table := {
  aliases : list shell_alias_t;
  alias_count : Z
}.

Definition alias_named (nm : cstring) (a : shell_alias_t) : Prop :=
  alias_defined a = true ∧ alias_name a = nm.

#[global] Instance alias_named_dec nm a : Decision (alias_named nm a).
Proof. unfold alias_named. apply _. Defined.

Definition alias_free (a : shell_alias_t) : Prop := alias_defined a = false.

#[global] Instance alias_free_dec a : Decision (alias_free a).
Proof. unfold alias_free. apply _. Defined.

Definition shell_alias_set (t : alias_table) (nm value : cstring)
  : Z * alias_table :=
  match list_find (alias_named nm) (aliases t) with
  | Some (i, a) =>
      (OK, {| aliases :=
                <[i := {| alias_name := alias_name a;
                          alias_value := strncpy value (SHELL_MAX_LINE - 1);
                          alias_defined := alias_defined a |}]> (aliases t);
              alias_count := alias_count t |})
  | None =>
      match list_find alias_free (aliases t) with
      | Some (i, _) =>
          (OK, {| aliases :=
                    <[i := {| alias_name := strncpy nm (SHELL_MAX_CMD - 1);
                              alias_value := strncpy value (SHELL_MAX_LINE - 1);
                              alias_defined := true |}]> (aliases t);
                  alias_count := wrap32 (alias_count t + 1) |})
      | None => (SYSERR, t)
      end
  end.


Definition shell_alias_remove (t : alias_table) (nm : cstring)
  : Z * alias_table :=
  match list_find (alias_named nm) (aliases t) with
  | Some (i, a) =>
      (OK, {| aliases :=
                <[i := {| alias_name := alias_name a;
                          alias_value := alias_value a;
                          alias_defined := false |}]> (aliases t);
              alias_count := wrap32 (alias_count t - 1) |})
  | None => (SYSERR, t)
  end.

(** The table [shell_init] leaves. *)
Definition no_aliases : alias_table :=
  {| aliases := replicate SHELL_MAX_ALIAS
                  {| alias_name := []; alias_value := []; alias_defined := false |};
     alias_count := 0 |}.

(** The number of aliases in use. *)
Definition aliases_in_use (t : alias_table) : nat :=
  length (filter (λ a, alias_defined a = true) (aliases t)).

(** The calls a program can make on the alias table. *)
Inductive alias_op :=
| op_alias_set (nm value : cstring)
| op_alias_remove (nm : cstring).

Definition apply_alias_op (t : alias_table) (op : alias_op) : alias_table :=
  match op with
  | op_alias_set nm value => (shell_alias_set t nm value).2
  | op_alias_remove nm => (shell_alias_remove t nm).2
  end.

End Aliases.

(** ** Reading a line *)

Module Readline.

(** What [shell_readline] returns: the buffer, or NULL. *)
Inductive line_result :=
| Line (s : cstring)
| NoLine.

Definition is_eol (ch : ascii) : bool := (ch =? "010")%char || (ch =? "013")%char.
Definition is_erase (ch : ascii) : bool := (ch =? "008")%char || (ch =? "127")%char.

(** The loop of [shell_readline] over the characters [getchar] still has to
    deliver (EOF once they are used up); [buf] is [buffer[0 .. i)].  The
    result comes with the characters not yet read. *)
Fixpoint readline_loop (input : list ascii) (buf : list ascii) (size : Z)
  : line_result * list ascii :=
  if negb (Z.of_nat (length buf) <? size - 1) then (Line (c_str buf), input)
  else
    match input with
    | [] => (Line (c_str buf), [])
    | ch :: rest =>
        if is_eol ch then (Line (c_str buf), rest)
        else if is_erase ch then readline_loop rest (removelast buf) size
        else if (ch =? "003")%char then (Line [], rest)
        else if (ch =? "004")%char then
          if buf is [] then (NoLine, rest) else (Line (c_str buf), rest)
        else readline_loop rest (buf ++ [ch]) size
    end.

Definition shell_readline (input : list ascii) (size : Z)
  : line_result * list ascii :=
  readline_loop input [] size.

(** A character that is stored when typed. *)
Definition typed (ch : ascii) : Prop :=
  is_eol ch = false ∧ is_erase ch = false
  ∧ ch ≠ "003"%char ∧ ch ≠ "004"%char ∧ ch ≠ NUL.

#[global] Instance typed_dec ch : Decision (typed ch).
Proof. unfold typed. apply _. Defined.

End Readline.

(** ** Built-in commands *)

Module Commands.

Import Shell Environment.

Definition with_jobs (w : job_table) (sh : shell_t) :=
  {| shell_state := shell_state sh; shell_commands := shell_commands sh;
     shell_command_count := shell_command_count sh; jobs := w;
     shell_env := shell_env sh; errors := errors sh |}.

(** [argv[i]] for [i] below [argc], the length of [argv]. *)
Definition arg (argv : list cstring) (i : nat) : cstring :=
  default [] (argv !! i).



(** [cond ? SHELL_OK : SHELL_ERROR] *)
Definition status_of (b : bool) : Z := if b then SHELL_OK else SHELL_ERROR.

Section Atoi.

(** The C library's [atoi]. *)
Variable atoi : cstring → Z.

Definition cmd_test (argv : list cstring) : Z :=
  if (length argv <? 2)%nat then SHELL_ERROR
  else
    let argc :=
      if streq (arg argv 0) (lit "[")
         && (1 <? length argv)%nat
         && streq (arg argv (length argv - 1)) (lit "]")
      then (length argv - 1)%nat else length argv in
    let a1 := arg argv 1 in
    let a2 := arg argv 2 in
    let a3 := arg argv 3 in
    if (argc =? 2)%nat then status_of (negb (bool_decide (a1 = [])))
    else if (argc =? 3)%nat && streq a1 (lit "-n")
    then status_of (negb (bool_decide (a2 = [])))
    else if (argc =? 3)%nat && streq a1 (lit "-z")
    then status_of (bool_decide (a2 = []))
    else if (argc =? 4)%nat then
      if streq a2 (lit "=") || streq a2 (lit "==") then status_of (streq a1 a3)
      else if streq a2 (lit "!=") then status_of (negb (streq a1 a3))
      else if streq a2 (lit "-eq") then status_of (atoi a1 =? atoi a3)
      else if streq a2 (lit "-ne") then status_of (negb (atoi a1 =? atoi a3))
      else if streq a2 (lit "-lt") then status_of (atoi a1 <? atoi a3)
      else if streq a2 (lit "-le") then status_of (atoi a1 <=? atoi a3)
      else if streq a2 (lit "-gt") then status_of (atoi a3 <? atoi a1)
      else if streq a2 (lit "-ge") then status_of (atoi a3 <=? atoi a1)
      else SHELL_ERROR
    else SHELL_ERROR.

(** [cmd_fg], against the turns the other processes take while it waits. *)
Definition cmd_fg (argv : list cstring) (sh : shell_t) (sched : list turn)
  : outcome (Z * shell_t * list turn) :=
  let id := if (length argv <? 2)%nat then shell_job_count (jobs sh)
            else atoi (arg argv 1) in
  match shell_job_find (jobs sh) id with
  | None =>
      Returns (SHELL_ERROR,
               shell_error (lit "fg: no such job" ++ ["010"%char]) sh, sched)
  | Some (_, job) =>
      match shell_fg (jobs sh) (job_pid job) sched with
      | Returns (_, w, sched') => Returns (SHELL_OK, with_jobs w sh, sched')
      | Spins w => Spins w
      end
  end.

End Atoi.

End Commands.

(** * Copies that fit *)

Lemma strncpy_short (s : cstring) n : (length s ≤ n)%nat → strncpy s n = s.
Proof. intros. unfold strncpy. by apply take_ge. Qed.

(** * First-match search in a table that is updated in place *)

Section ListFind.

Context {A : Type} (P : A → Prop) `{∀ x, Decision (P x)}.

Lemma list_find_insert_same (l : list A) i x y :
  list_find P l = Some (i, x) → P y → list_find P (<[i := y]> l) = Some (i, y).
Proof.
  rewrite !list_find_Some. intros (Hi & _ & Hlt) Hy.
  split_and!; [|done|].
  - apply list_lookup_insert_eq. by eapply lookup_lt_Some.
  - intros j z Hj Hji. rewrite list_lookup_insert_ne in Hj by lia. eauto.
Qed.

Lemma list_find_insert_first (Q : A → Prop) `{∀ x, Decision (Q x)}
    (l : list A) i x y :
  list_find P l = None → list_find Q l = Some (i, x) → P y →
  list_find P (<[i := y]> l) = Some (i, y).
Proof.
  rewrite list_find_None, !list_find_Some, Forall_lookup.
  intros Hnone (Hi & _ & _) Hy. split_and!; [|done|].
  - apply list_lookup_insert_eq. by eapply lookup_lt_Some.
  - intros j z Hj Hji. rewrite list_lookup_insert_ne in Hj by lia. eauto.
Qed.

Lemma list_find_insert_none (l : list A) i y :
  list_find P l = None → ¬ P y → list_find P (<[i := y]> l) = None.
Proof.
  rewrite !list_find_None, !Forall_lookup. intros Hnone Hy j z Hj.
  destruct (decide (i = j)) as [->|Hne].
  - apply list_lookup_insert_Some in Hj as [(_ & -> & _)|[? _]]; [done|lia].
  - rewrite list_lookup_insert_ne in Hj by done. eauto.
Qed.

Lemma list_find_insert_other (l : list A) i j x y :
  list_find P l = Some (j, x) → i ≠ j → ¬ P y →
  list_find P (<[i := y]> l) = Some (j, x).
Proof.
  rewrite !list_find_Some. intros (Hj & Hx & Hlt) Hne Hy.
  split_and!; [|done|].
  - by rewrite list_lookup_insert_ne.
  - intros k z Hk Hkj. destruct (decide (i = k)) as [->|Hik].
    + apply list_lookup_insert_Some in Hk as [(_ & -> & _)|[? _]]; [done|lia].
    + rewrite list_lookup_insert_ne in Hk by done. eauto.
Qed.

End ListFind.

(** * Properties of the script interpreter *)

Module ScriptFacts.

Import Script.

#[local] Arguments strncpy : simpl never.
#[local] Arguments script_set_var : simpl never.
#[local] Arguments create_label : simpl never.
#[local] Arguments execute_line : simpl never.
#[local] Arguments script_execute : simpl never.

(** ** The loop stack is never pushed *)

(** Unfold a step of the interpreter and split on everything it inspects. *)
Ltac split_cases :=
  repeat (simpl in *; try done; case_match; simplify_eq).

Lemma create_var_loop_sp c nm : loop_sp (create_var c nm).2 = loop_sp c.
Proof. unfold create_var. split_cases. Qed.

Lemma script_set_var_loop_sp c nm t v :
  loop_sp (script_set_var c nm t v).2 = loop_sp c.
Proof.
  unfold script_set_var. destruct v as [pv|]; [|done].
  pose proof (create_var_loop_sp c nm) as Hc.
  destruct (create_var c nm) as [[i|] c1]; simpl in *; [|done].
  split_cases.
Qed.

Lemma script_unset_var_loop_sp c nm :
  loop_sp (script_unset_var c nm).2 = loop_sp c.
Proof. unfold script_unset_var. split_cases. Qed.

Lemma script_define_func_loop_sp c nm b n ok :
  loop_sp (script_define_func c nm b n ok).2 = loop_sp c.
Proof. unfold script_define_func, store_body. split_cases. Qed.

Lemma create_label_loop_sp c nm l : loop_sp (create_label c nm l).2 = loop_sp c.
Proof. unfold create_label. split_cases. Qed.

Lemma script_goto_label_loop_sp c l :
  loop_sp (script_goto_label c l).2 = loop_sp c.
Proof. unfold script_goto_label. split_cases. Qed.

Lemma script_break_loop_sp c : loop_sp (script_break c).2 = loop_sp c.
Proof. unfold script_break. split_cases. Qed.

Lemma script_continue_loop_sp c : loop_sp (script_continue c).2 = loop_sp c.
Proof. unfold script_continue. split_cases. Qed.

Lemma label_step_loop_sp c p : loop_sp (label_step c p).1 = loop_sp c.
Proof.
  unfold label_step.
  destruct (strchr p ":") as [[|k]|]; try done.
  pose proof (create_label_loop_sp c (take (S k) p) (line_num c)).
  split_cases.
Qed.

Lemma assign_step_loop_sp c p c' :
  assign_step c p = Some c' → loop_sp c' = loop_sp c.
Proof.
  unfold assign_step. intros H.
  repeat (case_match; simplify_eq); apply script_set_var_loop_sp.
Qed.

Lemma keyword_step_loop_sp c p : loop_sp (keyword_step c p).2 = loop_sp c.
Proof.
  unfold keyword_step.
  repeat case_match; simpl;
    auto using script_break_loop_sp, script_continue_loop_sp,
               script_goto_label_loop_sp.
Qed.

Lemma execute_line_loop_sp c line : loop_sp (execute_line c line).2 = loop_sp c.
Proof.
  unfold execute_line.
  destruct (skip_blanks line) as [|ch p]; [done|].
  destruct (ch =? "#")%char; [done|].
  pose proof (label_step_loop_sp c (ch :: p)) as Hl.
  destruct (label_step c (ch :: p)) as [c1 [p1|]]; simpl in *; [|done].
  destruct (assign_step c1 p1) as [c2|] eqn:Ha; simpl.
  - apply assign_step_loop_sp in Ha. congruence.
  - rewrite keyword_step_loop_sp. done.
Qed.

Lemma run_lines_loop_sp ls : ∀ c, loop_sp (run_lines c ls) = loop_sp c.
Proof.
  induction ls as [|line rest IH]; intros c; simpl; [done|].
  destruct (running c); [|done].
  pose proof (execute_line_loop_sp
                (set_line_num (wrap32 (line_num c + 1)) c) line) as He.
  destruct (execute_line _ line) as [result c1]; simpl in *.
  destruct (result =? OK); [rewrite IH|]; done.
Qed.

Lemma script_execute_loop_sp c script ok :
  loop_sp (script_execute c script ok).2 = loop_sp c.
Proof.
  unfold script_execute. destruct script as [text|]; [|done].
  destruct ok; [|done]. cbn. by rewrite run_lines_loop_sp.
Qed.

Lemma bind_params_loop_sp room : ∀ c i args,
  loop_sp (bind_params c i args room) = loop_sp c.
Proof.
  induction room as [|room IH]; intros c i [|a args]; simpl; try done.
  rewrite IH. apply script_set_var_loop_sp.
Qed.

Lemma script_call_func_loop_sp c nm args ok :
  loop_sp (script_call_func c nm args ok).2 = loop_sp c.
Proof.
  unfold script_call_func.
  destruct (list_find _ _) as [[i f]|]; [|done].
  destruct (SCRIPT_MAX_STACK <=? call_sp c); [done|].
  match goal with |- context [script_execute ?c2 ?b ?m] =>
    pose proof (script_execute_loop_sp c2 b m) as He;
    destruct (script_execute c2 b m) as [result c3] end.
  simpl in He. rewrite bind_params_loop_sp in He. simpl in He.
  destruct (0 <? call_sp c3); simpl; done.
Qed.

Lemma apply_op_loop_sp c op :
  loop_sp (apply_op c op) = loop_sp c ∨ loop_sp (apply_op c op) = 0.
Proof.
  destruct op; simpl;
    auto using script_execute_loop_sp, execute_line_loop_sp,
      script_set_var_loop_sp, script_unset_var_loop_sp,
      script_define_func_loop_sp, script_call_func_loop_sp,
      script_goto_label_loop_sp, script_break_loop_sp,
      script_continue_loop_sp.
Qed.

Lemma foldl_apply_op_loop_sp ops : ∀ c,
  loop_sp c = 0 → loop_sp (foldl apply_op c ops) = 0.
Proof.
  induction ops as [|op ops IH]; intros c Hc; simpl; [done|].
  apply IH. destruct (apply_op_loop_sp c op); congruence.
Qed.

(** C9: in every context reached from [script_create_context] or
    [script_reset_context] through the public operations the loop stack
    pointer is 0, so [script_break] and [script_continue] return SYSERR and
    leave the context alone. *)
Theorem loop_stack_never_pushed (mem : script_context_t) (ops : list script_op) :
  let c := run_ops mem ops in
  loop_sp c = 0
  ∧ script_break c = (SYSERR, c)
  ∧ script_continue c = (SYSERR, c).
Proof.
  intros c.
  assert (loop_sp c = 0) as Hsp by (by apply foldl_apply_op_loop_sp).
  unfold script_break, script_continue. rewrite Hsp. done.
Qed.

(** ** Read-only variables *)

Lemma create_var_writable c nm :
  all_writable c → all_writable (create_var c nm).2.
Proof.
  unfold all_writable, create_var. intros Hc.
  destruct (find_var c nm); [done|].
  destruct (list_find var_free (vars c)) as [[i v]|]; [|done]. cbn.
  by apply Forall_insert.
Qed.

Lemma script_set_var_writable c nm t v :
  all_writable c → all_writable (script_set_var c nm t v).2.
Proof.
  intros Hc. unfold script_set_var. destruct v as [pv|]; [|done].
  pose proof (create_var_writable c nm Hc) as Hc1.
  destruct (create_var c nm) as [[i|] c1]; [|done]. cbn in Hc1.
  destruct (vars c1 !! i) as [w|] eqn:Hw; [|done].
  destruct (readonly w) eqn:Hro; [done|].
  unfold all_writable in *.
  destruct t; cbn; by apply Forall_insert.
Qed.

Lemma script_unset_var_writable c nm :
  all_writable c → all_writable (script_unset_var c nm).2.
Proof.
  intros Hc. unfold script_unset_var.
  destruct (find_var c nm) as [i|]; [|done].
  destruct (vars c !! i) as [w|] eqn:Hw; [|done].
  destruct (readonly w) eqn:Hro; [done|]. cbn.
  by apply Forall_insert.
Qed.

Lemma execute_line_writable c line :
  all_writable c → all_writable (execute_line c line).2.
Proof.
  intros Hc. unfold execute_line.
  destruct (skip_blanks line) as [|ch p]; [done|].
  destruct (ch =? "#")%char; [done|].
  assert (all_writable (label_step c (ch :: p)).1) as Hl.
  { unfold label_step, create_label.
    repeat (case_match; simplify_eq); done. }
  destruct (label_step c (ch :: p)) as [c1 [p1|]]; cbn in *; [|done].
  destruct (assign_step c1 p1) as [c2|] eqn:Ha; cbn.
  - unfold assign_step in Ha.
    repeat (case_match; simplify_eq); by apply script_set_var_writable.
  - unfold keyword_step, script_break, script_continue, script_goto_label.
    repeat case_match; done.
Qed.

Lemma run_lines_writable ls : ∀ c,
  all_writable c → all_writable (run_lines c ls).
Proof.
  induction ls as [|line rest IH]; intros c Hc; cbn [run_lines]; [done|].
  destruct (running c); [|done].
  pose proof (execute_line_writable
                (set_line_num (wrap32 (line_num c + 1)) c) line Hc) as He.
  destruct (execute_line _ line) as [result c1]. cbn in He.
  destruct (result =? OK); [by apply IH|done].
Qed.

Lemma script_execute_writable c script ok :
  all_writable c → all_writable (script_execute c script ok).2.
Proof.
  intros Hc. unfold script_execute. destruct script as [text|]; [|done].
  destruct ok; [|done]. cbn.
  by apply (run_lines_writable _ (set_line_num 0 (set_running true c))).
Qed.

Lemma bind_params_writable room : ∀ c i args,
  all_writable c → all_writable (bind_params c i args room).
Proof.
  induction room as [|room IH]; intros c i [|a args] Hc; cbn [bind_params];
    try done.
  apply IH. by apply script_set_var_writable.
Qed.

Lemma apply_op_writable c op : all_writable c → all_writable (apply_op c op).
Proof.
  intros Hc. destruct op; cbn [apply_op].
  - unfold all_writable. cbn. apply Forall_fmap. by apply Forall_true.
  - by apply script_execute_writable.
  - done.
  - by apply execute_line_writable.
  - by apply script_set_var_writable.
  - by apply script_unset_var_writable.
  - unfold script_define_func, store_body.
    repeat (case_match; simplify_eq); done.
  - unfold script_call_func.
    destruct (list_find _ _) as [[i f]|]; [|done].
    destruct (SCRIPT_MAX_STACK <=? call_sp c); [done|].
    match goal with |- context [script_execute ?c2 ?b ?m] =>
      assert (all_writable c2) as H2
        by (by apply bind_params_writable);
      pose proof (script_execute_writable c2 b m H2) as He;
      destruct (script_execute c2 b m) as [result c3] end.
    cbn in He. destruct (0 <? call_sp c3); done.
  - unfold script_goto_label. repeat case_match; done.
  - unfold script_break. repeat case_match; done.
  - unfold script_continue. repeat case_match; done.
  - done.
Qed.

(** No operation sets the read-only flag: in the contexts the public
    operations produce, every variable is writable. *)
Lemma readonly_never_set (mem : script_context_t) (ops : list script_op) :
  all_writable (run_ops mem ops).
Proof.
  unfold run_ops.
  assert (all_writable (script_reset_context mem)) as Hc.
  { unfold all_writable. cbn. apply Forall_fmap. by apply Forall_true. }
  revert Hc. generalize (script_reset_context mem).
  induction ops as [|op ops IH]; intros c Hc; cbn [foldl]; [done|].
  apply IH. by apply apply_op_writable.
Qed.

(** C5, amended: when the variable a name resolves to, the first defined
    slot that bears the name, is read-only, [script_set_var] on that name
    returns SYSERR and [script_unset_var] returns SYSERR, and both leave the
    whole context, hence the variable's type, value and defined flag, as
    they were.  SYSERR is no error of its own for this: an unknown name
    makes [script_unset_var] return it too. *)
Theorem readonly_var_rejects_mutation (c : script_context_t) (nm : CStr.cstring)
    (i : nat) (v : script_var_t) (t : var_type_t) (value : option pointee) :
  find_var c nm = Some i →
  vars c !! i = Some v →
  readonly v = true →
  var_defined v = true
  ∧ script_set_var c nm t value = (SYSERR, c)
  ∧ script_unset_var c nm = (SYSERR, c)
  ∧ vars (script_set_var c nm t value).2 !! i = Some v
  ∧ vars (script_unset_var c nm).2 !! i = Some v
  ∧ ∀ other, find_var c other = None → script_unset_var c other = (SYSERR, c).
Proof.
  intros Hfind Hi Hro.
  assert (var_defined v = true) as Hdef.
  { unfold find_var in Hfind.
    destruct (list_find _ _) as [[j w]|] eqn:Hl; simplify_eq/=.
    apply list_find_Some in Hl as (Hj & [Hd _] & _). by simplify_eq. }
  assert (script_set_var c nm t value = (SYSERR, c)) as Hset.
  { unfold script_set_var, create_var. destruct value; [|done].
    by rewrite Hfind, Hi, Hro. }
  assert (script_unset_var c nm = (SYSERR, c)) as Hunset.
  { unfold script_unset_var. by rewrite Hfind, Hi, Hro. }
  rewrite Hset, Hunset. split_and!; try done.
  intros other Hother. unfold script_unset_var. by rewrite Hother.
Qed.

Lemma readonly_var_rejects_mutation_witness :
  script_set_var readonly_sample (lit "x") VAR_TYPE_STRING
    (Some (str_ptr (lit "new"))) = (SYSERR, readonly_sample)
  ∧ script_unset_var readonly_sample (lit "x") = (SYSERR, readonly_sample).
Proof.
  pose proof (readonly_var_rejects_mutation readonly_sample (lit "x") 0
                {| var_name := lit "x"; var_type := VAR_TYPE_INT;
                   var_val := val_int 1; readonly := true; exported := false;
                   var_defined := true |}
                VAR_TYPE_STRING (Some (str_ptr (lit "new")))
                eq_refl eq_refl eq_refl) as (_ & Hset & Hunset & _).
  exact (conj Hset Hunset).
Defined.

(** C5 as stated fails for a read-only variable that stands behind another
    slot of the same name: the calls reach the first slot, which is
    writable, and succeed, while the read-only variable of that name is
    defined. *)
Lemma readonly_slot_behind_same_name :
  let nm := replicate 63 "a"%char in
  let c := shadowed_readonly in
  (∃ v, vars c !! 1%nat = Some v
        ∧ var_defined v = true ∧ var_name v = nm ∧ readonly v = true)
  ∧ script_var_exists c nm = true
  ∧ (script_set_var c nm VAR_TYPE_INT (Some (int_ptr 9))).1 = OK
  ∧ script_get_var (script_set_var c nm VAR_TYPE_INT (Some (int_ptr 9))).2 nm
    = (OK, Some VAR_TYPE_INT, Some (val_int 9))
  ∧ (script_unset_var c nm).1 = OK.
Proof.
  split_and!; [|vm_compute; reflexivity..].
  eexists. split; [vm_compute; reflexivity|]. split_and!; reflexivity.
Qed.

(** ** Labels and [goto] *)

Lemma script_set_var_labels c nm t v :
  labels (script_set_var c nm t v).2 = labels c.
Proof. unfold script_set_var, create_var. split_cases. Qed.

Lemma assign_step_labels c p c' :
  assign_step c p = Some c' → labels c' = labels c.
Proof.
  unfold assign_step. intros H.
  repeat (case_match; simplify_eq); apply script_set_var_labels.
Qed.

Lemma keyword_step_labels c p : labels (keyword_step c p).2 = labels c.
Proof.
  unfold keyword_step, script_break, script_continue, script_goto_label.
  repeat case_match; done.
Qed.

(** What a line does to the label table is what [create_label] does for the
    label the line defines. *)
Lemma execute_line_labels c line :
  labels (execute_line c line).2
  = labels (match defined_label line with
            | Some L => (create_label c L (line_num c)).2
            | None => c
            end).
Proof.
  unfold execute_line, defined_label.
  destruct (skip_blanks line) as [|ch p]; [done|].
  destruct (ch =? "#")%char; [done|].
  assert (∀ c1 p1, labels (match assign_step c1 p1 with
                           | Some c2 => (OK, c2)
                           | None => keyword_step c1 p1
                           end).2 = labels c1) as Hrest.
  { intros c1 p1. destruct (assign_step c1 p1) eqn:Ha; simpl.
    - by eapply assign_step_labels.
    - apply keyword_step_labels. }
  unfold label_step.
  destruct (strchr (ch :: p) ":") as [[|k]|]; [apply Hrest| |apply Hrest].
  destruct (bool_decide _);
    destruct (skip_blanks _); simpl; try done; apply Hrest.
Qed.

Lemma defined_label_length line L :
  defined_label line = Some L → (length L < SCRIPT_VAR_NAME_LEN)%nat.
Proof.
  unfold defined_label. intros H.
  repeat (case_match; simplify_eq).
  match goal with Hb : bool_decide _ = true |- _ =>
    apply bool_decide_eq_true in Hb end.
  rewrite length_take. lia.
Qed.

(** Recording another label does not make [L] known. *)
Lemma create_label_other c L' n L :
  L' ≠ L → (length L' < SCRIPT_VAR_NAME_LEN)%nat →
  list_find (label_named L) (labels c) = None →
  list_find (label_named L) (labels (create_label c L' n).2) = None.
Proof.
  intros Hne Hlen Hnone. unfold create_label.
  destruct (list_find (label_named L') _) as [[i l]|] eqn:Hfound; simpl.
  - apply list_find_insert_none; [done|].
    apply list_find_Some in Hfound as (_ & [_ Hn] & _).
    intros [_ Hl]. simpl in Hl. congruence.
  - destruct (list_find label_free _) as [[i l]|]; simpl; [|done].
    apply list_find_insert_none; [done|].
    intros [_ Hl]. simpl in Hl.
    rewrite strncpy_short in Hl by (unfold SCRIPT_VAR_NAME_LEN in *; lia).
    done.
Qed.

(** Recording [L] makes it known, at the given line, as soon as the table
    holds it already or has a free slot. *)
Lemma create_label_records c L n :
  (length L < SCRIPT_VAR_NAME_LEN)%nat →
  is_Some (list_find (label_named L) (labels c))
    ∨ is_Some (list_find label_free (labels c)) →
  ∃ i l, list_find (label_named L) (labels (create_label c L n).2) = Some (i, l)
         ∧ label_line l = n.
Proof.
  intros Hlen Hroom. unfold create_label.
  destruct (list_find (label_named L) _) as [[i l]|] eqn:Hfound; simpl.
  - eexists i, _. split; [|shelve].
    + eapply list_find_insert_same; [done|].
      apply list_find_Some in Hfound as (_ & [Hd Hn] & _). by split.
      Unshelve. done.
  - destruct Hroom as [[? ?]|[[j f] Hfree]]; [done|]. rewrite Hfree. simpl.
    eexists j, _. split; [|shelve].
    + eapply list_find_insert_first; [done..|].
      split; [done|]. simpl.
      apply strncpy_short. unfold SCRIPT_VAR_NAME_LEN in *. lia.
      Unshelve. done.
Qed.

(** A recorded label stays recorded, in the same slot. *)
Lemma create_label_keeps c L' n L i l :
  (length L' < SCRIPT_VAR_NAME_LEN)%nat →
  list_find (label_named L) (labels c) = Some (i, l) →
  ∃ l', list_find (label_named L) (labels (create_label c L' n).2) = Some (i, l').
Proof.
  intros Hlen HL. unfold create_label.
  pose proof HL as (Hi & [Hd Hn] & _)%list_find_Some.
  destruct (list_find (label_named L') _) as [[j lj]|] eqn:Hfound; simpl.
  - pose proof Hfound as (Hj & [Hdj Hnj] & _)%list_find_Some.
    destruct (decide (L' = L)) as [->|Hne].
    + simplify_eq. eexists. eapply list_find_insert_same; [done|]. by split.
    + exists l. apply list_find_insert_other; [done| |].
      * intros ->. simplify_eq.
      * intros [_ Hl]. simpl in Hl. congruence.
  - destruct (list_find label_free _) as [[j f]|] eqn:Hfree; simpl; [|by eauto].
    pose proof Hfree as (Hj & Hf & _)%list_find_Some.
    exists l. apply list_find_insert_other; [done| |].
    + intros ->. unfold label_free in Hf. simplify_eq. congruence.
    + intros [_ Hl]. simpl in Hl.
      rewrite strncpy_short in Hl by (unfold SCRIPT_VAR_NAME_LEN in *; lia).
      subst L'. by rewrite HL in Hfound.
Qed.

Lemma execute_line_keeps c line L :
  is_Some (list_find (label_named L) (labels c)) →
  is_Some (list_find (label_named L) (labels (execute_line c line).2)).
Proof.
  intros [[i l] HL]. rewrite execute_line_labels.
  destruct (defined_label line) as [L'|] eqn:Hd; [|by eauto].
  apply defined_label_length in Hd.
  destruct (create_label_keeps c L' (line_num c) L i l) as [l' Hl']; by eauto.
Qed.

Lemma run_lines_unresolved ls : ∀ c L,
  list_find (label_named L) (labels c) = None →
  (∀ l, l ∈ ls → defined_label l ≠ Some L) →
  list_find (label_named L) (labels (run_lines c ls)) = None.
Proof.
  induction ls as [|line rest IH]; intros c L Hnone Hls; simpl; [done|].
  destruct (running c); [|done].
  pose proof (execute_line_labels
                (set_line_num (wrap32 (line_num c + 1)) c) line) as He.
  destruct (execute_line _ line) as [result c1]. simpl in He.
  assert (list_find (label_named L) (labels c1) = None) as Hc1.
  { rewrite He. destruct (defined_label line) as [L'|] eqn:Hd; [|done].
    apply create_label_other; [|by eapply defined_label_length|done].
    intros ->. eapply Hls; [apply list_elem_of_here|done]. }
  destruct (result =? OK); [|done].
  apply IH; [done|]. intros l Hl. apply Hls. by apply list_elem_of_further.
Qed.

Lemma run_lines_keeps ls : ∀ c L,
  is_Some (list_find (label_named L) (labels c)) →
  is_Some (list_find (label_named L) (labels (run_lines c ls))).
Proof.
  induction ls as [|line rest IH]; intros c L HL; simpl; [done|].
  destruct (running c); [|done].
  pose proof (execute_line_keeps
                (set_line_num (wrap32 (line_num c + 1)) c) line L HL) as He.
  destruct (execute_line _ line) as [result c1]. simpl in He.
  destruct (result =? OK); [by apply IH|done].
Qed.

(** C3, amended: [script_goto_label] returns SYSERR as long as no executed
    line has defined the label; once a line defining it has been executed
    while the label table had a free slot, it returns OK and sets the
    current line number to the line recorded, and it keeps succeeding
    whatever lines are executed afterwards. *)
Theorem goto_needs_recorded_label (c : script_context_t) (L : CStr.cstring)
    (before : list CStr.cstring) (line : CStr.cstring)
    (after : list CStr.cstring) :
  find_label c L = None →
  (∀ l, l ∈ before → defined_label l ≠ Some L) →
  defined_label line = Some L →
  is_Some (list_find label_free (labels (run_lines c before))) →
  let c1 := run_lines c before in
  let c2 := (execute_line c1 line).2 in
  let c3 := run_lines c2 after in
  script_goto_label c1 L = (SYSERR, c1)
  ∧ script_goto_label c2 L = (OK, set_line_num (line_num c1) c2)
  ∧ ∃ n, script_goto_label c3 L = (OK, set_line_num n c3).
Proof.
  intros Hnone Hbefore Hline Hroom c1 c2 c3.
  assert (list_find (label_named L) (labels c) = None) as Hnone'.
  { unfold find_label in Hnone. by destruct (list_find _ _). }
  assert (list_find (label_named L) (labels c1) = None) as H1
    by (by apply run_lines_unresolved).
  assert (∃ i l, list_find (label_named L) (labels c2) = Some (i, l)
                 ∧ label_line l = line_num c1) as (i & l & H2 & Hl).
  { subst c2. rewrite execute_line_labels, Hline.
    apply create_label_records; [by eapply defined_label_length|by right]. }
  split_and!.
  - unfold script_goto_label. by rewrite H1.
  - unfold script_goto_label. by rewrite H2, Hl.
  - destruct (run_lines_keeps after c2 L) as [[j l3] H3]; [by eauto|].
    exists (label_line l3). unfold script_goto_label. subst c3. by rewrite H3.
Qed.

Lemma goto_needs_recorded_label_witness :
  let c1 := run_lines fresh_running [lit "x = 1"] in
  let c2 := (execute_line c1 (lit "end:")).2 in
  let c3 := run_lines c2 [lit "y = 2"] in
  script_goto_label c1 (lit "end") = (SYSERR, c1)
  ∧ script_goto_label c2 (lit "end") = (OK, set_line_num (line_num c1) c2)
  ∧ ∃ n, script_goto_label c3 (lit "end") = (OK, set_line_num n c3).
Proof.
  apply (goto_needs_recorded_label fresh_running (lit "end")
           [lit "x = 1"] (lit "end:") [lit "y = 2"]).
  - reflexivity.
  - apply Forall_forall. apply (bool_decide_unpack _). vm_compute. exact I.
  - reflexivity.
  - apply (bool_decide_unpack _). vm_compute. exact I.
Defined.

(** A forward [goto] on the first pass: the script stops at the [goto], the
    label behind it is never reached, and the exit code stays 0. *)
Example forward_goto_unresolved :
  let '(result, c) :=
    script_execute (script_reset_context zero_context)
      (Some (lit "goto end" ++ ["010"%char] ++ lit "x = 1" ++ ["010"%char]
             ++ lit "end:")) true in
  result = 0 ∧ line_num c = 1 ∧ find_label c (lit "end") = None
  ∧ find_var c (lit "x") = None.
Proof. vm_compute. done. Qed.

(** C3 as stated fails: after 64 other labels the line [last:] executes to
    OK, yet [goto last] is refused. *)
Lemma goto_fails_when_table_full :
  let c := run_lines fresh_running (label_lines 64) in
  defined_label (lit "last:") = Some (lit "last")
  ∧ (execute_line c (lit "last:")).1 = OK
  ∧ (script_goto_label (execute_line c (lit "last:")).2 (lit "last")).1 = SYSERR.
Proof. split_and!; vm_compute; reflexivity. Qed.

(** ** Control-flow keywords *)

Lemma has_prefix_app pre p : has_prefix pre p = true → ∃ q, p = pre ++ q.
Proof.
  revert p. induction pre as [|a pre IH]; intros p Hp; simpl in *; [by eauto|].
  destruct p as [|b p]; [done|].
  apply andb_true_iff in Hp as [Hab Hp]. apply Ascii.eqb_eq in Hab as ->.
  destruct (IH _ Hp) as [q ->]. by eauto.
Qed.

(** C8, amended: a line that begins with [if ], [while ] or [for ], holds no
    colon, whose first [=], if it has one, directly follows [!], [<] or
    [>], and whose condition, after [if ] or [while ], keeps
    [script_eval_int] within its result (it does not begin with a reference
    to a float, a string or an array), executes to OK without changing the
    context, and [script_execute] goes on with the next line. *)
Theorem control_keywords_fall_through (c : script_context_t)
    (line : CStr.cstring) (rest : list CStr.cstring) :
  has_prefix (lit "if ") line = true
    ∨ has_prefix (lit "while ") line = true
    ∨ has_prefix (lit "for ") line = true →
  strchr line ":" = None →
  (∀ k, strchr line "=" = Some k →
        ∃ j ch, k = S j ∧ line !! j = Some ch
                ∧ (ch = "!" ∨ ch = "<" ∨ ch = ">")%char) →
  (∀ cond, line = lit "if " ++ cond ∨ line = lit "while " ++ cond →
           eval_int_in_bounds c cond = true) →
  execute_line c line = (OK, c)
  ∧ (running c = true →
     run_lines c (line :: rest)
     = run_lines (set_line_num (wrap32 (line_num c + 1)) c) rest).
Proof.
  intros Hkw Hcolon Heq _.
  assert (∀ c0, execute_line c0 line = (OK, c0)) as Hline.
  { intros c0.
    assert (assign_step c0 line = None) as Hassign.
    { unfold assign_step. destruct (strchr line "=") as [k|]; [|done].
      destruct (Heq k eq_refl) as (j & ch & -> & Hj & Hch).
      rewrite Hj. simpl. by destruct Hch as [->| [->| ->]]. }
    assert (keyword_step c0 line = (OK, c0)) as Hkey.
    { unfold keyword_step.
      destruct Hkw as [Hp|[Hp|Hp]]; apply has_prefix_app in Hp as [q ->];
        reflexivity. }
    unfold execute_line.
    assert (∃ ch q, line = ch :: q ∧ is_blank ch = false
                    ∧ (ch =? "#")%char = false) as (ch & q & -> & Hb & Hh).
    { destruct Hkw as [Hp|[Hp|Hp]]; apply has_prefix_app in Hp as [q ->];
        by eexists _, _. }
    cbn [skip_blanks]. rewrite Hb, Hh.
    unfold label_step. rewrite Hcolon, Hassign. done. }
  split; [done|]. intros Hrun. cbn [run_lines]. by rewrite Hrun, Hline.
Qed.

Lemma control_keywords_fall_through_witness :
  execute_line fresh_running (lit "while $i <= 10") = (OK, fresh_running)
  ∧ (running fresh_running = true →
     run_lines fresh_running [lit "while $i <= 10"; lit "i = 1"]
     = run_lines (set_line_num (wrap32 (line_num fresh_running + 1))
                    fresh_running) [lit "i = 1"]).
Proof.
  apply (control_keywords_fall_through fresh_running (lit "while $i <= 10")
           [lit "i = 1"]).
  - right. left. reflexivity.
  - reflexivity.
  - intros k Hk. vm_compute in Hk. injection Hk as <-.
    exists 9%nat, "<"%char. split_and!; [reflexivity..|]. right. by left.
  - intros cond Hcond. vm_compute in Hcond.
    destruct Hcond as [Hcond|Hcond]; [discriminate Hcond|].
    injection Hcond as <-. reflexivity.
Defined.

(** The condition the amended C8 leaves out: once a line has made [s] a
    string, [while $s] makes [script_eval_int] hand [script_get_var] its
    four-byte result for the five bytes of [qqqq] and its terminator. *)
Example string_condition_out_of_bounds :
  script_get_var string_bound (lit "s")
  = (OK, Some VAR_TYPE_STRING, Some (val_str (lit "qqqq")))
  ∧ eval_int_in_bounds string_bound (lit "$s") = false
  ∧ eval_int_in_bounds string_bound (lit "$i <= 10") = true.
Proof. split_and!; vm_compute; reflexivity. Qed.

(** C8 as stated fails: the line [if x = 5] is taken for an assignment and
    defines a variable named [if x]. *)
Lemma if_line_with_equals_assigns :
  let c := script_reset_context zero_context in
  let c' := (execute_line c (lit "if x = 5")).2 in
  has_prefix (lit "if ") (lit "if x = 5") = true
  ∧ script_get_var c (lit "if x") = (SYSERR, None, None)
  ∧ script_get_var c' (lit "if x") = (OK, Some VAR_TYPE_INT, Some (val_int 5))
  ∧ c' ≠ c.
Proof.
  split_and!; [vm_compute; reflexivity..|].
  intros Heq. apply (f_equal var_count) in Heq. vm_compute in Heq. done.
Qed.

(** ** The regular-expression matcher *)

(** C10: [expr_match_regex] returns what [expr_match_glob] returns, for every
    pattern and every subject. *)
Theorem regex_is_glob (pattern string : CStr.cstring) :
  expr_match_regex pattern string = expr_match_glob pattern string.
Proof. reflexivity. Qed.

(** The matcher on the patterns of the specification's test list. *)
Example glob_samples :
  expr_match_glob (lit "a*c") (lit "abc") = true
  ∧ expr_match_glob (lit "a*c") (lit "ac") = true
  ∧ expr_match_glob (lit "a?c") (lit "abc") = true
  ∧ expr_match_glob (lit "a?c") (lit "ac") = false.
Proof. repeat split; reflexivity. Qed.

End ScriptFacts.

(** * Properties of the shell *)

Module ShellFacts.

Import Shell.

#[local] Arguments strncpy : simpl never.

(** ** Job control *)

(** [shell_bg] leaves every finished job as it is. *)
Lemma shell_bg_keeps_finished (w : job_table) (pid : Z) (i : nat)
    (j : shell_job_t) :
  shell_jobs w !! i = Some j →
  job_state j = JOB_DONE ∨ job_state j = JOB_KILLED →
  shell_jobs (shell_bg w pid).2 !! i = Some j.
Proof.
  intros Hi Hst. unfold shell_bg, shell_job_find_by_pid.
  destruct (list_find _ _) as [[k job]|] eqn:Hfind; [|done].
  destruct (decide (job_state job = JOB_STOPPED)) as [Hs|]; [|done].
  apply list_find_Some in Hfind as (Hk & _ & _). simpl.
  destruct (decide (k = i)) as [->|Hne].
  - simplify_eq. destruct Hst; congruence.
  - by rewrite list_lookup_insert_ne.
Qed.

(** [shell_fg] marks the job it finds Running and foreground, whatever its
    state was, before it starts to wait. *)
Lemma shell_fg_marks_running (w : job_table) (pid : Z) (i : nat)
    (job : shell_job_t) :
  shell_job_find_by_pid w pid = Some (i, job) →
  ∃ w2, shell_jobs w2 !! i
        = Some (set_foreground true (set_job_state JOB_RUNNING job))
        ∧ ∀ sched,
            shell_fg w pid sched
            = match shell_wait_job w2 (job_id job) sched with
              | Returns (_, w3, sched') => Returns (OK, w3, sched')
              | Spins w3 => Spins w3
              end.
Proof.
  intros Hfind. unfold shell_fg. rewrite Hfind.
  eexists. split; [|reflexivity].
  apply list_find_Some in Hfind as (Hi & _ & _).
  destruct (decide (job_state job = JOB_STOPPED)); cbn;
    apply list_lookup_insert_eq; by eapply lookup_lt_Some.
Qed.

(** C1: [shell_fg] on a job that is Done, or Killed, puts it back to Running
    and then polls for ever when no notification comes; when one comes, the
    job ends in the state notified.  [shell_bg] leaves such a job alone
    (lemma [shell_bg_keeps_finished]). *)
Theorem shell_fg_revives_finished_job :
  shell_fg (sample_jobs JOB_DONE false) 7 [] = Spins (sample_jobs JOB_RUNNING true)
  ∧ shell_fg (sample_jobs JOB_KILLED false) 7 []
    = Spins (sample_jobs JOB_RUNNING true)
  ∧ shell_fg (sample_jobs JOB_DONE false) 7 [[(1, JOB_STOPPED)]]
    = Returns (OK, sample_jobs JOB_STOPPED true, []).
Proof. split_and!; reflexivity. Qed.

(** ** The dispatcher *)

(** C4: with [argv[0]] registered, the dispatcher calls the handler of the
    first matching entry with [(argc, argv)] and, when the handler returns,
    returns its value and stores it as last exit status; with [argv[0]] not
    registered it writes the command-not-found message, returns 127 and
    stores 127, which is neither the failure code 1 nor the success code 0. *)
Theorem dispatch_exit_status
    (invoke : shell_cmd_func → Z → list CStr.cstring → shell_t
              → option (Z * shell_t))
    (sh : shell_t) (arg0 : CStr.cstring) (rest : list CStr.cstring) :
  let args := arg0 :: rest in
  (∀ cmd r sh1,
     shell_find_command sh arg0 = Some cmd →
     invoke (func cmd) (Z.of_nat (length args)) args sh = Some (r, sh1) →
     ∃ sh', shell_dispatch invoke sh args = Some (r, sh')
            ∧ last_exit (shell_state sh') = r
            ∧ sh' = with_state (set_last_exit r (shell_state sh1)) sh1)
  ∧ (∀ cmd,
       shell_find_command sh arg0 = Some cmd →
       invoke (func cmd) (Z.of_nat (length args)) args sh = None →
       shell_dispatch invoke sh args = None)
  ∧ (shell_find_command sh arg0 = None →
     ∃ sh', shell_dispatch invoke sh args = Some (SHELL_NOT_FOUND, sh')
            ∧ last_exit (shell_state sh') = SHELL_NOT_FOUND
            ∧ errors sh'
              = errors sh ++ [arg0 ++ lit ": command not found" ++ ["010"%char]])
  ∧ SHELL_NOT_FOUND = 127
  ∧ SHELL_NOT_FOUND ≠ SHELL_ERROR
  ∧ SHELL_NOT_FOUND ≠ SHELL_OK.
Proof.
  intros args. split_and!; try done.
  - intros cmd r sh1 Hfind Hcall. eexists. unfold shell_dispatch, args in *.
    rewrite Hfind, Hcall. done.
  - intros cmd Hfind Hcall. unfold shell_dispatch, args in *.
    by rewrite Hfind, Hcall.
  - intros Hfind. eexists. unfold shell_dispatch, args. rewrite Hfind. done.
Qed.

Lemma dispatch_exit_status_witness :
  (∃ sh', shell_dispatch sample_invoke sample_shell [lit "false"; lit "x"]
          = Some (SHELL_ERROR, sh')
          ∧ last_exit (shell_state sh') = SHELL_ERROR)
  ∧ (∃ sh', shell_dispatch sample_invoke sample_shell [lit "ls"]
            = Some (SHELL_NOT_FOUND, sh')
            ∧ last_exit (shell_state sh') = SHELL_NOT_FOUND).
Proof.
  split.
  - destruct (dispatch_exit_status sample_invoke sample_shell (lit "false")
                [lit "x"]) as (Hfound & _).
    destruct (Hfound {| name := lit "false"; description := lit "Return failure";
                        func := 2; builtin := true |} SHELL_ERROR sample_shell
                eq_refl eq_refl) as (sh' & Hd & Hl & _).
    exists sh'. exact (conj Hd Hl).
  - destruct (dispatch_exit_status sample_invoke sample_shell (lit "ls") [])
      as (_ & _ & Hmissing & _).
    destruct (Hmissing eq_refl) as (sh' & Hd & Hl & _).
    exists sh'. exact (conj Hd Hl).
Defined.

(** ** The history ring *)

#[local] Ltac Zify.zify_post_hook ::= Z.to_euclidean_division_equations.

Lemma contents_length st : length (contents st) = Z.to_nat (history_count st).
Proof. unfold contents. by rewrite length_fmap, length_seq. Qed.

Lemma contents_lookup st (i : nat) :
  (i < Z.to_nat (history_count st))%nat →
  contents st !! i = Some (command (history_at st (slot_of st (Z.of_nat i)))).
Proof.
  intros Hi. unfold contents. by rewrite list_lookup_fmap, lookup_seq_lt.
Qed.

(** [shell_history_get] reads [contents]. *)
Lemma shell_history_get_contents st i :
  shell_history_get st i
  = if i <? 0 then None else contents st !! Z.to_nat i.
Proof.
  unfold shell_history_get.
  destruct (i <? 0) eqn:Hneg; simpl; [done|].
  destruct (history_count st <=? i) eqn:Hhi.
  - symmetry. apply lookup_ge_None. rewrite contents_length. lia.
  - rewrite contents_lookup by lia. unfold slot_of.
    by rewrite Z2Nat.id by lia.
Qed.

Lemma history_at_set st h n i k e j :
  h = <[Z.to_nat k := e]> (history st) →
  0 ≤ j → 0 ≤ k < Z.of_nat (length (history st)) →
  history_at (set_history h n i st) j
  = if decide (j = k) then e else history_at st j.
Proof.
  intros -> Hj Hk. unfold history_at. simpl.
  destruct (decide (j = k)) as [->|Hne].
  - rewrite list_lookup_insert_eq by lia. done.
  - rewrite list_lookup_insert_ne by lia. done.
Qed.

Lemma history_wf_init shell_pid : history_wf (shell_init_state shell_pid).
Proof. unfold history_wf. simpl. split_and!; try done; lia. Qed.

(** A command equal to the newest entry is dropped. *)
Lemma shell_history_add_repeat st c :
  last (contents st) = Some c → shell_history_add st c = st.
Proof.
  intros Hlast. unfold shell_history_add. destruct c as [|a c]; [done|].
  rewrite last_lookup, contents_length in Hlast.
  assert (0 < history_count st) as Hpos.
  { apply lookup_lt_Some in Hlast. rewrite contents_length in Hlast.
    destruct (decide (0 < history_count st)); [done|].
    rewrite Z2Nat.nonpos in Hlast by lia. lia. }
  rewrite contents_lookup in Hlast by lia.
  replace (slot_of st (Z.of_nat (pred (Z.to_nat (history_count st)))))
    with (Z.rem (history_index st - 1 + SHELL_HISTORY_SIZE) SHELL_HISTORY_SIZE)
    in Hlast by (unfold slot_of; f_equal; lia).
  injection Hlast as Hlast. rewrite Hlast.
  replace (0 <? history_count st) with true by lia.
  unfold streq. by rewrite bool_decide_eq_true_2.
Qed.

(** Any other non-empty command is appended, cut to the slot size, and
    pushes the oldest entry out of a full ring. *)
Lemma shell_history_add_fresh st c :
  history_wf st → c ≠ [] → last (contents st) ≠ Some c →
  history_wf (shell_history_add st c)
  ∧ contents (shell_history_add st c)
    = (if history_count st <? SHELL_HISTORY_SIZE
       then contents st else drop 1 (contents st))
      ++ [strncpy c (SHELL_MAX_LINE - 1)].
Proof.
  intros (Hlen & Hcount & Hindex & Hfill) Hc Hlast.
  unfold SHELL_HISTORY_SIZE in *.
  assert ((0 <? history_count st)
          && streq (command (history_at st
                      (Z.rem (history_index st - 1 + 50) 50))) c = false)
    as Htest.
  { destruct (0 <? history_count st) eqn:Hpos; [|done]. simpl.
    apply bool_decide_eq_false. intros Heq. apply Hlast.
    rewrite last_lookup, contents_length, contents_lookup by lia.
    rewrite <- Heq. do 3 f_equal. unfold slot_of, SHELL_HISTORY_SIZE.
    f_equal. lia. }
  unfold shell_history_add, SHELL_HISTORY_SIZE.
  destruct c as [|a c]; [done|]. rewrite Htest.
  set (cmd := a :: c) in *.
  set (e := {| command := strncpy cmd (SHELL_MAX_LINE - 1);
               number := history_count st;
               timestamp := timestamp (history_at st (history_index st)) |}).
  set (n' := if history_count st <? 50 then history_count st + 1
             else history_count st).
  set (i' := Z.rem (history_index st + 1) 50).
  set (st' := set_history _ n' i' st).
  assert (history_count st' = n') as Hn' by done.
  assert (history_index st' = i') as Hi' by done.
  assert (∀ j, 0 ≤ j →
            history_at st' j
            = if decide (j = history_index st) then e else history_at st j)
    as Hat.
  { intros j Hj. apply history_at_set; [done|done|lia]. }
  split.
  { unfold history_wf, SHELL_HISTORY_SIZE. rewrite Hn', Hi'. subst st' n' i'.
    simpl. rewrite length_insert.
    destruct (history_count st <? 50) eqn:Hfull; split_and!; lia. }
  eapply (list_eq_same_length _ _ (Z.to_nat n')).
  { rewrite length_app. cbn [length]. subst n'.
    destruct (history_count st <? 50) eqn:Hfull.
    - rewrite contents_length. lia.
    - rewrite length_drop, contents_length. lia. }
  { rewrite contents_length. by rewrite Hn'. }
  intros i x y Hi Hx Hy.
  rewrite contents_lookup in Hx by (rewrite Hn'; lia).
  injection Hx as <-.
  unfold slot_of, SHELL_HISTORY_SIZE. rewrite Hn', Hi'.
  rewrite Hat by (subst n' i'; destruct (history_count st <? 50) eqn:?; lia).
  subst n' i'.
  destruct (history_count st <? 50) eqn:Hfull.
  - destruct (decide (Z.of_nat i = history_count st)) as [Hend|Hin].
    + rewrite lookup_app_r in Hy by (rewrite contents_length; lia).
      rewrite contents_length in Hy.
      replace (i - Z.to_nat (history_count st))%nat with 0%nat in Hy by lia.
      injection Hy as <-. rewrite decide_True by lia. done.
    + rewrite lookup_app_l in Hy by (rewrite contents_length; lia).
      rewrite contents_lookup in Hy by lia. injection Hy as <-.
      rewrite decide_False by lia. do 2 f_equal.
      unfold slot_of, SHELL_HISTORY_SIZE. lia.
  - destruct (decide (Z.of_nat i = 49)) as [Hend|Hin].
    + rewrite lookup_app_r in Hy by (rewrite length_drop, contents_length; lia).
      rewrite length_drop, contents_length in Hy.
      replace (i - (Z.to_nat (history_count st) - 1))%nat with 0%nat in Hy
        by lia.
      injection Hy as <-. rewrite decide_True by lia. done.
    + rewrite lookup_app_l in Hy by (rewrite length_drop, contents_length; lia).
      rewrite lookup_drop, contents_lookup in Hy by lia. injection Hy as <-.
      rewrite decide_False by lia. do 2 f_equal.
      unfold slot_of, SHELL_HISTORY_SIZE. lia.
Qed.

Lemma shell_history_add_wf st c : history_wf st → history_wf (shell_history_add st c).
Proof.
  intros Hwf. destruct c as [|a c]; [done|].
  destruct (decide (last (contents st) = Some (a :: c))) as [Hrep|Hnew].
  - by rewrite shell_history_add_repeat.
  - by apply shell_history_add_fresh.
Qed.

Lemma last_elem_of_drop {A} (l : list A) n x :
  last (drop n l) = Some x → x ∈ l.
Proof.
  rewrite last_lookup, lookup_drop. intros Hx.
  by eapply list_elem_of_lookup_2.
Qed.

(** After distinct commands that fit a slot have been added to an empty
    history, the ring holds the last 50 of them, in order. *)
Lemma history_after_adds cmds : ∀ st,
  history_wf st → history_count st = 0 →
  NoDup cmds →
  Forall (λ x : CStr.cstring, x ≠ [] ∧ (length x < SHELL_MAX_LINE)%nat) cmds →
  history_wf (foldl shell_history_add st cmds)
  ∧ contents (foldl shell_history_add st cmds)
    = drop (length cmds - Z.to_nat SHELL_HISTORY_SIZE) cmds.
Proof.
  induction cmds as [|x cmds IH] using rev_ind; intros st Hwf Hempty Hnd Hok.
  { split; [done|]. cbn [foldl]. unfold contents. by rewrite Hempty. }
  apply NoDup_app in Hnd as (Hnd & Hx & _).
  apply Forall_app in Hok as [Hok [[Hne Hlen] _]%Forall_cons].
  destruct (IH st) as [Hwf1 Hc1]; [done..|].
  rewrite foldl_app. cbn [foldl].
  set (st1 := foldl shell_history_add st cmds) in *.
  assert (last (contents st1) ≠ Some x) as Hlast.
  { rewrite Hc1. intros Hl%last_elem_of_drop.
    apply (Hx x Hl). apply list_elem_of_here. }
  destruct (shell_history_add_fresh st1 x) as [Hwf2 Hc2]; [done..|].
  split; [done|]. rewrite Hc2, Hc1.
  rewrite strncpy_short by (unfold SHELL_MAX_LINE in *; lia).
  pose proof (contents_length st1) as Hl1. rewrite Hc1, length_drop in Hl1.
  destruct Hwf1 as (_ & Hcount & _). unfold SHELL_HISTORY_SIZE in *.
  rewrite length_app. cbn [length].
  destruct (history_count st1 <? 50) eqn:Hfull.
  - replace (length cmds - Z.to_nat 50)%nat with 0%nat by lia.
    replace (length cmds + 1 - Z.to_nat 50)%nat with 0%nat by lia.
    done.
  - rewrite drop_drop, drop_app_le by lia. do 2 f_equal. lia.
Qed.

Lemma shell_history_clear_wf st :
  length (history st) = Z.to_nat SHELL_HISTORY_SIZE →
  history_wf (shell_history_clear st).
Proof. intros Hlen. unfold history_wf. cbn. split_and!; done || lia. Qed.

(** C2, amended: for commands of at most 255 characters.  After [50 + k]
    distinct non-empty such commands have been added to an empty history,
    [shell_history_get 0] returns the [(k+1)]-th of them; in any state an
    index below 0 or not below the count yields NULL; and in any state the
    shell can reach, adding a command a second time in a row changes
    nothing. *)
Theorem history_ring_buffer (st : shell_state_t) (cmds : list cstring)
    (k : nat) (any : shell_state_t) (c : cstring) (i : Z) :
  history_count st = 0 →
  history_index st = 0 →
  length (history st) = Z.to_nat SHELL_HISTORY_SIZE →
  NoDup cmds →
  Forall (λ x : cstring, x ≠ [] ∧ (length x < SHELL_MAX_LINE)%nat) cmds →
  length cmds = (Z.to_nat SHELL_HISTORY_SIZE + k)%nat →
  history_wf any →
  (length c < SHELL_MAX_LINE)%nat →
  i < 0 ∨ history_count any ≤ i →
  shell_history_get (foldl shell_history_add st cmds) 0 = cmds !! k
  ∧ shell_history_get any i = None
  ∧ shell_history_add (shell_history_add any c) c = shell_history_add any c.
Proof.
  intros Hcount Hindex Hlen Hnd Hok Hn Hany Hc Hi.
  assert (history_wf st) as Hwf.
  { unfold history_wf, SHELL_HISTORY_SIZE in *. rewrite Hcount, Hindex.
    split_and!; done || lia. }
  destruct (history_after_adds cmds st) as [_ Hcont]; [done..|].
  split_and!.
  - rewrite shell_history_get_contents. simpl. rewrite Hcont, lookup_drop.
    f_equal. lia.
  - rewrite shell_history_get_contents.
    destruct (i <? 0) eqn:Hneg; [done|].
    apply lookup_ge_None. rewrite contents_length. lia.
  - destruct c as [|a c]; [done|].
    destruct (decide (last (contents any) = Some (a :: c))) as [Hrep|Hnew].
    + rewrite (shell_history_add_repeat any _ Hrep).
      by apply shell_history_add_repeat.
    + destruct (shell_history_add_fresh any (a :: c)) as [_ Hc2]; [done..|].
      apply shell_history_add_repeat. rewrite Hc2, last_snoc.
      by rewrite strncpy_short by (unfold SHELL_MAX_LINE in *; lia).
Qed.

Lemma history_ring_buffer_witness :
  let st' := foldl shell_history_add (shell_init_state 1) (numbered_commands 52) in
  shell_history_get st' 0 = Some (lit "cmd2")
  ∧ shell_history_get st' 50 = None
  ∧ shell_history_add (shell_history_add st' (lit "ls")) (lit "ls")
    = shell_history_add st' (lit "ls").
Proof.
  apply (history_ring_buffer (shell_init_state 1) (numbered_commands 52) 2
           (foldl shell_history_add (shell_init_state 1) (numbered_commands 52))
           (lit "ls") 50); try reflexivity.
  - apply (bool_decide_unpack _). vm_compute. exact I.
  - apply (bool_decide_unpack _). vm_compute. exact I.
  - unfold history_wf. vm_compute. split_and!; (done || lia || discriminate).
  - vm_compute. lia.
  - right. vm_compute. discriminate.
Defined.

(** C2 as stated fails for a command that does not fit a slot: it is stored
    cut to 255 characters, the cut entry differs from the command, and the
    second of two consecutive additions is stored as well. *)
Lemma long_command_is_added_twice :
  let x := replicate 256 "a"%char in
  let st2 := shell_history_add (shell_history_add (shell_init_state 1) x) x in
  history_count st2 = 2
  ∧ shell_history_get st2 0 = Some (replicate 255 "a"%char)
  ∧ shell_history_get st2 1 = Some (replicate 255 "a"%char)
  ∧ shell_history_get st2 0 ≠ Some x.
Proof.
  split_and!; [vm_compute; reflexivity..|].
  intros Heq. apply (f_equal (fmap (length (A:=ascii)))) in Heq.
  vm_compute in Heq. done.
Qed.

(** ** The line splitter *)

Lemma eqb_NUL_false ch : ch ≠ NUL → (ch =? NUL)%char = false.
Proof. intros. by apply Ascii.eqb_neq. Qed.

Lemma c_str_app_nul s junk : nonul s → c_str (s ++ NUL :: junk) = s.
Proof.
  induction 1 as [|ch s Hch _ IH]; simpl; [done|].
  by rewrite eqb_NUL_false, IH.
Qed.

Lemma c_str_nonul m : nonul (c_str m).
Proof.
  induction m as [|ch m IH]; simpl; [constructor|].
  destruct (ch =? NUL)%char eqn:Hch; [constructor|].
  constructor; [by apply Ascii.eqb_neq|done].
Qed.

(** Memory that ends in a NUL holds its string, a NUL and a remainder. *)
Lemma c_str_split m : ∃ junk, m ++ [NUL] = c_str m ++ NUL :: junk.
Proof.
  induction m as [|ch m [junk IH]]; simpl; [by exists []|].
  destruct (ch =? NUL)%char eqn:Hch.
  - apply Ascii.eqb_eq in Hch as ->. by exists (m ++ [NUL]).
  - exists junk. by rewrite IH.
Qed.

Lemma c_str_length m : (length (c_str m) ≤ length m)%nat.
Proof.
  induction m as [|ch m IH]; simpl; [done|].
  destruct (ch =? NUL)%char; simpl; lia.
Qed.

Lemma count_blanks_app_nul s junk :
  count_blanks (s ++ NUL :: junk) = count_blanks s.
Proof. induction s as [|ch s IH]; simpl; [done|]. by rewrite IH. Qed.

Lemma count_blanks_le s : (count_blanks s ≤ length s)%nat.
Proof. induction s as [|ch s IH]; simpl; [done|]. destruct (is_blank ch); simpl; lia. Qed.

(** Skipping blanks between tokens does not change what is lexed, and stops
    at the end of the line or at a character that is not a blank. *)
Lemma spec_lex_skip_blanks s q qc :
  spec_lex s None q qc = spec_lex (drop (count_blanks s) s) None q qc.
Proof.
  induction s as [|ch s IH]; simpl; [done|].
  destruct (is_blank ch) eqn:Hb; simpl; [done|]. by rewrite Hb.
Qed.

Lemma drop_count_blanks s ch r :
  drop (count_blanks s) s = ch :: r → is_blank ch = false.
Proof.
  induction s as [|a s IH]; simpl; [done|].
  destruct (is_blank a) eqn:Hb; simpl; [done|]. by intros [= -> _].
Qed.

Lemma peek_layout pre rest junk :
  peek (pre ++ rest ++ NUL :: junk) (length pre)
  = match rest with [] => NUL | ch :: _ => ch end.
Proof.
  unfold peek. rewrite lookup_app_r by lia.
  rewrite Nat.sub_diag. by destruct rest.
Qed.

Lemma peek_layout_next pre ch rest junk :
  peek (pre ++ (ch :: rest) ++ NUL :: junk) (S (length pre))
  = match rest with [] => NUL | d :: _ => d end.
Proof.
  unfold peek. rewrite lookup_app_r by lia.
  replace (S (length pre) - length pre)%nat with 1%nat by lia.
  by destruct rest.
Qed.

(** Squeezing out the character at [p] moves the rest of the string, with
    its terminator, one place down; the old terminator stays behind. *)
Lemma squeeze_layout pre ch rest junk :
  nonul (ch :: rest) →
  squeeze (pre ++ (ch :: rest) ++ NUL :: junk) (length pre)
  = pre ++ rest ++ NUL :: NUL :: junk.
Proof.
  intros Hn. unfold squeeze, memmove, strlen_at.
  rewrite drop_app_length, c_str_app_nul by done.
  rewrite take_app_length. f_equal.
  rewrite (drop_app_ge pre) by lia.
  replace (S (length pre) - length pre)%nat with 1%nat by lia.
  rewrite (drop_app_ge pre) by lia.
  replace (length pre + length (ch :: rest) - length pre)%nat
    with (length (ch :: rest)) by lia.
  rewrite drop_app_length. cbn [drop app length]. rewrite drop_0.
  rewrite (take_app_ge rest) by lia.
  replace (S (length rest) - length rest)%nat with 1%nat by lia.
  cbn [take]. by rewrite <- app_assoc.
Qed.

(** The inner loop, from inside a token: the memory holds the part [t] of
    the token collected so far at the token's start, then the rest of the
    line.  The loop returns with the whole token collected in place, and the
    token and what follows it are those of the one-pass lexer. *)
Lemma scan_token_spec (n : nat) : ∀ rest fuel s pre t junk,
  (length rest ≤ n)%nat → (length rest < fuel)%nat →
  nonul rest → nonul t →
  buf s = pre ++ t ++ rest ++ NUL :: junk →
  p s = (length pre + length t)%nat →
  ∃ s' t' rest' junk',
    scan_token fuel s = Some s'
    ∧ buf s' = pre ++ t' ++ rest' ++ NUL :: junk'
    ∧ p s' = (length pre + length t')%nat
    ∧ nonul rest' ∧ nonul t'
    ∧ (length rest' ≤ length rest)%nat
    ∧ length (buf s') = length (buf s)
    ∧ argc s' = argc s ∧ argv s' = argv s
    ∧ (rest' ≠ [] → in_quote s' = false)
    ∧ spec_lex rest (Some t) (in_quote s) (quote_char s)
      = match rest' with
        | [] => [t']
        | _ :: r => t' :: spec_lex r None false (quote_char s')
        end.
Proof.
  induction n as [n IH] using lt_wf_ind.
  intros rest fuel s pre t junk Hn Hfuel Hrest Ht Hbuf Hp.
  destruct fuel as [|fuel]; [lia|].
  assert (∀ x, pre ++ t ++ x = (pre ++ t) ++ x) as Hassoc
    by (intros; by rewrite app_assoc).
  assert (length (pre ++ t) = p s) as Hlen by (rewrite length_app; lia).
  assert (peek (buf s) (p s) = match rest with [] => NUL | ch :: _ => ch end)
    as Hpeek by (rewrite Hbuf, Hassoc, <- Hlen; apply peek_layout).
  cbn [scan_token]. rewrite Hpeek.
  destruct rest as [|ch r].
  { (* end of the line *)
    rewrite Ascii.eqb_refl. exists s, t, [], junk.
    split_and!; try done. }
  pose proof Hrest as [Hch Hr]%Forall_cons.
  rewrite (eqb_NUL_false ch) by done.
  assert (peek (buf s) (S (p s)) = match r with [] => NUL | d :: _ => d end)
    as Hnext by (rewrite Hbuf, Hassoc, <- Hlen; apply peek_layout_next).
  assert (squeeze (buf s) (p s) = pre ++ t ++ r ++ NUL :: NUL :: junk) as Hsq.
  { rewrite Hbuf, !Hassoc, <- Hlen. by apply squeeze_layout. }
  assert (length (squeeze (buf s) (p s)) = length (buf s)) as Hsqlen.
  { rewrite Hsq, Hbuf. rewrite !length_app. cbn [length]. lia. }
  (* every branch that goes round the loop again *)
  assert (∀ s1 t1 r1 junk1,
            buf s1 = pre ++ t1 ++ r1 ++ NUL :: junk1 →
            p s1 = (length pre + length t1)%nat →
            nonul r1 → nonul t1 → (length r1 < length (ch :: r))%nat →
            length (buf s1) = length (buf s) →
            argc s1 = argc s → argv s1 = argv s →
            spec_lex (ch :: r) (Some t) (in_quote s) (quote_char s)
            = spec_lex r1 (Some t1) (in_quote s1) (quote_char s1) →
            ∃ s' t' rest' junk',
              scan_token fuel s1 = Some s'
              ∧ buf s' = pre ++ t' ++ rest' ++ NUL :: junk'
              ∧ p s' = (length pre + length t')%nat
              ∧ nonul rest' ∧ nonul t'
              ∧ (length rest' ≤ length (ch :: r))%nat
              ∧ length (buf s') = length (buf s)
              ∧ argc s' = argc s ∧ argv s' = argv s
              ∧ (rest' ≠ [] → in_quote s' = false)
              ∧ spec_lex (ch :: r) (Some t) (in_quote s) (quote_char s)
                = match rest' with
                  | [] => [t']
                  | _ :: r => t' :: spec_lex r None false (quote_char s')
                  end) as Hround.
  { intros s1 t1 r1 junk1 Hb1 Hp1 Hr1 Ht1 Hl1 Hlen1 Hc1 Hv1 Hlex1.
    destruct (IH (length r1) ltac:(cbn [length] in *; lia) r1 fuel s1 pre t1 junk1)
      as (s' & t' & rest' & junk' & Hs & Hb' & Hp' & Hnr & Hnt & Hle & Hbl
          & Hc & Hv & Hq & Hlex); [done|cbn [length] in *; lia|done..|].
    exists s', t', rest', junk'.
    split_and!; try done; try congruence. lia. }
  assert (∀ x : ascii, t ++ x :: r = (t ++ [x]) ++ r) as Hsnoc
    by (intros; by rewrite <- app_assoc).
  destruct (ch =? "\")%char eqn:Hbs.
  - (* a backslash *)
    rewrite Hnext. destruct r as [|d r'].
    + (* at the end of the line: it stays *)
      apply Ascii.eqb_eq in Hbs as ->. rewrite Ascii.eqb_refl.
      replace (is_quote "\") with false by done.
      replace (is_blank "\") with false by done.
      rewrite !andb_false_r. cbn [negb andb].
      apply (Hround _ (t ++ ["\"%char]) [] junk); cbn; try done.
      * by rewrite Hbuf, <- !app_assoc.
      * rewrite length_app. cbn. lia.
      * apply Forall_app. split; [done|]. by repeat constructor.
      * lia.
    + (* before a character: the character is kept in its place *)
      pose proof Hr as [Hd Hr']%Forall_cons.
      rewrite (eqb_NUL_false d) by done. cbn [negb andb].
      apply (Hround _ (t ++ [d]) r' (NUL :: junk)); cbn; try done.
      * by rewrite Hsq, <- !app_assoc.
      * rewrite length_app. cbn. lia.
      * apply Forall_app. split; [done|]. by repeat constructor.
      * lia.
      * by rewrite Hbs.
  - cbn [andb].
    destruct (is_quote ch && negb (in_quote s)) eqn:Hopen;
      [|destruct (is_quote ch && (ch =? quote_char s)%char) eqn:Hclose;
        [|destruct (negb (in_quote s) && is_blank ch) eqn:Hend]].
    + (* an opening quote is squeezed out *)
      apply (Hround _ t r (NUL :: junk)); cbn; try done.
      * lia.
      * by rewrite Hbs, Hopen.
    + (* the closing quote is squeezed out *)
      apply (Hround _ t r (NUL :: junk)); cbn; try done.
      * lia.
      * by rewrite Hbs, Hopen, Hclose.
    + (* a blank outside quotes ends the token *)
      apply andb_true_iff in Hend as [Hq Hb]. apply negb_true_iff in Hq.
      exists s, t, (ch :: r), junk. split_and!; try done.
      cbn [spec_lex]. by rewrite Hbs, Hopen, Hclose, Hq, Hb.
    + (* any other character joins the token *)
      apply (Hround _ (t ++ [ch]) r junk); cbn; try done.
      * by rewrite Hbuf, <- !app_assoc.
      * rewrite length_app. cbn. lia.
      * apply Forall_app. split; [done|]. by repeat constructor.
      * lia.
      * by rewrite Hbs, Hopen, Hclose, Hend.
Qed.

Lemma stored_string_at m off tok : stored m off tok → string_at m off = tok.
Proof.
  intros (pre & post & -> & <- & Hn). unfold string_at.
  rewrite drop_app_length. by apply c_str_app_nul.
Qed.

Lemma stored_app m x off tok : stored m off tok → stored (m ++ x) off tok.
Proof.
  intros (pre & post & -> & <- & Hn). exists pre, (post ++ x).
  split_and!; [|done..]. by rewrite <- !app_assoc.
Qed.

Lemma argv_holds_snoc a offs off :
  argv_holds a offs →
  argv_holds (<[Z.of_nat (length offs) := Some off]> a) (offs ++ [off]).
Proof.
  intros Ha j. destruct (decide (j = Z.of_nat (length offs))) as [->|Hne].
  - rewrite lookup_insert_eq, bool_decide_eq_true_2 by lia.
    rewrite Nat2Z.id, lookup_app_r, Nat.sub_diag by lia. done.
  - rewrite lookup_insert_ne, Ha by done. case_bool_decide; [|done].
    destruct (decide (Z.to_nat j < length offs)%nat).
    + by rewrite lookup_app_l by lia.
    + rewrite !lookup_ge_None_2; [done| |lia].
      rewrite length_app. cbn. lia.
Qed.

Lemma spec_lex_token_start ch r q qc :
  is_blank ch = false → (ch =? "#")%char = false →
  spec_lex (ch :: r) None q qc = spec_lex (ch :: r) (Some []) q qc.
Proof. intros Hb Hh. cbn [spec_lex]. by rewrite Hb, Hh. Qed.

Lemma parse_loop_stop fuel max_args s :
  peek (buf s) (p s) = NUL → parse_loop (S fuel) max_args s = Some s.
Proof. intros Hp. cbn [parse_loop]. by rewrite Hp, Ascii.eqb_refl. Qed.

(** The outer loop: with the tokens [toks] already delivered and [rest]
    still to be read, the loop delivers the tokens of the one-pass lexer, up
    to the [max_args - 1] the vector has room for. *)
Lemma parse_loop_spec max_args (fuel : nat) :
  ∀ s done rest junk offs toks,
  (length rest < fuel)%nat → nonul rest →
  buf s = done ++ rest ++ NUL :: junk → p s = length done →
  in_quote s = false ∨ rest = [] →
  argc s = Z.of_nat (length toks) → argv_holds (argv s) offs →
  Forall2 (stored done) offs toks →
  (length toks ≤ Z.to_nat (max_args - 1))%nat →
  ∃ s' offs' toks',
    parse_loop fuel max_args s = Some s'
    ∧ length (buf s') = length (buf s)
    ∧ argc s' = Z.of_nat (length toks')
    ∧ argv_holds (argv s') offs'
    ∧ Forall2 (stored (buf s')) offs' toks'
    ∧ toks' = take (Z.to_nat (max_args - 1))
                   (toks ++ spec_lex rest None false (quote_char s)).
Proof.
  induction fuel as [|fuel IH];
    intros s done rest junk offs toks Hfuel Hrest Hbuf Hp Hq Hargc Hargv
           Hstored Hroom; [lia|].
  assert (peek (buf s) (p s) = match rest with [] => NUL | ch :: _ => ch end)
    as Hpeek by (rewrite Hbuf, Hp; apply peek_layout).
  assert (Forall2 (stored (buf s)) offs toks) as Hstored'.
  { rewrite Hbuf. eapply Forall2_impl; [done|]. intros. by apply stored_app. }
  (* the ways out of the loop that deliver nothing more *)
  assert (∀ s1, buf s1 = buf s → argc s1 = argc s → argv s1 = argv s →
                (spec_lex rest None false (quote_char s) = []
                 ∨ max_args - 1 ≤ argc s) →
                ∃ s' offs' toks',
                  Some s1 = Some s'
                  ∧ length (buf s') = length (buf s)
                  ∧ argc s' = Z.of_nat (length toks')
                  ∧ argv_holds (argv s') offs'
                  ∧ Forall2 (stored (buf s')) offs' toks'
                  ∧ toks' = take (Z.to_nat (max_args - 1))
                                 (toks ++ spec_lex rest None false (quote_char s)))
    as Hout.
  { intros s1 Hb1 Hc1 Hv1 Hwhy. exists s1, offs, toks.
    rewrite Hb1, Hc1, Hv1. split_and!; try done.
    destruct Hwhy as [->|Hfull].
    - by rewrite app_nil_r, take_ge.
    - replace (Z.to_nat (max_args - 1)) with (length toks) by lia.
      by rewrite take_app_length. }
  cbn [parse_loop]. rewrite Hpeek.
  destruct rest as [|ch r].
  { rewrite Ascii.eqb_refl. cbn [orb]. apply Hout; auto. }
  pose proof Hrest as [Hch Hr]%Forall_cons.
  rewrite (eqb_NUL_false ch) by done. cbn [orb].
  destruct (argc s <? max_args - 1) eqn:Hmore; cbn [negb];
    [|apply Hout; auto; right; lia].
  destruct Hq as [Hq|?]; [|done].
  (* the blanks before the token *)
  set (k := count_blanks (ch :: r)).
  assert (skip_blanks_at (buf s) (p s) = (length done + k)%nat) as Hskip.
  { unfold skip_blanks_at. rewrite Hbuf, Hp, drop_app_length.
    by rewrite count_blanks_app_nul. }
  pose proof (count_blanks_le (ch :: r)) as Hk. fold k in Hk.
  set (done1 := done ++ take k (ch :: r)).
  set (rest1 := drop k (ch :: r)).
  assert (buf s = done1 ++ rest1 ++ NUL :: junk) as Hbuf1.
  { rewrite Hbuf. unfold done1, rest1.
    by rewrite <- (app_assoc done), (app_assoc (take k _)), take_drop. }
  assert (length done1 = (length done + k)%nat) as Hdone1.
  { unfold done1. rewrite length_app, length_take. lia. }
  assert (nonul rest1) as Hrest1 by (by apply Forall_drop).
  assert (spec_lex (ch :: r) None false (quote_char s)
          = spec_lex rest1 None false (quote_char s)) as Hlex1
    by apply spec_lex_skip_blanks.
  cbn [with_buf_p buf p in_quote quote_char argc argv].
  assert (peek (buf s) (length done1)
          = match rest1 with [] => NUL | c1 :: _ => c1 end) as Hpeek1
    by (rewrite Hbuf1; apply peek_layout).
  rewrite Hskip, <- Hdone1, !Hpeek1.
  destruct rest1 as [|c1 r1] eqn:Hrest1eq.
  { (* only blanks were left *)
    rewrite Ascii.eqb_refl. apply Hout; try done. left. by rewrite Hlex1. }
  pose proof Hrest1 as [Hc1 Hr1]%Forall_cons.
  pose proof (drop_count_blanks _ _ _ Hrest1eq) as Hnb.
  rewrite (eqb_NUL_false c1) by done.
  destruct (c1 =? "#")%char eqn:Hhash.
  { (* a comment *)
    rewrite Hq. cbn [negb andb]. apply Hout; try done. left.
    rewrite Hlex1. cbn [spec_lex]. by rewrite Hnb, Hhash. }
  cbn [andb].
  (* the token *)
  match goal with |- context [scan_token _ ?x] => set (s2 := x) end.
  assert (length (c1 :: r1) ≤ length (ch :: r))%nat as Hshort.
  { rewrite <- Hrest1eq. unfold rest1. rewrite length_drop. lia. }
  destruct (scan_token_spec (length (c1 :: r1)) (c1 :: r1) (S fuel) s2 done1 []
              junk) as (s3 & t' & rest' & junk' & Hs3 & Hb3 & Hp3 & Hnr' & Hnt'
                        & Hle & Hbl & Hc3 & Hv3 & Hq3 & Hlex3);
    [done|lia|done|constructor|done|cbn; lia|].
  rewrite Hs3.
  assert (toks ++ spec_lex (ch :: r) None false (quote_char s)
          = (toks ++ [t'])
            ++ match rest' with
               | [] => []
               | _ :: r' => spec_lex r' None false (quote_char s3)
               end) as Hlex.
  { rewrite Hlex1, spec_lex_token_start by done.
    change (quote_char s) with (quote_char s2).
    replace false with (in_quote s2) at 1 by done.
    rewrite Hlex3, <- app_assoc. by destruct rest'. }
  assert (argv_holds (argv s3) (offs ++ [length done1])) as Hargv3.
  { rewrite Hv3. cbn. rewrite Hargc, <- (Forall2_length _ _ _ Hstored).
    by apply argv_holds_snoc. }
  assert (argc s3 = Z.of_nat (length (toks ++ [t']))) as Hargc3.
  { rewrite Hc3. cbn. rewrite Hargc, length_app. cbn. lia. }
  assert (length (toks ++ [t']) ≤ Z.to_nat (max_args - 1))%nat as Hroom3.
  { rewrite length_app. cbn. lia. }
  assert (peek (buf s3) (p s3) = match rest' with [] => NUL | b :: _ => b end)
    as Hpeek3.
  { rewrite Hb3, Hp3, app_assoc, <- length_app. apply peek_layout. }
  rewrite Hpeek3.
  destruct rest' as [|b r'].
  - (* the token ends the line *)
    rewrite Ascii.eqb_refl.
    destruct fuel as [|fuel]; [cbn [length] in *; lia|].
    rewrite parse_loop_stop by (by rewrite Hpeek3).
    exists s3, (offs ++ [length done1]), (toks ++ [t']).
    split_and!; try done.
    + apply Forall2_app.
      * rewrite Hb3. eapply Forall2_impl; [exact Hstored|]. intros off tok Hst.
        unfold done1. rewrite <- app_assoc. by apply stored_app.
      * repeat constructor. exists done1, junk'. by rewrite Hb3.
    + by rewrite Hlex, app_nil_r, take_ge.
  - (* the token is cut off where it ends *)
    pose proof Hnr' as [Hb Hr']%Forall_cons.
    rewrite (eqb_NUL_false b) by done.
    match goal with |- context [parse_loop _ _ ?x] => set (s4 := x) end.
    destruct (IH s4 (done1 ++ t' ++ [NUL]) r' junk' (offs ++ [length done1])
                (toks ++ [t']))
      as (s' & offs' & toks' & Hs' & Hbl' & Hc' & Hv' & Hst' & Htoks');
      try done.
    + cbn [length] in *. lia.
    + cbn. rewrite Hb3, Hp3.
      rewrite (app_assoc done1 t'), <- length_app.
      rewrite insert_app_r_alt, Nat.sub_diag by lia. cbn.
      by rewrite <- !app_assoc.
    + cbn. rewrite Hp3, !length_app. cbn. lia.
    + left. cbn. apply Hq3. done.
    + apply Forall2_app.
      * eapply Forall2_impl; [exact Hstored|]. intros off tok Hst.
        unfold done1. rewrite <- app_assoc. by apply stored_app.
      * repeat constructor. by exists done1, [].
    + exists s', offs', toks'. split_and!; try done.
      * rewrite Hbl'. cbn. rewrite length_insert. by rewrite Hbl.
      * by rewrite Htoks', Hlex.
Qed.

(** What [shell_parse_line] returns, for every line and every bound. *)
Lemma shell_parse_line_spec line max_args :
  ∃ s offs,
    shell_parse_line line max_args = Some s
    ∧ length (buf s) = S (length line)
    ∧ argc s = Z.of_nat (length offs)
    ∧ Forall2 (stored (buf s)) offs
        (take (Z.to_nat (max_args - 1)) (spec_split (c_str line)))
    ∧ ∀ j : Z, argv s !! j
               = if bool_decide (j = argc s) then Some None
                 else if bool_decide (0 ≤ j) then Some <$> offs !! Z.to_nat j
                 else None.
Proof.
  destruct (c_str_split line) as [junk Hjunk].
  pose proof (c_str_length line) as Hlen.
  set (s0 := {| buf := line ++ [NUL]; p := 0; in_quote := false;
                quote_char := NUL; argc := 0; argv := ∅ |}).
  destruct (parse_loop_spec max_args (S (length line)) s0 [] (c_str line) junk
              [] [])
    as (s' & offs & toks & Hs' & Hbl & Hc & Hv & Hst & Htoks);
    [lia|apply c_str_nonul|exact Hjunk|done|by left|done| |constructor
    |cbn; lia|].
  - intros j. cbn. rewrite lookup_empty. by case_bool_decide.
  - unfold shell_parse_line. fold s0. rewrite Hs'. cbn.
    eexists _, offs. split; [reflexivity|]. cbn.
    pose proof (Forall2_length _ _ _ Hst) as Hlo.
    split_and!.
    + rewrite Hbl. cbn. rewrite length_app. cbn. lia.
    + by rewrite Hc, Hlo.
    + by subst toks.
    + intros j. case_bool_decide as Hj.
      * subst j. by rewrite lookup_insert_eq.
      * by rewrite lookup_insert_ne, Hv.
Qed.

Lemma arg_strings_spec s offs toks :
  argc s = Z.of_nat (length offs) →
  Forall2 (stored (buf s)) offs toks →
  (∀ j : Z, argv s !! j
            = if bool_decide (j = argc s) then Some None
              else if bool_decide (0 ≤ j) then Some <$> offs !! Z.to_nat j
              else None) →
  arg_strings s = Some <$> toks.
Proof.
  intros Hc Hst Hv. unfold arg_strings.
  pose proof (Forall2_length _ _ _ Hst) as Hlo.
  apply (list_eq_same_length _ _ (length toks)).
  { by rewrite length_fmap. }
  { rewrite length_fmap, length_seq. lia. }
  intros i x y Hi Hx Hy.
  rewrite list_lookup_fmap, lookup_seq_lt in Hx by lia.
  rewrite list_lookup_fmap in Hy.
  destruct (toks !! i) as [tok|] eqn:Htok; [|done].
  destruct (Forall2_lookup_r _ _ _ _ _ Hst Htok) as (off & Hoff & Hstored).
  cbn in Hx, Hy. simplify_eq.
  rewrite Hv, bool_decide_eq_false_2, bool_decide_eq_true_2 by lia.
  rewrite Nat2Z.id, Hoff. cbn. by rewrite (stored_string_at _ _ tok).
Qed.

Lemma omap_id_fmap_Some {A} (l : list A) : omap id (Some <$> l) = l.
Proof. induction l as [|x l IH]; cbn; [done|]. by rewrite IH. Qed.

(** [shell_execute] hands the dispatcher the tokens of the expanded line. *)
Lemma shell_execute_dispatches invoke (sh : shell_t) (line : cstring)
    (ch : ascii) (rest : cstring) :
  skip_blanks line = ch :: rest → (ch =? "#")%char = false →
  let sh1 := if interactive (shell_state sh)
             then with_state (shell_history_add (shell_state sh) line) sh
             else sh in
  let expanded := shell_expand sh1 (strncpy line (SHELL_MAX_LINE - 1))
                               (Z.of_nat SHELL_MAX_LINE) in
  shell_execute invoke sh line
  = shell_dispatch invoke sh1
      (take (Z.to_nat (SHELL_MAX_ARGS - 1)) (spec_split (c_str expanded))).
Proof.
  intros Hline Hhash sh1 expanded. unfold shell_execute.
  rewrite Hline, Hhash. fold sh1. fold expanded.
  destruct (shell_parse_line_spec expanded SHELL_MAX_ARGS)
    as (s & offs & Hs & _ & Hc & Hst & Hv).
  rewrite Hs. cbn [mbind option_bind].
  by rewrite (arg_strings_spec s offs _ Hc Hst Hv), omap_id_fmap_Some.
Qed.

(** The rules of the one-pass lexer, one by one. *)
Lemma spec_lex_rules (t r : cstring) (q : bool) (qc ch d : ascii) :
  spec_lex ("\"%char :: d :: r) (Some t) q qc = spec_lex r (Some (t ++ [d])) q qc
  ∧ (is_quote ch = true → spec_lex (ch :: r) (Some t) false qc = spec_lex r (Some t) true ch)
  ∧ (is_quote ch = true → spec_lex (ch :: r) (Some t) true ch = spec_lex r (Some t) false ch)
  ∧ (is_blank ch = true → spec_lex (ch :: r) (Some t) false qc = t :: spec_lex r None false qc)
  ∧ (is_blank ch = true →
     spec_lex (ch :: r) (Some t) true qc = spec_lex r (Some (t ++ [ch])) true qc).
Proof.
  split_and!; [done|..]; intros Hc; cbn [spec_lex].
  - destruct (ch =? "\")%char eqn:Hb;
      [by apply Ascii.eqb_eq in Hb as ->|]. by rewrite Hc.
  - destruct (ch =? "\")%char eqn:Hb;
      [by apply Ascii.eqb_eq in Hb as ->|].
    by rewrite Hc, Ascii.eqb_refl.
  - destruct (ch =? "\")%char eqn:Hb;
      [by apply Ascii.eqb_eq in Hb as ->|].
    replace (is_quote ch) with false; [by rewrite Hc|].
    unfold is_blank, is_quote in *.
    apply orb_true_iff in Hc as [->%Ascii.eqb_eq| ->%Ascii.eqb_eq]; done.
  - destruct (ch =? "\")%char eqn:Hb;
      [by apply Ascii.eqb_eq in Hb as ->|].
    replace (is_quote ch) with false; [done|].
    unfold is_blank, is_quote in *.
    apply orb_true_iff in Hc as [->%Ascii.eqb_eq| ->%Ascii.eqb_eq]; done.
Qed.

(** C7: the two lines of the specification split as it says, and for every
    line and every bound the strings delivered in [argv] are the first
    [max_args - 1] tokens of the one-pass lexer, in which a backslash
    escapes the next character, quotes group and are dropped, and a blank
    outside quotes ends the token. *)
Theorem split_honors_quotes_and_escapes :
  (∃ s, shell_parse_line (lit "a " ++ [dquote] ++ lit "b c" ++ [dquote] ++ lit " d")
          SHELL_MAX_ARGS = Some s
        ∧ arg_strings s = [Some (lit "a"); Some (lit "b c"); Some (lit "d")])
  ∧ (∃ s, shell_parse_line (lit "a\ b") SHELL_MAX_ARGS = Some s
          ∧ arg_strings s = [Some (lit "a b")])
  ∧ ∀ (line : cstring) (max_args : Z),
      ∃ s, shell_parse_line line max_args = Some s
           ∧ arg_strings s
             = Some <$> take (Z.to_nat (max_args - 1)) (spec_split (c_str line)).
Proof.
  split_and!.
  - eexists. split; vm_compute; reflexivity.
  - eexists. split; vm_compute; reflexivity.
  - intros line max_args.
    destruct (shell_parse_line_spec line max_args)
      as (s & offs & Hs & _ & Hc & Hst & Hv).
    exists s. split; [done|]. by eapply arg_strings_spec.
Qed.

(** C6, amended: for every line and every [max_args] of at least 1, the
    slots written are within [0, max_args), none lies above [argv[argc]],
    and [argv[argc]] holds NULL. *)
Theorem split_stays_within_argv (line : cstring) (max_args : Z) :
  1 ≤ max_args →
  ∃ s, shell_parse_line line max_args = Some s
       ∧ writes_within s max_args
       ∧ argv s !! argc s = Some None
       ∧ (∀ j : Z, is_Some (argv s !! j) → j ≤ argc s)
       ∧ 0 ≤ argc s < max_args.
Proof.
  intros Hmax.
  destruct (shell_parse_line_spec line max_args)
    as (s & offs & Hs & _ & Hc & Hst & Hv).
  pose proof (Forall2_length _ _ _ Hst) as Hlo. rewrite length_take in Hlo.
  assert (∀ j : Z, is_Some (argv s !! j) → 0 ≤ j ≤ argc s) as Hdom.
  { intros j [x Hx]. rewrite Hv in Hx.
    case_bool_decide; [lia|]. case_bool_decide; [|done].
    destruct (offs !! Z.to_nat j) eqn:Hj; [|done].
    apply lookup_lt_Some in Hj. lia. }
  exists s. split_and!; try done; try lia.
  - intros j Hj. specialize (Hdom j Hj). lia.
  - by rewrite Hv, bool_decide_eq_true_2.
  - intros j Hj. specialize (Hdom j Hj). lia.
Qed.

Lemma split_stays_within_argv_witness :
  ∃ s, shell_parse_line (lit "a b c d") 3 = Some s
       ∧ writes_within s 3
       ∧ argv s !! argc s = Some None
       ∧ (∀ j : Z, is_Some (argv s !! j) → j ≤ argc s)
       ∧ 0 ≤ argc s < 3.
Proof. apply (split_stays_within_argv (lit "a b c d") 3). lia. Defined.

(** C6 as stated fails for [max_args = 0]: the terminator is written to
    [argv[0]], a slot the caller did not provide. *)
Lemma split_writes_slot_zero_without_room :
  ∃ s, shell_parse_line (lit "ls -l") 0 = Some s
       ∧ argv s !! 0 = Some None
       ∧ ¬ writes_within s 0.
Proof.
  eexists. split; [vm_compute; reflexivity|].
  split; [vm_compute; reflexivity|].
  intros Hw. destruct (Hw 0); [|lia]. vm_compute. eauto.
Qed.

End ShellFacts.

(** * More on first-match search and on lists *)

Section ListFindMore.

Context {A : Type} (P : A → Prop) `{∀ x, Decision (P x)}.

Lemma list_find_insert_irrelevant (l : list A) i y :
  ¬ P y → (∀ x, l !! i = Some x → ¬ P x) →
  list_find P (<[i := y]> l) = list_find P l.
Proof.
  intros Hy Hx.
  destruct (list_find P l) as [[j z]|] eqn:Hfind.
  - apply list_find_insert_other; [done| |done].
    intros ->. apply list_find_Some in Hfind as (Hj & Hz & _). by eapply Hx.
  - by apply list_find_insert_none.
Qed.

Lemma list_find_snoc (l : list A) y :
  list_find P (l ++ [y])
  = match list_find P l with
    | Some r => Some r
    | None => if decide (P y) then Some (length l, y) else None
    end.
Proof.
  induction l as [|x l IH]; cbn.
  - by destruct (decide (P y)).
  - destruct (decide (P x)); [done|]. rewrite IH.
    destruct (list_find P l) as [[??]|]; [done|]. by destruct (decide (P y)).
Qed.

Lemma filter_insert_length (l : list A) i x y :
  l !! i = Some x →
  (length (filter P (<[i := y]> l)) + (if decide (P x) then 1 else 0)
   = length (filter P l) + (if decide (P y) then 1 else 0))%nat.
Proof.
  intros Hi. pose proof (lookup_lt_Some _ _ _ Hi) as Hlt.
  rewrite <- (take_drop_middle l i x Hi) at 2.
  rewrite insert_take_drop by done.
  rewrite !filter_app, !filter_cons, !length_app.
  destruct (decide (P x)), (decide (P y)); cbn [length]; lia.
Qed.

End ListFindMore.

Lemma last_drop_lt {A} (l : list A) n :
  (n < length l)%nat → last (drop n l) = last l.
Proof.
  intros Hn. rewrite !last_lookup, lookup_drop, length_drop. f_equal. lia.
Qed.

(** * Further properties of the script interpreter *)

Module ScriptProps.

Import Script ScriptViews.

#[local] Arguments strncpy : simpl never.
#[local] Arguments script_set_var : simpl never.
#[local] Arguments create_label : simpl never.
#[local] Arguments execute_line : simpl never.
#[local] Arguments script_execute : simpl never.

(** ** Wrap-around *)

Lemma wrap32_id z : - 2 ^ 31 ≤ z < 2 ^ 31 → wrap32 z = z.
Proof. intros. unfold wrap32. rewrite Z.mod_small; lia. Qed.

Lemma wrap32_add_l a b : wrap32 (wrap32 a + b) = wrap32 (a + b).
Proof.
  unfold wrap32.
  replace ((a + 2 ^ 31) `mod` 2 ^ 32 - 2 ^ 31 + b + 2 ^ 31)
    with ((a + 2 ^ 31) `mod` 2 ^ 32 + b) by lia.
  rewrite Zplus_mod_idemp_l. do 2 f_equal. lia.
Qed.

Lemma wrap32_mul_l a b : wrap32 (wrap32 a * b) = wrap32 (a * b).
Proof.
  unfold wrap32. f_equal.
  replace (((a + 2 ^ 31) `mod` 2 ^ 32 - 2 ^ 31) * b + 2 ^ 31)
    with ((a + 2 ^ 31) `mod` 2 ^ 32 * b + (2 ^ 31 - 2 ^ 31 * b)) by lia.
  rewrite <- Zplus_mod_idemp_l, Zmult_mod_idemp_l, Zplus_mod_idemp_l.
  f_equal. lia.
Qed.

(** ** Variables *)

(** What a call of [script_set_var] with a name that fits does to the
    table. *)
Lemma script_set_var_inv c nm t pv r c' :
  (length nm < SCRIPT_VAR_NAME_LEN)%nat →
  script_set_var c nm t (Some pv) = (r, c') →
  (r = SYSERR ∧ c' = c)
  ∨ ∃ i v0 v,
      (list_find (var_named nm) (vars c) = Some (i, v0)
       ∨ (list_find (var_named nm) (vars c) = None
          ∧ list_find var_free (vars c) = Some (i, v0)))
      ∧ var_named nm v ∧ readonly v = false
      ∧ vars c' = <[i := v]> (vars c)
      ∧ (t ≠ VAR_TYPE_UNDEFINED →
         r = OK ∧ var_type v = t ∧ var_val v = stored_value t pv).
Proof.
  intros Hlen. unfold script_set_var, create_var, find_var.
  destruct (list_find (var_named nm) (vars c)) as [[i v0]|] eqn:Hl; cbn.
  - pose proof Hl as (Hj & Hnamed & _)%list_find_Some. rewrite Hj.
    destruct (readonly v0) eqn:Hro; [intros [= <- <-]; by left|].
    intros Hres. right. destruct Hnamed as [Hd Hn].
    exists i, v0, (store_value v0 t
                     (if decide (t = VAR_TYPE_UNDEFINED) then var_val v0
                      else stored_value t pv)).
    destruct t; simplify_eq/=; split_and!; done || by left.
  - destruct (list_find var_free (vars c)) as [[i v0]|] eqn:Hfree;
      [|intros [= <- <-]; by left].
    pose proof Hfree as (Hi & Hv0 & _)%list_find_Some.
    cbn. rewrite list_lookup_insert_eq by (by eapply lookup_lt_Some). cbn.
    assert (strncpy nm (SCRIPT_VAR_NAME_LEN - 1) = nm) as Hnm
      by (apply strncpy_short; unfold SCRIPT_VAR_NAME_LEN in *; lia).
    intros Hres. right.
    exists i, v0, (store_value (fresh_var nm v0) t
                     (if decide (t = VAR_TYPE_UNDEFINED) then var_val v0
                      else stored_value t pv)).
    destruct t; simplify_eq/=; rewrite list_insert_insert_eq;
      split_and!; done || by right.
Qed.

Lemma script_get_var_found c nm i v :
  list_find (var_named nm) (vars c) = Some (i, v) →
  script_get_var c nm
  = match var_type v with
    | VAR_TYPE_UNDEFINED => (SYSERR, Some VAR_TYPE_UNDEFINED, None)
    | t => (OK, Some t, Some (var_val v))
    end.
Proof.
  intros Hfind. unfold script_get_var, find_var. rewrite Hfind. cbn.
  apply list_find_Some in Hfind as (-> & _). done.
Qed.

Lemma script_set_var_found c nm t pv c' :
  (length nm < SCRIPT_VAR_NAME_LEN)%nat →
  script_set_var c nm t (Some pv) = (OK, c') →
  ∃ i v, list_find (var_named nm) (vars c') = Some (i, v)
         ∧ var_type v = t ∧ var_val v = stored_value t pv.
Proof.
  intros Hlen Hset.
  destruct (script_set_var_inv _ _ _ _ _ _ Hlen Hset)
    as [[? _]|(i & v0 & v & Hwhy & Hv & Hro & Hvars & Hok)]; [done|].
  assert (t ≠ VAR_TYPE_UNDEFINED) as Ht.
  { intros ->. unfold script_set_var in Hset.
    repeat (case_match; simplify_eq/=). }
  destruct (Hok Ht) as (_ & Hty & Hval).
  exists i, v. split; [|done].
  rewrite Hvars. destruct Hwhy as [Hnamed|[Hnone Hfree]].
  - by eapply list_find_insert_same.
  - by eapply list_find_insert_first.
Qed.

(** X1: a variable that was set with success reads back with the type it
    was given and the value stored for it: the integer, the float, the
    array address, or the string cut to 255 characters. *)
Theorem set_var_get_var (c : script_context_t) (nm : cstring)
    (t : var_type_t) (pv : pointee) (c' : script_context_t) :
  (length nm < SCRIPT_VAR_NAME_LEN)%nat →
  script_set_var c nm t (Some pv) = (OK, c') →
  script_get_var c' nm = (OK, Some t, Some (stored_value t pv)).
Proof.
  intros Hlen Hset.
  destruct (script_set_var_found _ _ _ _ _ Hlen Hset)
    as (i & v & Hfind & Hty & Hval).
  rewrite (script_get_var_found _ _ _ _ Hfind), Hty, Hval.
  destruct t; try done.
  unfold script_set_var in Hset. repeat (case_match; simplify_eq/=).
Qed.

Lemma set_var_get_var_witness :
  let c := script_reset_context zero_context in
  let c' := (script_set_var c (lit "x") VAR_TYPE_INT (Some (int_ptr 5))).2 in
  script_get_var c' (lit "x") = (OK, Some VAR_TYPE_INT, Some (val_int 5)).
Proof.
  apply (set_var_get_var (script_reset_context zero_context) (lit "x")
           VAR_TYPE_INT (int_ptr 5)).
  - vm_compute. lia.
  - vm_compute. reflexivity.
Defined.

(** X2: setting a variable, with whatever outcome, leaves every variable
    of another name as it reads. *)
Theorem set_var_other (c : script_context_t) (nm : cstring) (t : var_type_t)
    (value : option pointee) (nm' : cstring) :
  (length nm < SCRIPT_VAR_NAME_LEN)%nat → nm' ≠ nm →
  script_get_var (script_set_var c nm t value).2 nm' = script_get_var c nm'.
Proof.
  intros Hlen Hne. destruct value as [pv|]; [|done].
  destruct (script_set_var c nm t (Some pv)) as [r c'] eqn:Hset.
  destruct (script_set_var_inv _ _ _ _ _ _ Hlen Hset)
    as [[_ ->]|(i & v0 & v & Hwhy & [_ Hv] & _ & Hvars & _)]; [done|].
  cbn. unfold script_get_var, find_var. rewrite Hvars.
  assert (∀ x, vars c !! i = Some x → ¬ var_named nm' x) as Hold.
  { intros x Hx [Hd Hn].
    destruct Hwhy as [(Hi & [_ Hn0] & _)%list_find_Some
                     |[_ (Hi & Hf & _)%list_find_Some]]; simplify_eq.
    unfold var_free in Hf. congruence. }
  rewrite list_find_insert_irrelevant; [|intros [_ ?]; congruence|done].
  destruct (list_find (var_named nm') (vars c)) as [[j w]|] eqn:Hfind; [|done].
  cbn. apply list_find_Some in Hfind as (Hj & Hw & _).
  rewrite list_lookup_insert_ne; [done|].
  intros ->. by eapply Hold.
Qed.

Lemma set_var_other_witness :
  let c := (script_set_var (script_reset_context zero_context) (lit "y")
              VAR_TYPE_INT (Some (int_ptr 7))).2 in
  script_get_var
    (script_set_var c (lit "x") VAR_TYPE_STRING (Some (str_ptr (lit "a")))).2
    (lit "y")
  = script_get_var c (lit "y").
Proof.
  apply (set_var_other
           (script_set_var (script_reset_context zero_context) (lit "y")
              VAR_TYPE_INT (Some (int_ptr 7))).2
           (lit "x") VAR_TYPE_STRING (Some (str_ptr (lit "a"))) (lit "y")).
  - vm_compute. lia.
  - apply (bool_decide_unpack _). vm_compute. exact I.
Defined.

(** X3: a variable that did not exist, was set and is then unset does not
    exist any more, cannot be read, and every variable of another name
    reads as it did before the two calls. *)
Theorem set_unset_var (c : script_context_t) (nm : cstring) (t : var_type_t)
    (pv : pointee) (c1 : script_context_t) :
  (length nm < SCRIPT_VAR_NAME_LEN)%nat →
  find_var c nm = None →
  script_set_var c nm t (Some pv) = (OK, c1) →
  ∃ c2, script_unset_var c1 nm = (OK, c2)
        ∧ script_var_exists c2 nm = false
        ∧ script_get_var c2 nm = (SYSERR, None, None)
        ∧ ∀ nm', nm' ≠ nm → script_get_var c2 nm' = script_get_var c nm'.
Proof.
  intros Hlen Hnone Hset.
  assert (list_find (var_named nm) (vars c) = None) as Hnone'.
  { unfold find_var in Hnone. by destruct (list_find _ _). }
  destruct (script_set_var_inv _ _ _ _ _ _ Hlen Hset)
    as [[? _]|(i & v0 & v & Hwhy & Hv & Hro & Hvars & _)]; [done|].
  destruct Hwhy as [Hfound|[_ Hfree]]; [congruence|].
  pose proof Hfree as (Hi & Hv0 & _)%list_find_Some.
  assert (list_find (var_named nm) (vars c1) = Some (i, v)) as Hfind
    by (rewrite Hvars; by eapply list_find_insert_first).
  unfold script_unset_var, find_var. rewrite Hfind. cbn.
  apply list_find_Some in Hfind as (Hi1 & _). rewrite Hi1, Hro.
  eexists. split; [reflexivity|].
  assert (list_find (var_named nm)
            (<[i := undefine_var v]> (vars c1)) = None) as Hgone.
  { rewrite Hvars, list_insert_insert_eq.
    apply list_find_insert_none; [done|]. by intros [? _]. }
  split_and!.
  - unfold script_var_exists, find_var. cbn. rewrite Hgone. done.
  - unfold script_get_var, find_var. cbn. by rewrite Hgone.
  - intros nm' Hne. unfold script_get_var, find_var. cbn.
    rewrite Hvars, list_insert_insert_eq.
    assert (∀ x, vars c !! i = Some x → ¬ var_named nm' x) as Hold.
    { intros x Hx [Hd _]. unfold var_free in Hv0. simplify_eq. congruence. }
    rewrite list_find_insert_irrelevant; [|by intros [? _]|done].
    destruct (list_find (var_named nm') (vars c)) as [[j w]|] eqn:Hf; [|done].
    cbn. apply list_find_Some in Hf as (Hj & Hw & _).
    rewrite list_lookup_insert_ne; [done|]. intros ->. by eapply Hold.
Qed.

Lemma set_unset_var_witness :
  let c := script_reset_context zero_context in
  let c1 := (script_set_var c (lit "x") VAR_TYPE_INT (Some (int_ptr 5))).2 in
  ∃ c2, script_unset_var c1 (lit "x") = (OK, c2)
        ∧ script_var_exists c2 (lit "x") = false
        ∧ script_get_var c2 (lit "x") = (SYSERR, None, None)
        ∧ ∀ nm', nm' ≠ lit "x" → script_get_var c2 nm' = script_get_var c nm'.
Proof.
  apply (set_unset_var (script_reset_context zero_context) (lit "x")
           VAR_TYPE_INT (int_ptr 5)).
  - vm_compute. lia.
  - vm_compute. reflexivity.
  - vm_compute. reflexivity.
Defined.

(** ** What the operations keep true of every variable slot *)

Section VarSlots.

(** A property of slots that resetting, claiming, storing into and
    releasing a slot all establish or keep. *)
Variable Q : script_var_t → Prop.
Hypothesis Q_reset : ∀ v, Q (reset_var v).
Hypothesis Q_fresh : ∀ nm v, Q (fresh_var nm v).
Hypothesis Q_store : ∀ v t x, Q v → Q (store_value v t x).
Hypothesis Q_undefine : ∀ v, Q v → Q (undefine_var v).

Local Abbreviation all c := (Forall Q (vars c)).

Lemma script_set_var_slots c nm t v : all c → all (script_set_var c nm t v).2.
Proof using Q_fresh Q_store.
  intros Hc. unfold script_set_var, create_var. destruct v as [pv|]; [|done].
  destruct (find_var c nm) as [i|] eqn:Hfind.
  - destruct (vars c !! i) as [w|] eqn:Hw; [|done].
    destruct (readonly w); [done|].
    assert (Q w) by (by eapply Forall_lookup_1).
    destruct t; cbn; apply Forall_insert; auto.
  - destruct (list_find var_free (vars c)) as [[i w]|] eqn:Hfree; [|done].
    apply list_find_Some in Hfree as (Hi & _). cbn.
    rewrite list_lookup_insert_eq by (by eapply lookup_lt_Some). cbn.
    destruct t; cbn; rewrite list_insert_insert_eq; apply Forall_insert; auto.
Qed.

Lemma script_unset_var_slots c nm : all c → all (script_unset_var c nm).2.
Proof using Q_undefine.
  intros Hc. unfold script_unset_var.
  destruct (find_var c nm) as [i|]; [|done].
  destruct (vars c !! i) as [w|] eqn:Hw; [|done].
  destruct (readonly w); [done|]. cbn.
  apply Forall_insert; [done|]. apply Q_undefine. by eapply Forall_lookup_1.
Qed.

Lemma execute_line_slots c line : all c → all (execute_line c line).2.
Proof using Q_fresh Q_store.
  intros Hc. unfold execute_line.
  destruct (skip_blanks line) as [|ch p]; [done|].
  destruct (ch =? "#")%char; [done|].
  assert (all (label_step c (ch :: p)).1) as Hl.
  { unfold label_step, create_label. repeat (case_match; simplify_eq); done. }
  destruct (label_step c (ch :: p)) as [c1 [p1|]]; cbn in *; [|done].
  destruct (assign_step c1 p1) as [c2|] eqn:Ha; cbn.
  - unfold assign_step in Ha.
    repeat (case_match; simplify_eq); by apply script_set_var_slots.
  - unfold keyword_step, script_break, script_continue, script_goto_label.
    repeat case_match; done.
Qed.

Lemma run_lines_slots ls : ∀ c, all c → all (run_lines c ls).
Proof using Q_fresh Q_store.
  induction ls as [|line rest IH]; intros c Hc; cbn [run_lines]; [done|].
  destruct (running c); [|done].
  pose proof (execute_line_slots
                (set_line_num (wrap32 (line_num c + 1)) c) line Hc) as He.
  destruct (execute_line _ line) as [result c1]. cbn in He.
  destruct (result =? OK); [by apply IH|done].
Qed.

Lemma script_execute_slots c script ok :
  all c → all (script_execute c script ok).2.
Proof using Q_fresh Q_store.
  intros Hc. unfold script_execute. destruct script as [text|]; [|done].
  destruct ok; [|done]. cbn.
  by apply (run_lines_slots _ (set_line_num 0 (set_running true c))).
Qed.

Lemma bind_params_slots room : ∀ c i args,
  all c → all (bind_params c i args room).
Proof using Q_fresh Q_store.
  induction room as [|room IH]; intros c i [|a args] Hc; cbn [bind_params];
    try done.
  apply IH. by apply script_set_var_slots.
Qed.

Lemma apply_op_slots c op : all c → all (apply_op c op).
Proof using All.
  intros Hc. destruct op; cbn [apply_op].
  - cbn. apply Forall_fmap, Forall_true. intros v. apply Q_reset.
  - by apply script_execute_slots.
  - done.
  - by apply execute_line_slots.
  - by apply script_set_var_slots.
  - by apply script_unset_var_slots.
  - unfold script_define_func, store_body.
    repeat (case_match; simplify_eq); done.
  - unfold script_call_func.
    destruct (list_find _ _) as [[i f]|]; [|done].
    destruct (SCRIPT_MAX_STACK <=? call_sp c); [done|].
    match goal with |- context [script_execute ?c2 ?b ?m] =>
      assert (all c2) as H2 by (by apply bind_params_slots);
      pose proof (script_execute_slots c2 b m H2) as He;
      destruct (script_execute c2 b m) as [result c3] end.
    cbn in He. destruct (0 <? call_sp c3); done.
  - unfold script_goto_label. repeat case_match; done.
  - unfold script_break. repeat case_match; done.
  - unfold script_continue. repeat case_match; done.
  - done.
Qed.

Lemma run_ops_slots mem ops : Forall Q (vars (run_ops mem ops)).
Proof using All.
  unfold run_ops.
  assert (all (script_reset_context mem)) as Hc.
  { cbn. apply Forall_fmap, Forall_true. intros v. apply Q_reset. }
  revert Hc. generalize (script_reset_context mem).
  induction ops as [|op ops IH]; intros c Hc; cbn [foldl]; [done|].
  apply IH. by apply apply_op_slots.
Qed.

End VarSlots.

(** X4: a name that does not fit the 64-byte name buffer is never found, in
    any context the operations produce: what is stored under it cannot be
    read back. *)
Theorem long_name_never_found (mem : script_context_t) (ops : list script_op)
    (nm : cstring) :
  (SCRIPT_VAR_NAME_LEN ≤ length nm)%nat →
  let c := run_ops mem ops in
  script_get_var c nm = (SYSERR, None, None)
  ∧ script_var_exists c nm = false
  ∧ ∀ t value, script_get_var (script_set_var c nm t value).2 nm
               = (SYSERR, None, None).
Proof.
  intros Hlen c.
  assert (∀ ops', list_find (var_named nm) (vars (run_ops mem ops')) = None)
    as Hnone.
  { intros ops'. apply list_find_None.
    eapply Forall_impl;
      [apply (run_ops_slots
                (λ v, var_defined v = true
                      → (length (var_name v) < SCRIPT_VAR_NAME_LEN)%nat))|].
    - by intros v [=].
    - intros nm0 v _. cbn. unfold strncpy. rewrite length_take.
      unfold SCRIPT_VAR_NAME_LEN. lia.
    - by intros v t x Hv.
    - by intros v Hv [=].
    - intros v Hv [Hd Hn]. specialize (Hv Hd). rewrite Hn in Hv. lia. }
  split_and!.
  - unfold script_get_var, find_var. subst c. by rewrite Hnone.
  - unfold script_var_exists, find_var. subst c. rewrite Hnone. done.
  - intros t value.
    replace (script_set_var c nm t value).2
      with (run_ops mem (ops ++ [op_set_var nm t value]))
      by (unfold run_ops; by rewrite foldl_app).
    unfold script_get_var, find_var. by rewrite Hnone.
Qed.

Lemma long_name_never_found_witness :
  let nm := replicate 64 "a"%char in
  let c := run_ops zero_context
             [op_set_var nm VAR_TYPE_INT (Some (int_ptr 1))] in
  script_get_var c nm = (SYSERR, None, None)
  ∧ script_var_exists c nm = false
  ∧ ∀ t value, script_get_var (script_set_var c nm t value).2 nm
               = (SYSERR, None, None).
Proof.
  apply (long_name_never_found zero_context
           [op_set_var (replicate 64 "a"%char) VAR_TYPE_INT (Some (int_ptr 1))]
           (replicate 64 "a"%char)).
  vm_compute. lia.
Defined.

(** ** Functions *)

Lemma define_func_lookup c nm b n :
  (length nm < SCRIPT_VAR_NAME_LEN)%nat →
  is_Some (find_func c nm) ∨ is_Some (list_find func_free (funcs c)) →
  ∃ c' i f,
    script_define_func c nm b n true = (OK, c')
    ∧ list_find (func_named nm) (funcs c') = Some (i, f)
    ∧ body f = Some b ∧ num_params f = n
    ∧ (∀ i0, find_func c nm = Some i0 → i = i0 ∧ func_count c' = func_count c).
Proof.
  intros Hlen Hroom. unfold script_define_func, find_func in *.
  destruct (list_find (func_named nm) (funcs c)) as [[i f0]|] eqn:Hfound; cbn.
  - pose proof Hfound as (Hi & [Hd Hn] & _)%list_find_Some. rewrite Hi. cbn.
    eexists _, i, _. split; [reflexivity|].
    split; [eapply list_find_insert_same; [done|]; by split|].
    split_and!; [done..|]. by intros ? [= <-].
  - destruct Hroom as [[? [=]]|[[i f0] Hfree]]. rewrite Hfree. cbn.
    pose proof Hfree as (Hi & _)%list_find_Some.
    rewrite list_lookup_insert_eq by (by eapply lookup_lt_Some). cbn.
    rewrite list_insert_insert_eq.
    eexists _, i, _. split; [reflexivity|].
    split.
    { eapply list_find_insert_first; [done..|]. split; [done|]. cbn.
      apply strncpy_short. unfold SCRIPT_VAR_NAME_LEN in *. lia. }
    split_and!; [done..|]. by intros ? [=].
Qed.

Lemma define_func_alloc_failure c nm b n i f :
  list_find (func_named nm) (funcs c) = Some (i, f) →
  ∃ c' f',
    script_define_func c nm b n false = (SYSERR, c')
    ∧ funcs c' !! i = Some f'
    ∧ func_defined f' = false ∧ body f' = None.
Proof.
  intros Hfound. unfold script_define_func, find_func. rewrite Hfound. cbn.
  apply list_find_Some in Hfound as (Hi & _). rewrite Hi. cbn.
  eexists _, _. split; [reflexivity|].
  split; [cbn; apply list_lookup_insert_eq; by eapply lookup_lt_Some|].
  done.
Qed.

(** X5: defining a function whose name fits, in a table with room, makes
    it the function found under that name, with the new body and parameter
    count; a function that existed keeps its slot and the count of
    functions.  When the body cannot be allocated, redefining a function
    returns SYSERR and takes the function away. *)
Theorem define_func_then_find (c : script_context_t) (nm b : cstring) (n : Z) :
  (length nm < SCRIPT_VAR_NAME_LEN)%nat →
  is_Some (find_func c nm) ∨ is_Some (list_find func_free (funcs c)) →
  (∃ c' i f,
     script_define_func c nm b n true = (OK, c')
     ∧ list_find (func_named nm) (funcs c') = Some (i, f)
     ∧ body f = Some b ∧ num_params f = n
     ∧ (∀ i0, find_func c nm = Some i0 → i = i0 ∧ func_count c' = func_count c))
  ∧ (∀ i f, list_find (func_named nm) (funcs c) = Some (i, f) →
       ∃ c' f',
         script_define_func c nm b n false = (SYSERR, c')
         ∧ funcs c' !! i = Some f'
         ∧ func_defined f' = false ∧ body f' = None).
Proof.
  intros Hlen Hroom. split.
  - by apply define_func_lookup.
  - intros i f. apply define_func_alloc_failure.
Qed.

Lemma define_func_then_find_witness :
  let c := script_reset_context zero_context in
  ∃ c' i f,
    script_define_func c (lit "f") (lit "x = 1") 0 true = (OK, c')
    ∧ list_find (func_named (lit "f")) (funcs c') = Some (i, f)
    ∧ body f = Some (lit "x = 1") ∧ num_params f = 0.
Proof.
  destruct (define_func_then_find (script_reset_context zero_context)
              (lit "f") (lit "x = 1") 0)
    as [(c' & i & f & Hd & Hf & Hb & Hn & _) _].
  - vm_compute. lia.
  - right. vm_compute. eauto.
  - exists c', i, f. exact (conj Hd (conj Hf (conj Hb Hn))).
Defined.

(** The call stack is touched by [script_call_func] only. *)
Lemma script_set_var_calls c nm t v : same_calls c (script_set_var c nm t v).2.
Proof.
  unfold script_set_var, create_var, same_calls.
  repeat (case_match; simplify_eq/=); done.
Qed.

Lemma execute_line_calls c line : same_calls c (execute_line c line).2.
Proof.
  unfold execute_line.
  destruct (skip_blanks line) as [|ch p]; [done|].
  destruct (ch =? "#")%char; [done|].
  assert (same_calls c (label_step c (ch :: p)).1) as Hl.
  { unfold label_step, create_label, same_calls.
    repeat (case_match; simplify_eq/=); done. }
  destruct (label_step c (ch :: p)) as [c1 [p1|]]; cbn in *; [|done].
  destruct Hl as [Hl1 Hl2]. unfold same_calls. rewrite <- Hl1, <- Hl2.
  destruct (assign_step c1 p1) as [c2|] eqn:Ha; cbn.
  - unfold assign_step in Ha.
    repeat (case_match; simplify_eq); apply script_set_var_calls.
  - unfold keyword_step, script_break, script_continue, script_goto_label.
    repeat case_match; done.
Qed.

Lemma run_lines_calls ls : ∀ c, same_calls c (run_lines c ls).
Proof.
  induction ls as [|line rest IH]; intros c; cbn [run_lines]; [done|].
  destruct (running c); [|done].
  pose proof (execute_line_calls
                (set_line_num (wrap32 (line_num c + 1)) c) line) as [He1 He2].
  destruct (execute_line _ line) as [result c1]. cbn in He1, He2.
  destruct (result =? OK); [|done].
  destruct (IH c1) as [H1 H2]. unfold same_calls. by rewrite H1, H2.
Qed.

Lemma script_execute_calls c script ok :
  same_calls c (script_execute c script ok).2.
Proof.
  unfold script_execute. destruct script as [text|]; [|done].
  destruct ok; [|done]. cbn.
  apply (run_lines_calls _ (set_line_num 0 (set_running true c))).
Qed.

Lemma bind_params_calls room : ∀ c i args,
  same_calls c (bind_params c i args room).
Proof.
  induction room as [|room IH]; intros c i [|a args]; cbn [bind_params];
    try done.
  destruct (IH (script_set_var c (param_name i) VAR_TYPE_STRING
                  (Some (str_ptr a))).2 (S i) args) as [H1 H2].
  destruct (script_set_var_calls c (param_name i) VAR_TYPE_STRING
              (Some (str_ptr a))) as [H3 H4].
  unfold same_calls. by rewrite H1, H2.
Qed.

(** X6: a call of a defined function below the depth limit gives the
    caller its line number and its call depth back; when the body ran, the
    call returns the exit code the body left and the context is no longer
    running. *)
Theorem call_func_restores_caller (c : script_context_t) (nm : cstring)
    (argv : list cstring) (ok : bool) (i : nat) (f : script_func_t) :
  list_find (func_named nm) (funcs c) = Some (i, f) →
  0 ≤ call_sp c < SCRIPT_MAX_STACK →
  length (call_stack c) = Z.to_nat SCRIPT_MAX_STACK →
  let r := (script_call_func c nm argv ok).1 in
  let c' := (script_call_func c nm argv ok).2 in
  line_num c' = line_num c
  ∧ call_sp c' = call_sp c
  ∧ (ok = true → is_Some (body f) → r = exit_code c' ∧ running c' = false).
Proof.
  intros Hfound Hsp Hlen. unfold script_call_func. rewrite Hfound.
  unfold SCRIPT_MAX_STACK in *.
  replace (256 <=? call_sp c) with false by lia.
  set (c1 := set_call _ _ c).
  set (c2 := bind_params c1 0 argv (Z.to_nat (num_params f))).
  destruct (bind_params_calls (Z.to_nat (num_params f)) c1 0 argv) as [Hb1 Hb2].
  fold c2 in Hb1, Hb2.
  destruct (script_execute_calls c2 (body f) ok) as [He1 He2].
  assert (ok = true → is_Some (body f) →
          (script_execute c2 (body f) ok).1
          = exit_code (script_execute c2 (body f) ok).2
          ∧ running (script_execute c2 (body f) ok).2 = false) as Hrun.
  { intros -> [text ->]. done. }
  destruct (script_execute c2 (body f) ok) as [r c3]. cbn in *.
  rewrite He2, Hb2. cbn.
  replace (0 <? call_sp c + 1) with true by lia. cbn.
  rewrite He1, Hb1. cbn.
  replace (Z.to_nat (call_sp c + 1 - 1)) with (Z.to_nat (call_sp c)) by lia.
  rewrite list_lookup_insert_eq by lia. cbn.
  split_and!; [done|lia|done].
Qed.

Lemma call_func_restores_caller_witness :
  let c := set_line_num 12 with_function in
  let r := (script_call_func c (lit "f") [] true).1 in
  let c' := (script_call_func c (lit "f") [] true).2 in
  line_num c' = 12 ∧ call_sp c' = call_sp c
  ∧ r = exit_code c' ∧ running c' = false.
Proof.
  destruct (call_func_restores_caller (set_line_num 12 with_function)
              (lit "f") [] true 0
              {| func_name := lit "f"; body := Some (lit "x = 1");
                 body_len := 6; num_params := 0; func_defined := true |})
    as (Hl & Hs & Hr).
  - vm_compute. reflexivity.
  - vm_compute. split; [discriminate|reflexivity].
  - vm_compute. reflexivity.
  - destruct (Hr eq_refl (ex_intro _ _ eq_refl)) as [Hr1 Hr2].
    exact (conj Hl (conj Hs (conj Hr1 Hr2))).
Defined.

(** ** The return statement *)

(** X7: a line that starts with [return], holds neither a colon nor an
    equals sign, and whose expression keeps [script_eval_int] within its
    result (it does not begin with a reference to a float, a string or an
    array) ends the run: the lines after it are not executed, the context
    stops running and its exit code is the value of what follows the keyword
    (zero when nothing follows). *)
Theorem return_ends_run (c : script_context_t) (line : cstring)
    (rest : list cstring) :
  running c = true →
  has_prefix (lit "return") line = true →
  strchr line ":" = None → strchr line "=" = None →
  eval_int_in_bounds c (skip_blanks (drop 6 line)) = true →
  let q := skip_blanks (drop 6 line) in
  let val := if q is [] then 0 else script_eval_int c q in
  run_lines c (line :: rest)
  = set_running false
      (set_exit_code val (set_line_num (wrap32 (line_num c + 1)) c)).
Proof.
  intros Hrun Hret Hcolon Heq _ q val. cbn [run_lines]. rewrite Hrun.
  set (c1 := set_line_num _ c).
  assert (execute_line c1 line
          = (OK, set_running false (set_exit_code val c1))) as ->.
  { unfold execute_line.
    pose proof Hret as [t Ht]%ScriptFacts.has_prefix_app.
    assert (skip_blanks line = line) as -> by (by rewrite Ht).
    rewrite Ht at 1. cbn [lit list_ascii_of_string app].
    cbn [Ascii.eqb Bool.eqb]. cbn match.
    unfold label_step, assign_step. rewrite Hcolon, Heq.
    unfold keyword_step. 
    replace (has_prefix (lit "if ") line) with false by (by rewrite Ht).
    replace (has_prefix (lit "while ") line) with false by (by rewrite Ht).
    replace (has_prefix (lit "for ") line) with false by (by rewrite Ht).
    replace (streq line (lit "break")) with false by (by rewrite Ht).
    replace (streq line (lit "continue")) with false by (by rewrite Ht).
    rewrite Hret. done. }
  cbn. destruct rest; done.
Qed.

Lemma return_ends_run_witness :
  run_lines fresh_running [lit "return 7"; lit "x = 1"]
  = set_running false
      (set_exit_code 7
         (set_line_num (wrap32 (line_num fresh_running + 1)) fresh_running)).
Proof.
  apply (return_ends_run fresh_running (lit "return 7") [lit "x = 1"]);
    reflexivity.
Defined.

(** ** Lines of a script *)








(** ** Variables in expressions *)




(** ** Decimal literals *)

Lemma pretty_N_char_digit m :
  (m < 10)%N →
  isdigit (pretty_N_char m) = true ∧ code (pretty_N_char m) - 48 = Z.of_N m.
Proof.
  intros Hm.
  assert (m = 0 ∨ m = 1 ∨ m = 2 ∨ m = 3 ∨ m = 4 ∨ m = 5 ∨ m = 6 ∨ m = 7
          ∨ m = 8 ∨ m = 9)%N as Hcases by lia.
  repeat (destruct Hcases as [->|Hcases]; [by vm_compute|]). subst. by vm_compute.
Qed.

Lemma parse_decimal_pretty_go x : ∀ s,
  parse_decimal (lit (pretty_N_go x s)) 0
  = parse_decimal (lit s) (wrap32 (Z.of_N x)).
Proof.
  induction (N.lt_wf_0 x) as [x _ IH]. intros s.
  destruct (decide (x = 0%N)) as [->|Hx]; [by rewrite pretty_N_go_0|].
  rewrite pretty_N_go_step by lia. rewrite IH by (apply N.div_lt; lia).
  cbn [lit list_ascii_of_string parse_decimal].
  destruct (pretty_N_char_digit (x `mod` 10)%N) as [-> ->];
    [by apply N.mod_lt|].
  f_equal. rewrite wrap32_mul_l, wrap32_add_l. f_equal.
  rewrite N2Z.inj_mod, N2Z.inj_div.
  pose proof (Z.div_mod (Z.of_N x) 10). change (Z.of_N 10) with 10. lia.
Qed.

Lemma pretty_N_go_head x : ∀ s,
  (0 < x)%N →
  ∃ m rest, (0 < m < 10)%N ∧ pretty_N_go x s = String (pretty_N_char m) rest.
Proof.
  induction (N.lt_wf_0 x) as [x _ IH]. intros s Hx.
  rewrite pretty_N_go_step by done.
  destruct (decide (x < 10)%N) as [Hsmall|Hbig].
  - rewrite N.div_small, pretty_N_go_0 by done.
    exists (x `mod` 10)%N, s. split; [|done]. rewrite N.mod_small by done. lia.
  - apply IH; [apply N.div_lt; lia|]. apply N.div_str_pos. lia.
Qed.

Lemma eval_int_digits c (m : N) (rest : string) :
  (0 < m < 10)%N →
  script_eval_int c (lit (String (pretty_N_char m) rest))
  = parse_decimal (lit (String (pretty_N_char m) rest)) 0
  ∧ script_eval_int c ("-"%char :: lit (String (pretty_N_char m) rest))
    = wrap32 (- parse_decimal (lit (String (pretty_N_char m) rest)) 0).
Proof.
  intros Hm.
  assert (m = 1 ∨ m = 2 ∨ m = 3 ∨ m = 4 ∨ m = 5 ∨ m = 6 ∨ m = 7
          ∨ m = 8 ∨ m = 9)%N as Hcases by lia.
  repeat (destruct Hcases as [->|Hcases]; [done|]). by subst.
Qed.

(** X10: a decimal numeral evaluates to the number it denotes, for every
    value an [int32_t] holds. *)
Theorem eval_int_decimal (c : script_context_t) (z : Z) :
  - 2 ^ 31 ≤ z < 2 ^ 31 →
  script_eval_int c (lit (pretty z)) = z.
Proof.
  intros Hz. destruct z as [|x|x].
  - done.
  - change (pretty (Z.pos x)) with (pretty_N_go (N.pos x) EmptyString).
    destruct (pretty_N_go_head (N.pos x) EmptyString) as (m & rest & Hm & Hhead); [lia|].
    rewrite Hhead. rewrite (proj1 (eval_int_digits c m rest Hm)).
    rewrite <- Hhead, parse_decimal_pretty_go. cbn [lit list_ascii_of_string
      parse_decimal]. apply wrap32_id. lia.
  - change (lit (pretty (Z.neg x)))
      with ("-"%char :: lit (pretty_N_go (N.pos x) EmptyString)).
    destruct (pretty_N_go_head (N.pos x) EmptyString) as (m & rest & Hm & Hhead); [lia|].
    rewrite Hhead. rewrite (proj2 (eval_int_digits c m rest Hm)).
    rewrite <- Hhead, parse_decimal_pretty_go. cbn [lit list_ascii_of_string
      parse_decimal].
    replace (- wrap32 (Z.of_N (N.pos x)))
      with (wrap32 (Z.of_N (N.pos x)) * -1) by lia.
    rewrite wrap32_mul_l. rewrite wrap32_id; lia.
Qed.

Lemma eval_int_decimal_witness :
  script_eval_int (script_reset_context zero_context) (lit (pretty (- 42))) = - 42.
Proof.
  apply (eval_int_decimal (script_reset_context zero_context) (- 42)). lia.
Defined.

(** ** Glob patterns *)

Lemma expr_match_glob_nil_r p :
  expr_match_glob p [] = true ↔ skip_stars p = [].
Proof.
  destruct p as [|pc p]; cbn [expr_match_glob].
  - done.
  - destruct (skip_stars (pc :: p)); split; done.
Qed.

Lemma expr_match_glob_stars p :
  p ≠ [] → skip_stars p = [] → ∀ s, expr_match_glob p s = true.
Proof.
  induction p as [|pc p IH]; [done|]. intros _ Hstars s.
  cbn [skip_stars] in Hstars.
  destruct (Ascii.eqb_spec pc "*") as [->|]; [|done].
  destruct s as [|sc s]; [by apply expr_match_glob_nil_r|].
  cbn [expr_match_glob]. cbn [Ascii.eqb Bool.eqb]. cbn match.
  destruct p as [|pc' p]; [done|].
  by rewrite (IH ltac:(done) Hstars (sc :: s)).
Qed.

Lemma suffixes_spec p str :
  (fix suffixes (s : cstring) : bool :=
     match s with
     | [] => false
     | _ :: s'' => if expr_match_glob p s then true else suffixes s''
     end) str = true
  ↔ ∃ s1 s2, str = s1 ++ s2 ∧ s2 ≠ [] ∧ expr_match_glob p s2 = true.
Proof.
  induction str as [|sc str IH].
  - split; [done|]. intros (s1 & s2 & Hs & Hne & _). symmetry in Hs.
    by apply app_eq_nil in Hs as [_ ->].
  - destruct (expr_match_glob p (sc :: str)) eqn:Hhere.
    + split; [|done]. intros _. by exists [], (sc :: str).
    + rewrite IH. split.
      * intros (s1 & s2 & -> & Hne & Hp). by exists (sc :: s1), s2.
      * intros (s1 & s2 & Hs & Hne & Hp). destruct s1 as [|a s1].
        { cbn in Hs. subst s2. congruence. }
        injection Hs as -> ->. by exists s1, s2.
Qed.

Lemma expr_match_glob_star p s :
  expr_match_glob ("*"%char :: p) s = true
  ↔ ∃ s1 s2, s = s1 ++ s2 ∧ expr_match_glob p s2 = true.
Proof.
  destruct s as [|sc s].
  - rewrite expr_match_glob_nil_r. cbn [skip_stars Ascii.eqb Bool.eqb]. cbn match.
    rewrite <- expr_match_glob_nil_r. split.
    + intros Hp. by exists [], [].
    + intros (s1 & s2 & Hs & Hp). symmetry in Hs.
      apply app_eq_nil in Hs as [-> ->]. done.
  - destruct p as [|pc p].
    { split; [|done]. intros _. exists (sc :: s), []. by rewrite app_nil_r. }
    change (expr_match_glob ("*"%char :: pc :: p) (sc :: s))
      with ((fix suffixes (s : cstring) : bool :=
               match s with
               | [] => false
               | _ :: s'' =>
                   if expr_match_glob (pc :: p) s then true else suffixes s''
               end) (sc :: s)).
    rewrite suffixes_spec. split.
    + intros (s1 & s2 & Hs & _ & Hp). by exists s1, s2.
    + intros (s1 & s2 & Hs & Hp). destruct s2 as [|a s2].
      * exists [], (sc :: s). split_and!; [done..|].
        apply expr_match_glob_stars; [done|]. by apply expr_match_glob_nil_r.
      * by exists s1, (a :: s2).
Qed.

Lemma expr_match_glob_cons pc p sc s :
  pc ≠ "*"%char →
  expr_match_glob (pc :: p) (sc :: s)
  = (((pc =? "?") || (pc =? sc))%char && expr_match_glob p s).
Proof.
  intros Hpc. cbn [expr_match_glob].
  destruct (Ascii.eqb_spec pc "*"); [done|].
  destruct (pc =? "?")%char; [done|]. by destruct (pc =? sc)%char.
Qed.

(** X11: the matcher is sound and complete for glob patterns: it returns
    true exactly for the strings the pattern stands for. *)
Theorem expr_match_glob_correct (pattern string : cstring) :
  expr_match_glob pattern string = true ↔ glob_matches pattern string.
Proof.
  split.
  - revert string. induction pattern as [|pc p IH]; intros s Hm.
    + destruct s; [constructor|done].
    + destruct (decide (pc = "*"%char)) as [->|Hpc].
      * apply expr_match_glob_star in Hm as (s1 & s2 & -> & Hp).
        constructor. by apply IH.
      * destruct s as [|sc s].
        { apply expr_match_glob_nil_r in Hm. cbn [skip_stars] in Hm.
          by destruct (Ascii.eqb_spec pc "*"). }
        rewrite expr_match_glob_cons in Hm by done.
        apply andb_true_iff in Hm as [Hc Hp]. apply IH in Hp.
        destruct (Ascii.eqb_spec pc "?") as [->|]; [by constructor|].
        cbn in Hc. apply Ascii.eqb_eq in Hc as ->. by constructor.
  - induction 1 as [|p s1 s2 _ IH|p ch s _ IH|p ch s Hch _ IH].
    + done.
    + apply expr_match_glob_star. by exists s1, s2.
    + by rewrite expr_match_glob_cons, IH.
    + rewrite expr_match_glob_cons, IH by done.
      by rewrite Ascii.eqb_refl, orb_true_r.
Qed.

End ScriptProps.

(** * Further properties of the shell *)

Module ShellProps.

Import Shell ShellViews Environment Aliases Readline Commands.

#[local] Arguments strncpy : simpl never.

(** ** Expansion *)

Lemma append_if_fits_bound out s size :
  Z.of_nat (length out) ≤ size - 1 →
  Z.of_nat (length (append_if_fits out s size)) ≤ size - 1.
Proof.
  intros Hout. unfold append_if_fits. case_match; [|done].
  rewrite length_app. lia.
Qed.

Lemma expand_loop_bound sh size q : ∀ skip prev out,
  Z.of_nat (length out) ≤ size - 1 →
  Z.of_nat (length (expand_loop sh size q skip prev out)) ≤ size - 1.
Proof.
  induction q as [|ch q IH]; intros skip prev out Hout; cbn [expand_loop];
    [done|].
  destruct skip as [|k]; [|by apply IH].
  destruct (Z.of_nat (length out) <? size - 1) eqn:Hroom; cbn [negb]; [|done].
  assert (∀ s, Z.of_nat (length (append_if_fits out s size)) ≤ size - 1)
    as Hfits by (intros s; by apply append_if_fits_bound).
  repeat case_match; try apply IH; try done; rewrite ?length_app; cbn; lia.
Qed.

(** X12: whatever the input and the variables hold, the expansion leaves
    room for the terminator in a buffer of [size] bytes. *)
Theorem shell_expand_fits (sh : shell_t) (input : cstring) (size : Z) :
  1 ≤ size →
  Z.of_nat (length (shell_expand sh input size)) < size.
Proof.
  intros Hsize. unfold shell_expand.
  pose proof (expand_loop_bound sh size input 0 None []) as Hb.
  cbn [length] in Hb. lia.
Qed.

Lemma shell_expand_fits_witness :
  Z.of_nat (length (shell_expand sample_shell (lit "echo $?") 4)) < 4.
Proof. apply (shell_expand_fits sample_shell (lit "echo $?") 4). lia. Defined.

Lemma expand_loop_var sh size c2 q' prev out :
  Z.of_nat (length out) < size - 1 →
  c2 ≠ "?"%char → c2 ≠ "$"%char → c2 ≠ "{"%char →
  expand_loop sh size ("$"%char :: c2 :: q') 0 prev out
  = expand_loop sh size (c2 :: q') (read_name (c2 :: q') false 63).2
      (Some "$"%char)
      match shell_getenv sh (read_name (c2 :: q') false 63).1 with
      | Some v => append_if_fits out v size
      | None => out
      end.
Proof.
  intros Hroom H1 H2 H3.
  assert (∃ q, q = c2 :: q') as [q Hq] by eauto. rewrite <- Hq.
  cbn [expand_loop].
  replace (Z.of_nat (length out) <? size - 1) with true by lia.
  rewrite Ascii.eqb_refl. cbn [negb].
  set (b := if q is "{"%char :: _ then true else false).
  assert (b = false) as ->.
  { subst q b. destruct c2 as [[] [] [] [] [] [] [] []];
      first [by destruct H3 | reflexivity]. }
  destruct (read_name q false 63) as [nm k]. cbn [fst snd].
  rewrite Hq at 1.
  destruct c2 as [[] [] [] [] [] [] [] []];
    first [by destruct H1 | by destruct H2 | reflexivity].
Qed.

Lemma expand_loop_braces sh size q' prev out :
  Z.of_nat (length out) < size - 1 →
  expand_loop sh size ("$"%char :: "{"%char :: q') 0 prev out
  = expand_loop sh size ("{"%char :: q') (S (read_name q' true 63).2)
      (Some "$"%char)
      match shell_getenv sh (read_name q' true 63).1 with
      | Some v => append_if_fits out v size
      | None => out
      end.
Proof.
  intros Hroom.
  assert (∃ q, q = "{"%char :: q') as [q Hq] by eauto. rewrite <- Hq.
  cbn [expand_loop].
  replace (Z.of_nat (length out) <? size - 1) with true by lia.
  rewrite Ascii.eqb_refl. cbn [negb].
  set (b := if q is "{"%char :: _ then true else false).
  assert (b = true) as -> by (by subst q b).
  replace (drop 1 q) with q' by (by subst q).
  destruct (read_name q' true 63) as [nm k]. cbn [fst snd].
  by rewrite Hq at 1.
Qed.

Lemma expand_loop_special sh size c2 q' prev out :
  Z.of_nat (length out) < size - 1 →
  c2 = "?"%char ∨ c2 = "$"%char →
  expand_loop sh size ("$"%char :: c2 :: q') 0 prev out
  = expand_loop sh size q' 0 (Some c2)
      (append_if_fits out
         (lit (pretty (if (c2 =? "?")%char then last_exit (shell_state sh)
                       else pid (shell_state sh)))) size).
Proof.
  intros Hroom Hc2.
  assert (∃ q, q = c2 :: q') as [q Hq] by eauto. rewrite <- Hq.
  cbn [expand_loop].
  replace (Z.of_nat (length out) <? size - 1) with true by lia.
  rewrite Ascii.eqb_refl. cbn [negb]. rewrite Hq at 1.
  destruct Hc2 as [-> | ->]; by rewrite Hq.
Qed.

Lemma expand_loop_skip sh size a : ∀ rest prev out,
  expand_loop sh size (a ++ rest) (length a) prev out
  = expand_loop sh size rest 0 (from_option Some prev (last a)) out.
Proof.
  induction a as [|ch a IH]; intros rest prev out; [done|].
  cbn [app length expand_loop]. rewrite IH, last_cons.
  by destruct (last a).
Qed.

Lemma expand_loop_plain sh size q : ∀ rest prev out,
  Forall plain q →
  Z.of_nat (length out) + Z.of_nat (length q) ≤ size - 1 →
  expand_loop sh size (q ++ rest) 0 prev out
  = expand_loop sh size rest 0 (from_option Some prev (last q)) (out ++ q).
Proof.
  induction q as [|ch q IH]; intros rest prev out Hq Hfit.
  { by rewrite app_nil_r. }
  apply Forall_cons in Hq as [[Hd Ht] Hq]. cbn [app expand_loop length] in *.
  replace (Z.of_nat (length out) <? size - 1) with true by lia.
  destruct (Ascii.eqb_spec ch "$"); [done|].
  destruct (Ascii.eqb_spec ch "~"); [done|]. cbn [negb andb].
  rewrite IH; [|done|rewrite length_app; cbn; lia].
  rewrite <- app_assoc, last_cons. by destruct (last q).
Qed.

Lemma read_name_plain nm : ∀ post room,
  Forall (λ ch, name_char ch = true) nm →
  (length nm ≤ room)%nat →
  (∀ ch, head post = Some ch → name_char ch = false) →
  read_name (nm ++ post) false room = (nm, length nm).
Proof.
  induction nm as [|ch nm IH]; intros post room Hnm Hroom Hpost.
  - cbn [app length]. destruct post as [|ch post]; [by destruct room|].
    destruct room; [done|].
    cbn [read_name andb negb]. specialize (Hpost ch eq_refl).
    unfold name_char in Hpost. apply orb_false_iff in Hpost as [-> ->]. done.
  - apply Forall_cons in Hnm as [Hch Hnm].
    destruct room as [|room]; [cbn in Hroom; lia|].
    cbn [app read_name length andb negb].
    unfold name_char in Hch.
    replace (negb (isalnum ch) && negb (ch =? "_")%char) with false
      by (by destruct (isalnum ch), (ch =? "_")%char).
    rewrite IH; [done|done|cbn in Hroom; lia|done].
Qed.

Lemma read_name_braces nm : ∀ post room,
  "}"%char ∉ nm →
  (length nm < room)%nat →
  read_name (nm ++ "}"%char :: post) true room = (nm, S (length nm)).
Proof.
  induction nm as [|ch nm IH]; intros post room Hnm Hroom.
  - destruct room; [cbn in Hroom; lia|]. done.
  - apply not_elem_of_cons in Hnm as [Hch Hnm].
    destruct room as [|room]; [cbn in Hroom; lia|].
    cbn [app read_name length andb negb].
    destruct (Ascii.eqb_spec ch "}"); [done|].
    rewrite IH; [done|done|cbn in Hroom; lia].
Qed.

(** X13: text without [$] and [~] passes through the expansion unchanged,
    cut to what the buffer holds. *)
Theorem shell_expand_plain (sh : shell_t) (input : cstring) (size : Z) :
  Forall plain input →
  shell_expand sh input size = take (Z.to_nat (size - 1)) input.
Proof.
  intros Hplain. unfold shell_expand.
  destruct (decide (size - 1 ≤ 0)) as [Hsmall|Hbig].
  { replace (Z.to_nat (size - 1)) with 0%nat by lia.
    destruct input as [|ch input]; [done|]. cbn [expand_loop length].
    change (Z.of_nat 0) with 0.
    by replace (0 <? size - 1) with false by lia. }
  rewrite <- (take_drop (Z.to_nat (size - 1)) input) at 1.
  rewrite expand_loop_plain;
    [|by apply Forall_take|rewrite length_take; cbn; lia].
  cbn [app]. destruct (drop (Z.to_nat (size - 1)) input) as [|ch rest] eqn:Hd;
    [done|].
  cbn [expand_loop].
  replace (Z.of_nat (length (take (Z.to_nat (size - 1)) input)) <? size - 1)
    with false; [done|].
  assert (Z.to_nat (size - 1) < length input)%nat.
  { destruct (decide (Z.to_nat (size - 1) < length input)%nat); [done|].
    rewrite drop_ge in Hd by lia. done. }
  symmetry. apply Z.ltb_ge. rewrite length_take. lia.
Qed.

Lemma shell_expand_plain_witness :
  shell_expand sample_shell (lit "ls -l /tmp") 256
  = take (Z.to_nat (256 - 1)) (lit "ls -l /tmp").
Proof.
  apply (shell_expand_plain sample_shell (lit "ls -l /tmp") 256).
  apply (bool_decide_unpack _). vm_compute. exact I.
Defined.

Lemma expand_loop_name sh size nm post prev out :
  nm ≠ [] → Forall (λ ch, name_char ch = true) nm → (length nm ≤ 63)%nat →
  (∀ ch, head post = Some ch → name_char ch = false) →
  Z.of_nat (length out) < size - 1 →
  expand_loop sh size ("$"%char :: nm ++ post) 0 prev out
  = expand_loop sh size post 0 (from_option Some (Some "$"%char) (last nm))
      match shell_getenv sh nm with
      | Some v => append_if_fits out v size
      | None => out
      end.
Proof.
  intros Hne Hnm Hlen Hhead Hroom. destruct nm as [|c2 nm']; [done|].
  pose proof Hnm as [Hc2 _]%Forall_cons.
  change ("$"%char :: (c2 :: nm') ++ post) with ("$"%char :: c2 :: nm' ++ post).
  rewrite expand_loop_var; [|done|by intros ->..].
  change (c2 :: nm' ++ post) with ((c2 :: nm') ++ post).
  rewrite read_name_plain by done. cbn [fst snd].
  by rewrite expand_loop_skip.
Qed.

(** X14: [$NAME] and [${NAME}] are replaced by the value of the variable,
    or by nothing when it is not set, provided the result fits.  A name
    outside braces is made of at most 63 letters, digits and underscores; a
    name in braces of fewer than 63 characters other than the closing
    brace. *)
Theorem shell_expand_variable (sh : shell_t) (pre nm post : cstring)
    (size : Z) :
  Forall plain pre → Forall plain post →
  let v := default [] (shell_getenv sh nm) in
  Z.of_nat (length pre + length v + length post) < size - 1 →
  (nm ≠ [] → Forall (λ ch, name_char ch = true) nm → (length nm ≤ 63)%nat →
   (∀ ch, head post = Some ch → name_char ch = false) →
   shell_expand sh (pre ++ "$"%char :: nm ++ post) size = pre ++ v ++ post)
  ∧ ("}"%char ∉ nm → (length nm < 63)%nat →
     shell_expand sh (pre ++ "$"%char :: "{"%char :: nm ++ "}"%char :: post) size
     = pre ++ v ++ post).
Proof.
  intros Hpre Hpost v Hfit. unfold shell_expand.
  assert (∀ prev, expand_loop sh size post 0 prev (pre ++ v) = pre ++ v ++ post)
    as Htail.
  { intros prev. rewrite <- (app_nil_r post) at 1.
    rewrite expand_loop_plain; [|done|rewrite !length_app; lia].
    cbn [expand_loop]. by rewrite <- app_assoc. }
  assert (match shell_getenv sh nm with
          | Some v => append_if_fits pre v size
          | None => pre
          end = pre ++ v) as Hval.
  { unfold v. destruct (shell_getenv sh nm) as [val|]; cbn;
      [|by rewrite app_nil_r].
    unfold append_if_fits. case_match; [done|]. subst v. cbn in *. lia. }
  split.
  - intros Hne Hnm Hlen Hhead.
    rewrite expand_loop_plain; [|done|cbn in *; lia]. cbn [app].
    rewrite expand_loop_name by (done || cbn in *; lia).
    rewrite Hval. apply Htail.
  - intros Hnm Hlen.
    rewrite expand_loop_plain; [|done|cbn in *; lia]. cbn [app].
    rewrite expand_loop_braces by (cbn in *; lia).
    rewrite read_name_braces by done. cbn [fst snd].
    replace ("{"%char :: nm ++ "}"%char :: post)
      with (("{"%char :: nm ++ ["}"%char]) ++ post)
      by (cbn; by rewrite <- app_assoc).
    replace (S (S (length nm))) with (length ("{"%char :: nm ++ ["}"%char]))
      by (cbn; rewrite length_app; cbn; lia).
    rewrite expand_loop_skip, Hval. apply Htail.
Qed.

Lemma shell_expand_variable_witness :
  let sh := (shell_setenv fresh_shell (lit "USER") (lit "root")).2 in
  shell_expand sh (lit "hi $USER!") 256 = lit "hi root!"
  ∧ shell_expand sh (lit "hi ${USER}!") 256 = lit "hi root!".
Proof.
  destruct (shell_expand_variable
              (shell_setenv fresh_shell (lit "USER") (lit "root")).2
              (lit "hi ") (lit "USER") (lit "!") 256) as [Hplain Hbraces].
  - apply (bool_decide_unpack _). vm_compute. exact I.
  - apply (bool_decide_unpack _). vm_compute. exact I.
  - vm_compute. reflexivity.
  - split.
    + apply Hplain.
      * discriminate.
      * apply (bool_decide_unpack _). vm_compute. exact I.
      * vm_compute. lia.
      * intros ch [= <-]. reflexivity.
    + apply Hbraces.
      * apply (bool_decide_unpack _). vm_compute. exact I.
      * vm_compute. lia.
Defined.

(** X15: [$?] is replaced by the last exit status and [$$] by the shell's
    process identifier, in decimal, provided the result fits. *)
Theorem shell_expand_status (sh : shell_t) (pre post : cstring) (size : Z) :
  Forall plain pre → Forall plain post →
  let status := lit (pretty (last_exit (shell_state sh))) in
  let shell_pid := lit (pretty (pid (shell_state sh))) in
  (Z.of_nat (length pre + length status + length post) < size - 1 →
   shell_expand sh (pre ++ lit "$?" ++ post) size = pre ++ status ++ post)
  ∧ (Z.of_nat (length pre + length shell_pid + length post) < size - 1 →
     shell_expand sh (pre ++ lit "$$" ++ post) size = pre ++ shell_pid ++ post).
Proof.
  intros Hpre Hpost status shell_pid. unfold shell_expand.
  assert (∀ prev v,
            Z.of_nat (length pre + length v + length post) < size - 1 →
            expand_loop sh size post 0 prev (append_if_fits pre v size)
            = pre ++ v ++ post) as Htail.
  { intros prev v Hfit. unfold append_if_fits.
    replace (_ <? _) with true by lia.
    rewrite <- (app_nil_r post) at 1.
    rewrite expand_loop_plain; [|done|rewrite !length_app; lia].
    cbn [expand_loop]. by rewrite <- app_assoc. }
  split; intros Hfit.
  - rewrite expand_loop_plain; [|done|cbn [length]; lia].
    cbn [app lit list_ascii_of_string].
    rewrite expand_loop_special; [|cbn in *; lia|by left].
    by apply Htail.
  - rewrite expand_loop_plain; [|done|cbn [length]; lia].
    cbn [app lit list_ascii_of_string].
    rewrite expand_loop_special; [|cbn in *; lia|by right].
    by apply Htail.
Qed.

Lemma shell_expand_status_witness :
  shell_expand sample_shell (lit "echo $?") 256 = lit "echo 0"
  ∧ shell_expand sample_shell (lit "echo $$") 256 = lit "echo 3".
Proof.
  destruct (shell_expand_status sample_shell (lit "echo ") [] 256)
    as [Hstatus Hpid].
  - apply (bool_decide_unpack _). vm_compute. exact I.
  - apply Forall_nil_2.
  - split.
    + apply Hstatus. vm_compute. reflexivity.
    + apply Hpid. vm_compute. reflexivity.
Defined.

(** ** The command registry *)

(** X16: a registration below the capacity succeeds; afterwards a name
    that was registered before still leads to its first entry, and the new
    name, cut to 63 characters, leads to the new entry only when it was not
    registered before. *)
Theorem register_then_find (sh : shell_t) (nm desc : cstring)
    (f : shell_cmd_func) (nm' : cstring) :
  registry_wf sh → shell_command_count sh < 128 →
  let sh' := (shell_register_command sh nm desc f).2 in
  (shell_register_command sh nm desc f).1 = OK
  ∧ registry_wf sh'
  ∧ shell_find_command sh' nm'
    = match shell_find_command sh nm' with
      | Some c => Some c
      | None =>
          if decide (strncpy nm (SHELL_MAX_CMD - 1) = nm')
          then Some {| name := strncpy nm (SHELL_MAX_CMD - 1);
                       description := strncpy desc 127; func := f;
                       builtin := true |}
          else None
      end.
Proof.
  intros [Hlen Hcount] Hroom. unfold shell_register_command.
  replace (128 <=? shell_command_count sh) with false by lia. cbn.
  split; [done|]. split.
  { unfold registry_wf. cbn. rewrite length_insert. lia. }
  unfold shell_find_command. cbn.
  replace (Z.to_nat (shell_command_count sh + 1))
    with (S (Z.to_nat (shell_command_count sh))) by lia.
  set (n := Z.to_nat (shell_command_count sh)).
  assert (n < length (shell_commands sh))%nat as Hn by lia.
  erewrite take_S_r by (apply list_lookup_insert_eq; lia).
  rewrite take_insert_ge by lia. rewrite list_find_snoc.
  destruct (list_find _ (take n (shell_commands sh))) as [[??]|]; [done|].
  cbn. by destruct (decide _).
Qed.

Lemma register_then_find_witness :
  let sh' := (shell_register_command fresh_shell (lit "ls") (lit "List") 9).2 in
  (shell_register_command fresh_shell (lit "ls") (lit "List") 9).1 = OK
  ∧ registry_wf sh'
  ∧ shell_find_command sh' (lit "ls")
    = Some {| name := lit "ls"; description := lit "List"; func := 9;
              builtin := true |}.
Proof.
  apply (register_then_find fresh_shell (lit "ls") (lit "List") 9 (lit "ls")).
  - split; [reflexivity|]. vm_compute. split; discriminate.
  - vm_compute. reflexivity.
Defined.

(** ** Jobs *)

(** X17: a job that is created gets the number of its slot plus one, and
    is then the job found under that number, Running, with the process and
    the command it was created for; every other job is found as before. *)
Theorem job_create_then_find (w : job_table) (pid : Z) (cmd : cstring)
    (fg : bool) (id : Z) (w' : job_table) :
  jobs_wf w →
  shell_job_create w pid cmd fg = (id, w') → id ≠ SYSERR →
  ∃ i : nat,
    id = Z.of_nat i + 1
    ∧ shell_job_find w' id
      = Some (i, {| job_id := id; job_pid := pid; job_pgid := pid;
                    job_state := JOB_RUNNING;
                    job_command := strncpy cmd (SHELL_MAX_LINE - 1);
                    foreground := fg |})
    ∧ jobs_wf w'
    ∧ ∀ id', id' ≠ id → id' ≠ 0 → shell_job_find w' id' = shell_job_find w id'.
Proof.
  intros Hwf Hcreate Hid. unfold shell_job_create in Hcreate.
  destruct (list_find job_reusable (shell_jobs w)) as [[i j0]|] eqn:Hfree;
    [|by simplify_eq].
  injection Hcreate as <- <-. exists i. split; [done|].
  pose proof Hfree as (Hi & Hj0 & _)%list_find_Some.
  assert (i < length (shell_jobs w))%nat as Hlt by (by eapply lookup_lt_Some).
  set (j := {| job_id := Z.of_nat i + 1; job_pid := pid |}).
  assert (∀ k x, shell_jobs w !! k = Some x → job_id x = Z.of_nat i + 1 → k = i)
    as Hunique.
  { intros k x Hk Hx. destruct (Hwf k x Hk); lia. }
  split_and!.
  - unfold shell_job_find. cbn. apply list_find_Some. split_and!.
    + by apply list_lookup_insert_eq.
    + done.
    + intros k x Hk Hki Hx. rewrite list_lookup_insert_ne in Hk by lia.
      apply Hunique in Hk; [lia|done].
  - intros k x Hk. cbn in Hk.
    destruct (decide (k = i)) as [->|Hne].
    + rewrite list_lookup_insert_eq in Hk by done. injection Hk as <-. by right.
    + rewrite list_lookup_insert_ne in Hk by done. by apply Hwf.
  - intros id' Hne H0. unfold shell_job_find. cbn.
    apply list_find_insert_irrelevant.
    + cbn. lia.
    + intros x Hx Hid'. rewrite Hi in Hx. injection Hx as <-.
      destruct (Hwf i j0 Hi) as [?|?]; lia.
Qed.

Lemma job_create_then_find_witness :
  let w := jobs fresh_shell in
  let w' := (shell_job_create w 7 (lit "sleep 5") false).2 in
  ∃ i : nat,
    1 = Z.of_nat i + 1
    ∧ shell_job_find w' 1
      = Some (i, {| job_id := 1; job_pid := 7; job_pgid := 7;
                    job_state := JOB_RUNNING;
                    job_command := strncpy (lit "sleep 5") (SHELL_MAX_LINE - 1);
                    foreground := false |})
    ∧ jobs_wf w'
    ∧ ∀ id', id' ≠ 1 → id' ≠ 0 → shell_job_find w' id' = shell_job_find w id'.
Proof.
  apply (job_create_then_find (jobs fresh_shell) 7 (lit "sleep 5") false 1).
  - intros i j [-> _]%lookup_replicate. left. reflexivity.
  - vm_compute. reflexivity.
  - discriminate.
Defined.

Lemma run_turn_length t : ∀ w,
  length (shell_jobs (run_turn w t)) = length (shell_jobs w).
Proof.
  unfold run_turn. induction t as [|n t IH]; intros w; cbn [foldl]; [done|].
  rewrite IH. unfold shell_job_update.
  destruct (shell_job_find _ _) as [[??]|]; [|done].
  cbn. by rewrite length_insert.
Qed.

(** X18: [shell_wait_job] returns SYSERR at once for an unknown job; for a
    known one it returns only OK, and only once the job is no longer
    Running; while the job stays Running it polls as long as turns are
    left. *)
Theorem wait_job_returns_when_not_running (w : job_table) (id : Z)
    (sched : list turn) :
  match shell_wait_job w id sched with
  | Returns (r, w', sched') =>
      match shell_job_find w id with
      | None => r = SYSERR ∧ w' = w ∧ sched' = sched
      | Some (i, _) =>
          r = OK
          ∧ (∃ done, sched = done ++ sched' ∧ w' = foldl run_turn w done)
          ∧ ∃ j, shell_jobs w' !! i = Some j ∧ job_state j ≠ JOB_RUNNING
      end
  | Spins w' =>
      ∃ i j0 j, shell_job_find w id = Some (i, j0)
                ∧ w' = foldl run_turn w sched
                ∧ shell_jobs w' !! i = Some j ∧ job_state j = JOB_RUNNING
  end.
Proof.
  unfold shell_wait_job.
  destruct (shell_job_find w id) as [[i j0]|] eqn:Hfind; [|done].
  apply list_find_Some in Hfind as (Hi & _ & _).
  assert (i < length (shell_jobs w))%nat as Hlt by (by eapply lookup_lt_Some).
  clear Hi. revert w Hlt.
  induction sched as [|t sched IH]; intros w Hlt; cbn [wait_loop].
  - destruct (lookup_lt_is_Some_2 _ _ Hlt) as [j Hj]. rewrite Hj. cbn.
    destruct (job_state j) eqn:Hst;
      try (split; [done|]; split; [by exists []|]; exists j; by rewrite Hst).
    by exists i, j0, j.
  - destruct (lookup_lt_is_Some_2 _ _ Hlt) as [j Hj]. rewrite Hj. cbn.
    destruct (job_state j) eqn:Hst;
      try (split; [done|]; split; [by exists []|]; exists j; by rewrite Hst).
    specialize (IH (run_turn w t)).
    rewrite run_turn_length in IH. specialize (IH Hlt).
    destruct (wait_loop (run_turn w t) i sched) as [[w' sched']|w'].
    + destruct IH as (_ & (done & -> & ->) & Hj'). split; [done|].
      split; [by exists (t :: done)|done].
    + destruct IH as (i' & j0' & j' & [= <- <-] & -> & Hj').
      by exists i, j0, j'.
Qed.

(** ** The environment *)

Lemma shell_setenv_inv sh nm value r sh' :
  (length nm ≤ 63)%nat →
  shell_setenv sh nm value = (r, sh') →
  (r = SYSERR ∧ sh' = sh
   ∧ shell_getenv sh nm = None
   ∧ Forall (λ e, env_defined e = true) (shell_env sh))
  ∨ ∃ i e0,
      r = OK
      ∧ (list_find (λ e, env_defined e = true ∧ env_name e = nm) (shell_env sh)
         = Some (i, e0)
         ∨ (list_find (λ e, env_defined e = true ∧ env_name e = nm) (shell_env sh)
            = None
            ∧ list_find (λ e, env_defined e = false) (shell_env sh) = Some (i, e0)))
      ∧ sh' = with_env (<[i := {| env_name := nm;
                                  env_value := strncpy value 255;
                                  env_defined := true |}]> (shell_env sh)) sh.
Proof.
  intros Hlen. unfold shell_setenv, shell_getenv.
  destruct (list_find (λ e, env_defined e = true ∧ env_name e = nm) _)
    as [[i e0]|] eqn:Hfound.
  - intros [= <- <-]. right. exists i, e0. split; [done|]. split; [by left|].
    apply list_find_Some in Hfound as (_ & [-> ->] & _). done.
  - destruct (list_find (λ e, env_defined e = false) _) as [[i e0]|] eqn:Hfree.
    + intros [= <- <-]. right. exists i, e0. split; [done|].
      split; [by right|]. by rewrite (strncpy_short nm) by done.
    + intros [= <- <-]. left. split_and!; [done..|].
      apply list_find_None in Hfree. eapply Forall_impl; [exact Hfree|]. cbn.
      intros e He. by destruct (env_defined e).
Qed.


(** X19: a variable that was set reads back as its value cut to 255
    characters, and every other variable reads as before; the call fails,
    with SYSERR and no change, exactly when the variable is new and no slot
    is free; and no name comes to stand in two slots. *)
Theorem setenv_then_getenv (sh : shell_t) (nm value : cstring) :
  (length nm ≤ 63)%nat →
  let r := (shell_setenv sh nm value).1 in
  let sh' := (shell_setenv sh nm value).2 in
  (r = OK ∨ r = SYSERR)
  ∧ (r = OK → shell_getenv sh' nm = Some (strncpy value 255))
  ∧ (r = SYSERR → sh' = sh)
  ∧ (r = SYSERR ↔ shell_getenv sh nm = None
                  ∧ Forall (λ e, env_defined e = true) (shell_env sh))
  ∧ (∀ nm', nm' ≠ nm → shell_getenv sh' nm' = shell_getenv sh nm')
  ∧ (env_wf sh → env_wf sh').
Proof.
  intros Hlen r sh'.
  destruct (shell_setenv sh nm value) as [r0 sh0] eqn:Hset. subst r sh'.
  cbn [fst snd].
  destruct (shell_setenv_inv _ _ _ _ _ Hlen Hset)
    as [(-> & -> & Hnone & Hfull)|(i & e0 & -> & Hwhy & ->)].
  { split_and!; try done; by right. }
  set (e := {| env_name := nm; env_value := strncpy value 255;
               env_defined := true |}).
  assert (shell_env sh !! i = Some e0) as Hi
    by (destruct Hwhy as [H|[_ H]]; by apply list_find_Some in H as (? & _)).
  assert (env_defined e0 = true → env_name e0 = nm) as Hname.
  { destruct Hwhy as [H|[_ H]]; apply list_find_Some in H as (_ & H & _).
    - by destruct H.
    - congruence. }
  assert (list_find (λ e, env_defined e = true ∧ env_name e = nm)
            (<[i := e]> (shell_env sh)) = Some (i, e)) as Hfind.
  { destruct Hwhy as [Hfound|[Hnone Hfree]].
    - by eapply list_find_insert_same.
    - by eapply list_find_insert_first. }
  assert (∀ k x, shell_env sh !! k = Some x → env_defined x = true →
                 env_name x = nm → env_wf sh → k = i) as Hother.
  { intros k x Hk Hd Hn Hwf. destruct Hwhy as [Hfound|[Hnone _]].
    - apply list_find_Some in Hfound as (_ & [Hd0 Hn0] & _).
      eapply Hwf; [done..|congruence].
    - apply list_find_None in Hnone. rewrite Forall_lookup in Hnone.
      by destruct (Hnone k x Hk). }
  split_and!.
  - by left.
  - intros _. unfold shell_getenv. cbn. by rewrite Hfind.
  - intros [=].
  - split; [intros [=]|]. intros [Hnone Hfull]. exfalso.
    destruct Hwhy as [Hfound|[_ Hfree]].
    + unfold shell_getenv in Hnone. by rewrite Hfound in Hnone.
    + apply list_find_Some in Hfree as (_ & Hfree & _).
      rewrite Forall_lookup in Hfull. specialize (Hfull i e0 Hi). congruence.
  - intros nm' Hne. unfold shell_getenv. cbn. f_equal.
    apply list_find_insert_irrelevant.
    + intros [_ ?]. done.
    + intros x Hx [Hd Hn]. rewrite Hi in Hx. injection Hx as <-.
      specialize (Hname Hd). congruence.
  - intros Hwf a b e1 e2 Ha Hb Hd1 Hd2 Hn. cbn in Ha, Hb.
    destruct (decide (a = i)) as [->|Hai], (decide (b = i)) as [->|Hbi];
      [done|..].
    + rewrite list_lookup_insert_eq in Ha by (by eapply lookup_lt_Some).
      rewrite list_lookup_insert_ne in Hb by done. injection Ha as <-.
      symmetry. eapply Hother; done.
    + rewrite list_lookup_insert_eq in Hb by (by eapply lookup_lt_Some).
      rewrite list_lookup_insert_ne in Ha by done. injection Hb as <-.
      eapply Hother; done.
    + rewrite list_lookup_insert_ne in Ha, Hb by done. by eapply Hwf.
Qed.

Lemma setenv_then_getenv_witness :
  (shell_setenv fresh_shell (lit "HOME") (lit "/root")).1 = OK
  ∧ shell_getenv (shell_setenv fresh_shell (lit "HOME") (lit "/root")).2
      (lit "HOME") = Some (lit "/root").
Proof.
  destruct (setenv_then_getenv fresh_shell (lit "HOME") (lit "/root"))
    as (_ & Hok & _).
  - vm_compute. lia.
  - split; [reflexivity|]. apply Hok. reflexivity.
Defined.

(** X20: unsetting a variable of an environment in which no name stands
    in two slots makes it unset and leaves the others as they are;
    unsetting a variable that is not set returns SYSERR and changes
    nothing. *)
Theorem unsetenv_then_getenv (sh : shell_t) (nm : cstring) :
  env_wf sh →
  let r := (shell_unsetenv sh nm).1 in
  let sh' := (shell_unsetenv sh nm).2 in
  shell_getenv sh' nm = None
  ∧ (r = if shell_getenv sh nm is Some _ then OK else SYSERR)
  ∧ (r = SYSERR → sh' = sh)
  ∧ (∀ nm', nm' ≠ nm → shell_getenv sh' nm' = shell_getenv sh nm')
  ∧ env_wf sh'.
Proof.
  intros Hwf. unfold shell_unsetenv, shell_getenv.
  destruct (list_find (λ e, env_defined e = true ∧ env_name e = nm)
              (shell_env sh))
    as [[i e0]|] eqn:Hfound; cbn [fst snd fmap option_fmap option_map];
    [|by rewrite Hfound].
  pose proof Hfound as (Hi & [Hd Hn] & Hfirst)%list_find_Some.
  set (e := {| env_name := env_name e0; env_defined := false |}).
  split_and!; try done.
  - cbn. replace (list_find _ _) with (@None (nat * env_entry)); [done|].
    symmetry. apply list_find_None, Forall_lookup. intros k x Hk [Hdx Hnx].
    destruct (decide (k = i)) as [->|Hki].
    + rewrite list_lookup_insert_eq in Hk by (by eapply lookup_lt_Some).
      by injection Hk as <-.
    + rewrite list_lookup_insert_ne in Hk by done.
      apply Hki. eapply Hwf; [done..|congruence].
  - intros nm' Hne. cbn. f_equal. apply list_find_insert_irrelevant.
    + by intros [? _].
    + intros x Hx [_ Hnx]. rewrite Hi in Hx. injection Hx as <-. congruence.
  - intros a b e1 e2 Ha Hb Hd1 Hd2 Hname. cbn in Ha, Hb.
    destruct (decide (a = i)) as [->|Hai].
    { rewrite list_lookup_insert_eq in Ha by (by eapply lookup_lt_Some).
      by injection Ha as <-. }
    destruct (decide (b = i)) as [->|Hbi].
    { rewrite list_lookup_insert_eq in Hb by (by eapply lookup_lt_Some).
      by injection Hb as <-. }
    rewrite list_lookup_insert_ne in Ha, Hb by done. by eapply Hwf.
Qed.

Lemma unsetenv_then_getenv_witness :
  let sh := (shell_setenv fresh_shell (lit "HOME") (lit "/root")).2 in
  shell_getenv (shell_unsetenv sh (lit "HOME")).2 (lit "HOME") = None
  ∧ (shell_unsetenv sh (lit "HOME")).1 = OK.
Proof.
  destruct (unsetenv_then_getenv
              (shell_setenv fresh_shell (lit "HOME") (lit "/root")).2
              (lit "HOME")) as (Hgone & Hr & _).
  - intros i j e1 e2 Hi Hj Hd1 Hd2 _.
    destruct i as [|i];
      [|apply lookup_replicate in Hi as [-> _]; discriminate].
    destruct j as [|j];
      [reflexivity|apply lookup_replicate in Hj as [-> _]; discriminate].
  - split; [exact Hgone|exact Hr].
Defined.

(** ** Aliases *)

Lemma aliases_in_use_le t : (aliases_in_use t ≤ length (aliases t))%nat.
Proof. apply length_filter. Qed.

Lemma apply_alias_op_count t op :
  length (aliases t) = SHELL_MAX_ALIAS →
  alias_count t = Z.of_nat (aliases_in_use t) →
  length (aliases (apply_alias_op t op)) = SHELL_MAX_ALIAS
  ∧ alias_count (apply_alias_op t op)
    = Z.of_nat (aliases_in_use (apply_alias_op t op)).
Proof.
  intros Hlen Hcount. pose proof (aliases_in_use_le t) as Hle.
  unfold SHELL_MAX_ALIAS in *.
  destruct op as [nm value|nm]; cbn [apply_alias_op].
  - unfold shell_alias_set.
    destruct (list_find (alias_named nm) (aliases t)) as [[i a]|] eqn:Hfound.
    + apply list_find_Some in Hfound as (Hi & [Hd Hn] & _). cbn.
      rewrite length_insert. split; [done|]. unfold aliases_in_use in *. cbn.
      pose proof (filter_insert_length (λ a, alias_defined a = true) _ i a
                    {| alias_name := alias_name a;
                       alias_value := strncpy value (SHELL_MAX_LINE - 1);
                       alias_defined := alias_defined a |} Hi) as Hf.
      cbn in Hf. rewrite Hd in *. repeat case_decide; try done. lia.
    + destruct (list_find alias_free (aliases t)) as [[i a]|] eqn:Hfree;
        [|done].
      apply list_find_Some in Hfree as (Hi & Hd & _). cbn.
      rewrite length_insert. split; [done|]. unfold aliases_in_use in *. cbn.
      pose proof (filter_insert_length (λ a, alias_defined a = true) _ i a
                    {| alias_name := strncpy nm (SHELL_MAX_CMD - 1);
                       alias_value := strncpy value (SHELL_MAX_LINE - 1);
                       alias_defined := true |} Hi) as Hf.
      unfold alias_free in Hd. cbn in Hf. rewrite Hd in Hf.
      repeat case_decide; try done.
      pose proof (length_filter (λ a, alias_defined a = true)
                    (<[i := {| alias_name := strncpy nm (SHELL_MAX_CMD - 1);
                       alias_value := strncpy value (SHELL_MAX_LINE - 1);
                       alias_defined := true |}]> (aliases t))) as Hle'.
      rewrite length_insert in Hle'.
      rewrite Hcount. unfold wrap32. rewrite Z.mod_small; lia.
  - unfold shell_alias_remove.
    destruct (list_find (alias_named nm) (aliases t)) as [[i a]|] eqn:Hfound;
      [|done].
    apply list_find_Some in Hfound as (Hi & [Hd Hn] & _). cbn.
    rewrite length_insert. split; [done|]. unfold aliases_in_use in *. cbn.
    pose proof (filter_insert_length (λ a, alias_defined a = true) _ i a
                  {| alias_name := alias_name a; alias_value := alias_value a;
                     alias_defined := false |} Hi) as Hf.
    cbn in Hf. rewrite Hd in Hf. repeat case_decide; try done.
    rewrite Hcount. unfold wrap32. rewrite Z.mod_small; lia.
Qed.

(** X21: whatever aliases are set and removed after [shell_init], the
    alias counter equals the number of aliases in use, and never exceeds the
    32 slots. *)
Theorem alias_count_tracks (ops : list alias_op) :
  let t := foldl apply_alias_op no_aliases ops in
  alias_count t = Z.of_nat (aliases_in_use t) ∧ 0 ≤ alias_count t ≤ 32.
Proof.
  cbn zeta.
  assert (length (aliases (foldl apply_alias_op no_aliases ops))
          = SHELL_MAX_ALIAS
          ∧ alias_count (foldl apply_alias_op no_aliases ops)
            = Z.of_nat (aliases_in_use (foldl apply_alias_op no_aliases ops)))
    as [Hlen Hcount].
  { induction ops as [|op ops IH] using rev_ind; [done|].
    rewrite foldl_app. cbn [foldl]. destruct IH. by apply apply_alias_op_count. }
  split; [done|]. rewrite Hcount.
  pose proof (aliases_in_use_le (foldl apply_alias_op no_aliases ops)).
  unfold SHELL_MAX_ALIAS in *. lia.
Qed.



(** ** Reading a line *)

Lemma readline_loop_fits input : ∀ buf size s rest,
  Z.of_nat (length buf) ≤ size - 1 →
  readline_loop input buf size = (Line s, rest) →
  Z.of_nat (length s) < size.
Proof.
  induction input as [|ch input IH]; intros buf size s rest Hbuf;
    cbn [readline_loop];
    pose proof (ShellFacts.c_str_length buf) as Hc.
  - destruct (_ <? _); cbn [negb]; intros [= <- <-]; lia.
  - destruct (Z.of_nat (length buf) <? size - 1) eqn:Hroom; cbn [negb];
      [|intros [= <- <-]; lia].
    destruct (is_eol ch); [intros [= <- <-]; lia|].
    destruct (is_erase ch).
    { apply IH. destruct buf using rev_ind; [done|].
      rewrite removelast_last. rewrite length_app in Hbuf. lia. }
    destruct (ch =? "003")%char; [intros [= <- <-]; cbn; lia|].
    destruct (ch =? "004")%char.
    { intros Hres.
      assert (s = c_str buf) as -> by (destruct buf; by simplify_eq). lia. }
    apply IH. rewrite length_app. cbn. lia.
Qed.

(** X23: a line that is returned leaves room for its terminator in a
    buffer of [size] bytes, whatever is typed. *)
Theorem shell_readline_fits (input : list ascii) (size : Z)
    (s : cstring) (rest : list ascii) :
  1 ≤ size →
  shell_readline input size = (Line s, rest) →
  Z.of_nat (length s) < size.
Proof.
  intros Hsize. apply readline_loop_fits. cbn. lia.
Qed.

Lemma shell_readline_fits_witness :
  Z.of_nat (length (lit "abc")) < 4.
Proof.
  apply (shell_readline_fits (lit "abcdef" ++ ["010"%char]) 4 (lit "abc")
           (lit "def" ++ ["010"%char])).
  - lia.
  - vm_compute. reflexivity.
Defined.

Lemma c_str_typed s : Forall typed s → c_str s = s.
Proof.
  induction 1 as [|ch s (_ & _ & _ & _ & Hch) _ IH]; [done|]. cbn.
  rewrite ShellFacts.eqb_NUL_false by done. by rewrite IH.
Qed.

Lemma readline_loop_typed pre : ∀ input buf size,
  Forall typed pre →
  Z.of_nat (length buf) + Z.of_nat (length pre) ≤ size - 1 →
  readline_loop (pre ++ input) buf size = readline_loop input (buf ++ pre) size.
Proof.
  induction pre as [|ch pre IH]; intros input buf size Hpre Hfit.
  { by rewrite app_nil_r. }
  apply Forall_cons in Hpre as [(He & Hb & H3 & H4 & _) Hpre].
  cbn [app readline_loop length] in *.
  replace (Z.of_nat (length buf) <? size - 1) with true by lia.
  cbn [negb]. rewrite He, Hb.
  destruct (Ascii.eqb_spec ch "003"); [done|].
  destruct (Ascii.eqb_spec ch "004"); [done|].
  rewrite IH; [|done|rewrite length_app; cbn; lia].
  by rewrite <- app_assoc.
Qed.

(** X24: typing a line of ordinary characters and a newline returns the
    line and leaves what follows unread; a line that does not fit is cut to
    [size - 1] characters and its remainder, newline included, stays to be
    read as the next line. *)
Theorem shell_readline_line (line rest : list ascii) (size : Z) :
  1 ≤ size →
  Forall typed line →
  shell_readline (line ++ "010"%char :: rest) size
  = if Z.of_nat (length line) <? size - 1 then (Line line, rest)
    else (Line (take (Z.to_nat (size - 1)) line),
          drop (Z.to_nat (size - 1)) line ++ "010"%char :: rest).
Proof.
  intros Hsize Hline. unfold shell_readline.
  destruct (Z.of_nat (length line) <? size - 1) eqn:Hfit.
  - rewrite readline_loop_typed; [|done|cbn; lia]. cbn [app readline_loop].
    replace (Z.of_nat (length line) <? size - 1) with true.
    cbn. by rewrite c_str_typed.
  - rewrite <- (take_drop (Z.to_nat (size - 1)) line) at 1.
    rewrite <- app_assoc.
    rewrite readline_loop_typed;
      [|by apply Forall_take|rewrite length_take; cbn; lia].
    cbn [app].
    assert (Z.of_nat (length (take (Z.to_nat (size - 1)) line)) = size - 1)
      as Hlen by (rewrite length_take; lia).
    destruct (drop _ line ++ _) eqn:Hd; cbn [readline_loop]; rewrite Hlen;
      replace (size - 1 <? size - 1) with false by lia; cbn [negb];
      by rewrite c_str_typed by (by apply Forall_take).
Qed.

Lemma shell_readline_line_witness :
  shell_readline (lit "ls" ++ "010"%char :: lit "pwd") 256
  = (Line (lit "ls"), lit "pwd")
  ∧ shell_readline (lit "ls -l" ++ "010"%char :: lit "pwd") 4
    = (Line (lit "ls "), lit "-l" ++ "010"%char :: lit "pwd").
Proof.
  split.
  - apply (shell_readline_line (lit "ls") (lit "pwd") 256); [lia|].
    apply (bool_decide_unpack _). vm_compute. exact I.
  - apply (shell_readline_line (lit "ls -l") (lit "pwd") 4); [lia|].
    apply (bool_decide_unpack _). vm_compute. exact I.
Defined.

(** X25: a backspace takes back the character typed before it. *)
Theorem shell_readline_backspace (pre rest : list ascii) (ch bs : ascii)
    (size : Z) :
  Forall typed pre → typed ch → is_erase bs = true →
  Z.of_nat (length pre) + 1 < size - 1 →
  shell_readline (pre ++ ch :: bs :: rest) size
  = shell_readline (pre ++ rest) size.
Proof.
  intros Hpre Hch Hbs Hfit. unfold shell_readline.
  rewrite !readline_loop_typed by (done || cbn; lia).
  change (ch :: bs :: rest) with ([ch] ++ bs :: rest).
  rewrite readline_loop_typed;
    [|by apply Forall_singleton|rewrite length_app; cbn; lia].
  cbn [readline_loop]. rewrite length_app. cbn [length app].
  rewrite (proj2 (Z.ltb_lt _ _)) by lia. cbn [negb].
  assert (is_eol bs = false) as ->.
  { unfold is_erase, is_eol in *.
    apply orb_true_iff in Hbs as [->%Ascii.eqb_eq| ->%Ascii.eqb_eq]; done. }
  rewrite Hbs. by rewrite removelast_last.
Qed.

Lemma shell_readline_backspace_witness :
  shell_readline (lit "l" ++ "x"%char :: "008"%char :: lit "s") 256
  = shell_readline (lit "l" ++ lit "s") 256.
Proof.
  apply (shell_readline_backspace (lit "l") (lit "s") "x" "008" 256).
  - apply (bool_decide_unpack _). vm_compute. exact I.
  - apply (bool_decide_unpack _). vm_compute. exact I.
  - reflexivity.
  - vm_compute. reflexivity.
Defined.

(** ** Built-in commands *)

(** X26: [[ args ]] tests what [test args] tests, and the closing bracket
    may be left out. *)
Theorem cmd_test_brackets (atoi : cstring → Z) (args : list cstring) :
  cmd_test atoi (lit "[" :: args ++ [lit "]"]) = cmd_test atoi (lit "test" :: args)
  ∧ (last args ≠ Some (lit "]") →
     cmd_test atoi (lit "[" :: args) = cmd_test atoi (lit "test" :: args)).
Proof.
  split.
  - unfold cmd_test.
    replace (arg (lit "[" :: args ++ [lit "]"])
               (length (lit "[" :: args ++ [lit "]"]) - 1)) with (lit "]").
    2:{ unfold arg. cbn [length]. rewrite length_app. cbn [length].
        replace (S (length args + 1) - 1)%nat with (S (length args)) by lia.
        change ((lit "[" :: args ++ [lit "]"]) !! S (length args))
          with ((args ++ [lit "]"]) !! length args).
        by rewrite list_lookup_middle. }
    cbn [length]. rewrite length_app. cbn [length].
    destruct args as [|a1 [|a2 [|a3 [|a4 args]]]]; try done.
    cbn [length app]. 
    replace (S (S (S (S (S (length args)))) + 1) - 1)%nat
      with (S (S (S (S (S (length args)))))) by lia.
    done.
  - intros Hlast. unfold cmd_test.
    destruct args as [|a1 args]; [done|].
    replace (arg (lit "[" :: a1 :: args) (length (lit "[" :: a1 :: args) - 1))
      with (default [] (last (a1 :: args))).
    2:{ unfold arg. cbn [length]. rewrite last_lookup. cbn [length].
        by replace (S (S (length args)) - 1)%nat with (S (length args)) by lia. }
    destruct (last (a1 :: args)) as [l|] eqn:Hl.
    + cbn [default from_option id].
      assert (streq l (lit "]") = false) as ->
        by (apply bool_decide_eq_false_2; by intros ->).
      by rewrite andb_false_r.
    + by rewrite last_None in Hl.
Qed.

Lemma cmd_test_brackets_witness :
  let atoi (s : cstring) := 0 in
  cmd_test atoi [lit "["; lit "a"; lit "="; lit "a"; lit "]"]
  = cmd_test atoi [lit "test"; lit "a"; lit "="; lit "a"]
  ∧ cmd_test atoi [lit "["; lit "a"; lit "="; lit "a"]
    = cmd_test atoi [lit "test"; lit "a"; lit "="; lit "a"].
Proof.
  destruct (cmd_test_brackets (λ _, 0) [lit "a"; lit "="; lit "a"])
    as [Hclosed Hopen].
  split; [exact Hclosed|]. apply Hopen. discriminate.
Defined.





Lemma run_turn_keeps_unused t : ∀ w j0 rest,
  shell_jobs w = j0 :: rest → job_id j0 = 0 →
  Forall (λ n : Z * job_state_t, n.1 ≠ 0) t →
  ∃ rest', shell_jobs (run_turn w t) = j0 :: rest'.
Proof.
  unfold run_turn. induction t as [|n t IH]; intros w j0 rest Hjobs Hid Ht;
    cbn [foldl]; [by eauto|].
  apply Forall_cons in Ht as [Hn Ht].
  assert (∃ rest1, shell_jobs (shell_job_update w n.1 n.2) = j0 :: rest1)
    as [rest1 Hjobs1]; [|by eapply IH].
  unfold shell_job_update, shell_job_find.
  destruct (list_find _ _) as [[i x]|] eqn:Hfind; [|by eauto].
  apply list_find_Some in Hfind as (Hi & Hx & _). cbn.
  destruct i as [|i]; [|rewrite Hjobs; by eauto].
  rewrite Hjobs in Hi. injection Hi as <-. congruence.
Qed.

Lemma wait_loop_unused_spins sched : ∀ w j0 rest,
  shell_jobs w = j0 :: rest → job_id j0 = 0 → job_state j0 = JOB_RUNNING →
  Forall (Forall (λ n : Z * job_state_t, n.1 ≠ 0)) sched →
  ∃ w', wait_loop w 0 sched = Spins w'.
Proof.
  induction sched as [|t sched IH]; intros w j0 rest Hjobs Hid Hst Hsched;
    cbn [wait_loop]; rewrite Hjobs; cbn; rewrite Hst; [by eauto|].
  apply Forall_cons in Hsched as [Ht Hsched].
  destruct (run_turn_keeps_unused t w j0 rest Hjobs Hid Ht) as [rest' Hjobs'].
  by eapply IH.
Qed.

(** X29: when no job was ever created, [fg] without argument does not
    report a missing job: it takes the unused first slot for job 0, marks it
    Running and waits on it; nothing but a notification for job 0 ends the
    wait. *)
Theorem fg_without_jobs_spins (atoi : cstring → Z) (sh : shell_t)
    (cmd : cstring) (j : shell_job_t) (rest : list shell_job_t)
    (sched : list turn) :
  shell_job_count (jobs sh) = 0 →
  shell_jobs (jobs sh) = j :: rest →
  job_id j = 0 → job_pid j = 0 →
  Forall (Forall (λ n : Z * job_state_t, n.1 ≠ 0)) sched →
  ∃ w, cmd_fg atoi [cmd] sh sched = Spins w.
Proof.
  intros Hcount Hjobs Hid Hpid Hsched.
  unfold cmd_fg. cbn [length Nat.ltb Nat.leb].
  rewrite Hcount. unfold shell_job_find. rewrite Hjobs. cbn [list_find].
  rewrite decide_True by done. cbn [fmap option_fmap option_map].
  unfold shell_fg, shell_job_find_by_pid. rewrite Hjobs. cbn [list_find].
  rewrite decide_True by done. cbn [fmap option_fmap option_map].
  unfold shell_wait_job, shell_job_find. rewrite Hid.
  set (w1 := if decide (job_state j = JOB_STOPPED) is left _
             then resume (job_pid j) (jobs sh) else jobs sh).
  assert (shell_jobs w1 = j :: rest) as Hw1 by (subst w1; by case_match).
  rewrite Hw1. cbn [set_jobs shell_jobs]. cbn [insert list_insert list_find].
  rewrite decide_True by done. cbn [fmap option_fmap option_map prod_map fst snd].
  edestruct (wait_loop_unused_spins sched) as [w' ->]; [..|by eauto]; done.
Qed.

Lemma fg_without_jobs_spins_witness :
  ∃ w, cmd_fg (λ _, 0) [lit "fg"] fresh_shell [[(1, JOB_DONE)]; []] = Spins w.
Proof.
  apply (fg_without_jobs_spins (λ _, 0) fresh_shell (lit "fg") zero_job
           (replicate 31 zero_job) [[(1, JOB_DONE)]; []]); try reflexivity.
  apply (bool_decide_unpack _). vm_compute. exact I.
Defined.

(** ** The history after any sequence of commands *)

(** X30: after any commands have been added to an empty history, the
    history holds the last 50 entries of what was remembered, oldest
    first. *)
Theorem history_after_any_commands (st : shell_state_t) (cmds : list cstring) :
  history_wf st → history_count st = 0 →
  let log := remembered cmds in
  let st' := foldl shell_history_add st cmds in
  contents st' = drop (length log - Z.to_nat SHELL_HISTORY_SIZE) log
  ∧ ∀ i : nat, shell_history_get st' (Z.of_nat i)
               = log !! (length log - Z.to_nat SHELL_HISTORY_SIZE + i)%nat.
Proof.
  intros Hwf Hempty log st'.
  assert (history_wf st'
          ∧ contents st' = drop (length log - Z.to_nat SHELL_HISTORY_SIZE) log)
    as [_ Hcont].
  { subst log st'. unfold remembered.
    induction cmds as [|x cmds IH] using rev_ind.
    { split; [done|]. cbn [foldl]. unfold contents. by rewrite Hempty. }
    rewrite !foldl_app. cbn [foldl]. destruct IH as [Hwf1 Hc1].
    set (st1 := foldl shell_history_add st cmds) in *.
    set (log := foldl remember [] cmds) in *.
    pose proof (ShellFacts.contents_length st1) as Hl1. rewrite Hc1, length_drop in Hl1.
    assert (last (contents st1) = last log) as Hlast.
    { rewrite Hc1. destruct log as [|y log'] eqn:Hlog; [done|].
      apply last_drop_lt. unfold SHELL_HISTORY_SIZE. cbn [length]. lia. }
    unfold remember. destruct (decide (x = [] ∨ last log = Some x)) as [Hskip|Hnew].
    - assert (shell_history_add st1 x = st1) as ->; [|done].
      destruct Hskip as [->|Hrep]; [done|].
      apply ShellFacts.shell_history_add_repeat. by rewrite Hlast.
    - assert (x ≠ []) as Hne by (intros ?; apply Hnew; by left).
      assert (last log ≠ Some x) as Hnl by (intros ?; apply Hnew; by right).
      destruct (ShellFacts.shell_history_add_fresh st1 x) as [Hwf2 Hc2];
        [done|done|by rewrite Hlast|].
      split; [done|]. rewrite Hc2, Hc1.
      destruct Hwf1 as (_ & Hcount & _). unfold SHELL_HISTORY_SIZE in *.
      rewrite length_app. cbn [length].
      destruct (history_count st1 <? 50) eqn:Hfull.
      + replace (length log - Z.to_nat 50)%nat with 0%nat by lia.
        replace (length log + 1 - Z.to_nat 50)%nat with 0%nat by lia.
        done.
      + rewrite drop_drop, drop_app_le by lia. do 2 f_equal. lia. }
  split; [done|]. intros i. rewrite ShellFacts.shell_history_get_contents.
  rewrite (proj2 (Z.ltb_ge _ _)) by lia.
  by rewrite Nat2Z.id, Hcont, lookup_drop.
Qed.

Lemma history_after_any_commands_witness :
  let cmds := [lit "ls"; lit "ls"; []; lit "pwd"] in
  let st' := foldl shell_history_add (shell_init_state 1) cmds in
  contents st' = [lit "ls"; lit "pwd"]
  ∧ ∀ i : nat, shell_history_get st' (Z.of_nat i)
               = [lit "ls"; lit "pwd"] !! i.
Proof.
  apply (history_after_any_commands (shell_init_state 1)
           [lit "ls"; lit "ls"; []; lit "pwd"]).
  - apply ShellFacts.history_wf_init.
  - reflexivity.
Defined.

End ShellProps.
